(** * md-feedback: the round-trip document model, verified against its source

    A shallow embedding of
      - [shared/gate-evaluator.ts]    (evaluateGate),
      - [shared/document-writer.ts]   (hashLine, splitDocument, mergeDocument,
        reinsertMemos, findMemoAnchorLine, the serializers),
      - [shared/checkpoint.ts]        (getAnnotationCounts),
      - [shared/markdown-roundtrip.ts] (normalizeHighlights),
    followed by the theorems that settle the specification's claims.

    Strings.  A JavaScript string is a finite sequence of UTF-16 code units;
    it is modelled as [list N], one number per code unit, so that
    [charCodeAt], [trim], [split] and the regular expressions of the source
    read as list functions.  String literals of the source are written with
    [lit]; a literal that contains a double quote is assembled with [DQ]. *)

From Stdlib Require Import ZArith NArith Lia List Ascii String Bool.
From stdpp Require Import base list option gmap.
Import ListNotations.

Local Open Scope N_scope.

(** ** Strings *)

Abbreviation jsstring := (list N).

Definition lit (s : string) : jsstring :=
  map N_of_ascii (list_ascii_of_string s).

(** Frequently used code units. *)
Definition DQ : N := 34.   (* the double quote *)
Definition NL : N := 10.   (* \n *)

(** [s === t] on strings. *)
Definition str_eqb (s t : jsstring) : bool := bool_decide (s = t).

(** A string is truthy iff it is non-empty. *)
Definition truthy (s : jsstring) : bool :=
  match s with [] => false | _ => true end.

(** [s || d] on strings. *)
Definition or_else (s d : jsstring) : jsstring :=
  if truthy s then s else d.

(** [o || d] where [o] is a string or [undefined] (a missing capture group,
    a missing property). *)
Definition opt_or (o : option jsstring) (d : jsstring) : jsstring :=
  match o with
  | Some s => or_else s d
  | None => d
  end.

(** *** Character classes of ECMAScript regular expressions *)

(** [\s], which is also the set [String.prototype.trim] removes:
    WhiteSpace and LineTerminator code units. *)
Definition is_ws (c : N) : bool :=
  (9 <=? c) && (c <=? 13) || (c =? 32) || (c =? 160) || (c =? 5760)
  || (8192 <=? c) && (c <=? 8202) || (c =? 8232) || (c =? 8233)
  || (c =? 8239) || (c =? 8287) || (c =? 12288) || (c =? 65279).

(** [\d] *)
Definition is_digit (c : N) : bool := (48 <=? c) && (c <=? 57).

(** [\w] *)
Definition is_word (c : N) : bool :=
  is_digit c || (65 <=? c) && (c <=? 90) || (97 <=? c) && (c <=? 122)
  || (c =? 95).

(** LineTerminator: what [.] does not match. *)
Definition is_line_terminator (c : N) : bool :=
  (c =? 10) || (c =? 13) || (c =? 8232) || (c =? 8233).

Definition is_dot (c : N) : bool := negb (is_line_terminator c).
Definition is_any (c : N) : bool := true.               (* [\s\S] *)
Definition not_chr (x : N) (c : N) : bool := negb (c =? x).   (* [^x] *)
Definition not_dq : N -> bool := not_chr DQ.            (* any code unit but the double quote *)

(** *** String operations *)

Fixpoint drop_while {A} (p : A -> bool) (s : list A) : list A :=
  match s with
  | [] => []
  | c :: s' => if p c then drop_while p s' else s
  end.

Definition trimStart (s : jsstring) : jsstring := drop_while is_ws s.
Definition trimEnd (s : jsstring) : jsstring := rev (drop_while is_ws (rev s)).
Definition trim (s : jsstring) : jsstring := trimEnd (trimStart s).

(** [s.split(c)] for a one-character separator: never the empty list. *)
Fixpoint split_on (sep : N) (s : jsstring) : list jsstring :=
  match s with
  | [] => [[]]
  | c :: s' =>
      if c =? sep then [] :: split_on sep s'
      else match split_on sep s' with
           | h :: t => (c :: h) :: t
           | [] => [[c]]
           end
  end.

(** [xs.join(sep)] *)
Fixpoint join (sep : jsstring) (xs : list jsstring) : jsstring :=
  match xs with
  | [] => []
  | [x] => x
  | x :: rest => x ++ sep ++ join sep rest
  end.

Definition lines_of (s : jsstring) : list jsstring := split_on NL s.
Definition unlines (xs : list jsstring) : jsstring := join [NL] xs.

(** [s.startsWith(p)], returning what follows the prefix. *)
Fixpoint strip_prefix (p s : jsstring) : option jsstring :=
  match p, s with
  | [], _ => Some s
  | a :: p', b :: s' => if a =? b then strip_prefix p' s' else None
  | _ :: _, [] => None
  end.

Definition starts_with (p s : jsstring) : bool :=
  match strip_prefix p s with Some _ => true | None => false end.

(** [s.includes(needle)] *)
Fixpoint includes (needle s : jsstring) : bool :=
  starts_with needle s ||
  match s with
  | [] => false
  | _ :: s' => includes needle s'
  end.

(** [s.replace(/x/g, by)] for a one-character pattern. *)
Definition replace_chr (x : N) (by_ : jsstring) (s : jsstring) : jsstring :=
  flat_map (fun c => if c =? x then by_ else [c]) s.

(** [s.replace(/pat/g, by)] for a literal, non-empty pattern; [skip] counts
    the code units of the current occurrence still to be stepped over. *)
Fixpoint replace_lit (pat by_ : jsstring) (s : jsstring) (skip : nat) : jsstring :=
  match s with
  | [] => []
  | c :: s' =>
      match skip with
      | S k => replace_lit pat by_ s' k
      | O =>
          if starts_with pat s
          then by_ ++ replace_lit pat by_ s' (Nat.pred (length pat))
          else c :: replace_lit pat by_ s' O
      end
  end.

(** Numbers in decimal: [String(n)] and template interpolation of a
    non-negative integer.  JavaScript prints the digits of the integer as
    long as it is a safe integer (below 2^53); from there on a number is a
    rounded double, and from 10^21 on it is printed with an exponent.  The
    statements that depend on a printed number bound it accordingly. *)
Fixpoint dec_digits (fuel : nat) (n : N) (acc : jsstring) : jsstring :=
  match fuel with
  | O => acc
  | S f =>
      let acc' := (48 + n mod 10) :: acc in
      if n / 10 =? 0 then acc' else dec_digits f (n / 10) acc'
  end.

Definition to_dec (n : N) : jsstring := dec_digits (S (N.to_nat (N.log2 n))) n [].

(** [parseInt(s, 10)] on a string of decimal digits: the value of the
    digits, which is what JavaScript returns as long as that value is a safe
    integer (below 2^53); a greater value is rounded to a double there.  Line
    numbers stay below the number of lines of a text; the counts of a
    checkpoint are bounded where a statement depends on them
    ([valid_checkpoint]). *)
Definition parseInt (s : jsstring) : N :=
  fold_left (fun acc c => acc * 10 + (c - 48)) s 0.

(** [n.toString(16)] *)
Definition hex_digit (d : N) : N := if d <? 10 then 48 + d else 87 + d.

Fixpoint hex_digits (fuel : nat) (n : N) (acc : jsstring) : jsstring :=
  match fuel with
  | O => acc
  | S f =>
      let acc' := hex_digit (n mod 16) :: acc in
      if n / 16 =? 0 then acc' else hex_digits f (n / 16) acc'
  end.

Definition to_hex (n : N) : jsstring := hex_digits (S (N.to_nat (N.log2 n))) n [].

(** [s.padStart(len, c)] for a one-character pad, and [s.slice(0, len)]. *)
Definition padStart (len : nat) (c : N) (s : jsstring) : jsstring :=
  repeat c (len - length s)%nat ++ s.

Definition slice0 (len : nat) (s : jsstring) : jsstring := firstn len s.

(** ** Regular expressions

    The source recognises every comment dialect with a regular expression.
    They are transcribed one by one into the syntax below and run by a
    backtracking matcher that returns its successes in the priority order
    of ECMAScript (greedy: longest first, lazy: shortest first, an optional
    group: with it first), so that the first success is the match
    [RegExp.prototype.exec] reports.  Every quantifier of the source ranges
    over a character class, hence [Rep]. *)

Module Regex.

Inductive re : Type :=
| Lit (s : jsstring)                        (* literal characters *)
| Cls (p : N -> bool)                       (* one code unit of a class *)
| Rep (lazy : bool) (min : nat) (p : N -> bool)   (* p*, p+, p*?, p+? *)
| Opt (r : re)                              (* (?:r)? and x? *)
| Seq (r1 r2 : re)
| Alt (r1 r2 : re)
| Grp (n : nat) (r : re)                    (* capture group number n *)
| Bol                                       (* ^ *)
| BolM                                      (* ^ under the m flag *)
| Eol                                       (* $ *)
| WordB                                     (* \b *)
| NotAhead (r : re)                         (* (?!r) *)
| NotBehind (c : N).                        (* (?<!c) for one code unit *)

Definition seqs (rs : list re) : re := fold_right Seq (Lit []) rs.

(** Capture groups: the latest binding of a number is in front. *)
Abbreviation captures := (list (nat * jsstring)).

Fixpoint cap (n : nat) (cs : captures) : option jsstring :=
  match cs with
  | [] => None
  | (k, v) :: cs' => if Nat.eqb k n then Some v else cap n cs'
  end.

(** All ways to read a run of [p] at the head of [s], longest first: pairs
    of the run and what follows it. *)
Fixpoint runs (p : N -> bool) (s : jsstring) : list (jsstring * jsstring) :=
  match s with
  | [] => [([], [])]
  | c :: s' =>
      if p c
      then map (fun '(run, rest) => (c :: run, rest)) (runs p s') ++ [([], s)]
      else [([], s)]
  end.

(** The code unit before the current position, if any. *)
Definition prev_after (prev : option N) (consumed : jsstring) : option N :=
  match last consumed with
  | Some c => Some c
  | None => prev
  end.

Definition opt_is (p : N -> bool) (o : option N) : bool :=
  match o with Some c => p c | None => false end.

(** A success: the text consumed, the text that remains, the captures. *)
Abbreviation success := (jsstring * jsstring * captures)%type.

Fixpoint matches (r : re) (prev : option N) (s : jsstring) (cs : captures)
  : list success :=
  match r with
  | Lit l =>
      match strip_prefix l s with
      | Some rest => [(l, rest, cs)]
      | None => []
      end
  | Cls p =>
      match s with
      | c :: rest => if p c then [([c], rest, cs)] else []
      | [] => []
      end
  | Rep lazy min p =>
      let all := List.filter (fun '(run, _) => (min <=? length run)%nat) (runs p s) in
      map (fun '(run, rest) => (run, rest, cs)) (if lazy then rev all else all)
  | Opt r1 => matches r1 prev s cs ++ [([], s, cs)]
  | Seq r1 r2 =>
      flat_map (fun '(c1, rest1, cs1) =>
                  map (fun '(c2, rest2, cs2) => (c1 ++ c2, rest2, cs2))
                      (matches r2 (prev_after prev c1) rest1 cs1))
               (matches r1 prev s cs)
  | Alt r1 r2 => matches r1 prev s cs ++ matches r2 prev s cs
  | Grp n r1 =>
      map (fun '(c1, rest1, cs1) => (c1, rest1, (n, c1) :: cs1))
          (matches r1 prev s cs)
  | Bol => match prev with None => [([], s, cs)] | Some _ => [] end
  | BolM =>
      match prev with
      | None => [([], s, cs)]
      | Some c => if is_line_terminator c then [([], s, cs)] else []
      end
  | Eol => match s with [] => [([], s, cs)] | _ => [] end
  | WordB =>
      if xorb (opt_is is_word prev) (opt_is is_word (head s))
      then [([], s, cs)] else []
  | NotAhead r1 =>
      match matches r1 prev s cs with
      | [] => [([], s, cs)]
      | _ => []
      end
  | NotBehind c =>
      if opt_is (N.eqb c) prev then [] else [([], s, cs)]
  end.

(** The match at one position: the first success. *)
Definition match_at (r : re) (prev : option N) (s : jsstring) : option success :=
  head (matches r prev s []).

(** A match found by scanning: the text before it, the matched text, the
    text after it, the captures. *)
Record found := mkFound {
  f_before : jsstring;
  f_text : jsstring;
  f_after : jsstring;
  f_caps : captures
}.

(** [re.exec(s)] / [s.match(re)] without the g flag: the leftmost match. *)
Fixpoint search (r : re) (prev : option N) (before s : jsstring) : option found :=
  match match_at r prev s with
  | Some (text, rest, cs) => Some (mkFound (rev before) text rest cs)
  | None =>
      match s with
      | [] => None
      | c :: s' => search r (Some c) (c :: before) s'
      end
  end.

Definition exec (r : re) (s : jsstring) : option found := search r None [] s.

(** [re.test(s)] *)
Definition test (r : re) (s : jsstring) : bool :=
  match exec r s with Some _ => true | None => false end.

(** Capture group [n] of a match: [m[n]], [undefined] as [None]. *)
Definition group (n : nat) (f : found) : option jsstring := cap n (f_caps f).

(** The successive matches of a g-flagged expression, as the loop
    [while ((m = re.exec(s)) !== null)] sees them: each search resumes where
    the previous match ended.  [skip] counts the code units of the current
    match that are still to be stepped over. *)
Fixpoint exec_all (r : re) (prev : option N) (s : jsstring) (skip : nat)
  : list success :=
  match skip with
  | S k =>
      match s with
      | [] => []
      | c :: s' => exec_all r (Some c) s' k
      end
  | O =>
      match match_at r prev s with
      | Some (text, rest, cs) =>
          (text, rest, cs) ::
          match s with
          | [] => []
          | c :: s' => exec_all r (Some c) s' (Nat.pred (length text))
          end
      | None =>
          match s with
          | [] => []
          | c :: s' => exec_all r (Some c) s' O
          end
      end
  end.

End Regex.

(** ** Data model ([shared/types.ts])

    The TypeScript unions ([MemoStatus], [MemoType], ...) are erased at run
    time and [splitDocument] casts whatever attribute value it reads, so the
    fields are strings, as they are when the code runs. *)

Record MemoV2 := mkMemo {
  memo_id : jsstring;
  memo_type : jsstring;
  memo_status : jsstring;
  memo_owner : jsstring;
  memo_source : jsstring;
  memo_color : jsstring;
  memo_text : jsstring;
  memo_anchorText : jsstring;
  memo_anchor : jsstring;
  memo_createdAt : jsstring;
  memo_updatedAt : jsstring
}.

Record Gate := mkGate {
  gate_id : jsstring;
  gate_type : jsstring;
  gate_status : jsstring;
  gate_blockedBy : list jsstring;
  gate_canProceedIf : jsstring;
  gate_doneDefinition : jsstring
}.

Record PlanCursor := mkCursor {
  cursor_taskId : jsstring;
  cursor_step : jsstring;
  cursor_nextAction : jsstring;
  cursor_lastSeenHash : jsstring;
  cursor_updatedAt : jsstring
}.

(** Checkpoint counts are JavaScript numbers that [parseInt] reads from a
    digit string; they are modelled as naturals (exact below 2^53). *)
Record Checkpoint := mkCheckpoint {
  cp_id : jsstring;
  cp_timestamp : jsstring;
  cp_note : jsstring;
  cp_fixes : N;
  cp_questions : N;
  cp_highlights : N;
  cp_sectionsReviewed : list jsstring
}.

Record DocumentParts := mkParts {
  frontmatter : jsstring;
  body : jsstring;
  memos : list MemoV2;
  checkpoints : list Checkpoint;
  gates : list Gate;
  cursor : option PlanCursor;
  unknownComments : list jsstring
}.

Definition s_open : jsstring := Eval cbv in lit "open".
Definition s_red : jsstring := Eval cbv in lit "red".
Definition s_blue : jsstring := Eval cbv in lit "blue".
Definition s_fix : jsstring := Eval cbv in lit "fix".
Definition s_question : jsstring := Eval cbv in lit "question".
Definition s_highlight : jsstring := Eval cbv in lit "highlight".
Definition s_human : jsstring := Eval cbv in lit "human".
Definition s_generic : jsstring := Eval cbv in lit "generic".
Definition s_custom : jsstring := Eval cbv in lit "custom".
Definition s_blocked : jsstring := Eval cbv in lit "blocked".
Definition s_proceed : jsstring := Eval cbv in lit "proceed".
Definition s_done : jsstring := Eval cbv in lit "done".

(** [colorToType] *)
Definition colorToType (color : jsstring) : jsstring :=
  if str_eqb color s_red then s_fix
  else if str_eqb color s_blue then s_question
  else s_highlight.

(** ** Gate evaluator ([shared/gate-evaluator.ts]) *)

Inductive GateResult := Blocked | Proceed | Done.

Definition is_open (m : MemoV2) : bool := str_eqb (memo_status m) s_open.

(** [memos.find(m => m.id === id)]: the first memo carrying the id. *)
Definition find_memo (memos : list MemoV2) (id : jsstring) : option MemoV2 :=
  List.find (fun m => str_eqb (memo_id m) id) memos.

(** [m != null && m.status === 'open'] *)
Definition is_blocking (o : option MemoV2) : bool :=
  match o with
  | Some m => is_open m
  | None => false
  end.

Definition evaluateGate (gate : Gate) (memos : list MemoV2) : GateResult :=
  let after_blockers :=
    let hasOpenMemos := existsb is_open memos in
    if negb hasOpenMemos then Done else Proceed in
  if (0 <? length (gate_blockedBy gate))%nat then
    let blocking :=
      List.filter is_blocking (map (find_memo memos) (gate_blockedBy gate)) in
    if (0 <? length blocking)%nat then Blocked else after_blockers
  else after_blockers.

(** [evaluateAllGates] stores the result in the gate's [status] field. *)
Definition result_string (r : GateResult) : jsstring :=
  match r with
  | Blocked => s_blocked
  | Proceed => s_proceed
  | Done => s_done
  end.

Definition evaluateAllGates (gs : list Gate) (ms : list MemoV2) : list Gate :=
  map (fun g => mkGate (gate_id g) (gate_type g)
                  (result_string (evaluateGate g ms))
                  (gate_blockedBy g) (gate_canProceedIf g)
                  (gate_doneDefinition g)) gs.

(** ** Document writer ([shared/document-writer.ts]) *)

(** *** hashLine: djb2 on 32-bit integers

    [hash << 5] is a signed 32-bit shift, the sum is exact, [>>> 0] reduces
    it to an unsigned 32-bit integer. *)

Definition to_int32 (z : Z) : Z :=
  let m := (z mod 2 ^ 32)%Z in
  if (m <? 2 ^ 31)%Z then m else (m - 2 ^ 32)%Z.

Definition shl32 (x k : Z) : Z := to_int32 (Z.shiftl (to_int32 x) k).

Definition ushr0 (z : Z) : Z := (z mod 2 ^ 32)%Z.

Definition hash_step (hash : Z) (c : N) : Z :=
  ushr0 (shl32 hash 5 + hash + Z.of_N c)%Z.

Definition hashLine (line : jsstring) : jsstring :=
  let hash := fold_left hash_step line 5381%Z in
  slice0 8 (padStart 8 48 (to_hex (Z.to_N hash))).

(** *** Regex patterns *)

Import Regex.

Abbreviation star p := (Rep false 0 p).
Abbreviation plus p := (Rep false 1 p).
Abbreviation star_lazy p := (Rep true 0 p).
Abbreviation plus_lazy p := (Rep true 1 p).

(** The head of an attribute: the key, an equals sign, a double quote
    (written Q in the comments below). *)
Definition attr_head (key : string) : jsstring := lit key ++ [61; DQ].

(** [\s+key=Q([^Q]+)Q], an attribute of a single-line comment bound to
    group [n]. *)
Definition v3_attr (key : string) (n : nat) : re :=
  seqs [plus is_ws; Lit (attr_head key); Grp n (plus not_dq); Lit [DQ]].

(** v0.3 single-line memo:
    [^<!-- USER_MEMO\s+id=Q([^Q]+)Q(?:\s+color=Q([^Q]+)Q)?(?:\s+status=Q([^Q]+)Q)?\s*:\s*(.*?)\s*-->$]
    *)
Definition MEMO_V3_RE : re :=
  seqs [Bol; Lit (lit "<!-- USER_MEMO"); v3_attr "id" 1;
        Opt (v3_attr "color" 2); Opt (v3_attr "status" 3);
        star is_ws; Lit (lit ":"); star is_ws; Grp 4 (star_lazy is_dot);
        star is_ws; Lit (lit "-->"); Eol].

(** [^<!-- USER_MEMO\s*$] and [^-->$] *)
Definition MEMO_V4_START_RE : re := seqs [Bol; Lit (lit "<!-- USER_MEMO"); star is_ws; Eol].
Definition MEMO_V4_END_RE : re := seqs [Bol; Lit (lit "-->"); Eol].

(** [^<!-- GATE\s*$] and [^-->$] *)
Definition GATE_START_RE : re := seqs [Bol; Lit (lit "<!-- GATE"); star is_ws; Eol].
Definition GATE_END_RE : re := seqs [Bol; Lit (lit "-->"); Eol].

(** [^<!-- PLAN_CURSOR\s*$] and [^-->$] *)
Definition CURSOR_START_RE : re := seqs [Bol; Lit (lit "<!-- PLAN_CURSOR"); star is_ws; Eol].
Definition CURSOR_END_RE : re := seqs [Bol; Lit (lit "-->"); Eol].

(** [^<!-- CHECKPOINT\s+id=Q([^Q]+)Q\s+time=Q([^Q]+)Q\s+note=Q([^Q]{0,})Q\s+fixes=(\d+)\s+questions=(\d+)\s+highlights=(\d+)\s+sections=Q([^Q]{0,})Q -->$] *)
Definition CHECKPOINT_RE : re :=
  seqs [Bol; Lit (lit "<!-- CHECKPOINT");
        plus is_ws; Lit (attr_head "id"); Grp 1 (plus not_dq); Lit [DQ];
        plus is_ws; Lit (attr_head "time"); Grp 2 (plus not_dq); Lit [DQ];
        plus is_ws; Lit (attr_head "note"); Grp 3 (star not_dq); Lit [DQ];
        plus is_ws; Lit (lit "fixes="); Grp 4 (plus is_digit);
        plus is_ws; Lit (lit "questions="); Grp 5 (plus is_digit);
        plus is_ws; Lit (lit "highlights="); Grp 6 (plus is_digit);
        plus is_ws; Lit (attr_head "sections"); Grp 7 (star not_dq);
        Lit (DQ :: lit " -->"); Eol].

(** [^---\s*\n([\s\S]*?)\n---\s*\n] *)
Definition FRONTMATTER_RE : re :=
  seqs [Bol; Lit (lit "---"); star is_ws; Lit [NL]; Grp 1 (star_lazy is_any);
        Lit (NL :: lit "---"); star is_ws; Lit [NL]].

(** [^<!-- @memo\s+id=Q([^Q]+)Q(?:\s+color=Q([^Q]+)Q)?(?:\s+date=Q([^Q]+)Q)?\s*-->$]
    and [^<!-- @\/memo -->$] *)
Definition LEGACY_MEMO_START_RE : re :=
  seqs [Bol; Lit (lit "<!-- @memo"); v3_attr "id" 1;
        Opt (v3_attr "color" 2); Opt (v3_attr "date" 3);
        star is_ws; Lit (lit "-->"); Eol].
Definition LEGACY_MEMO_END_RE : re := seqs [Bol; Lit (lit "<!-- @/memo -->"); Eol].

(** [^<!--$] and [MD Feedback] *)
Definition BANNER_START_RE : re := seqs [Bol; Lit (lit "<!--"); Eol].
Definition BANNER_CONTENT_RE : re := Lit (lit "MD Feedback").

(** [^<!-- \/?(USER_FEEDBACK_NOTES|@\/?feedback-notes)\b.*-->$] *)
Definition FEEDBACK_NOTES_RE : re :=
  seqs [Bol; Lit (lit "<!-- "); Opt (Lit (lit "/"));
        Grp 1 (Alt (Lit (lit "USER_FEEDBACK_NOTES"))
                   (seqs [Lit (lit "@"); Opt (Lit (lit "/")); Lit (lit "feedback-notes")]));
        WordB; star is_dot; Lit (lit "-->"); Eol].

(** [^(\w+)=Q([^Q]{0,})Q$], one attribute line of a block comment. *)
Definition ATTR_RE : re :=
  seqs [Bol; Grp 1 (plus is_word); Lit [61; DQ]; Grp 2 (star not_dq); Lit [DQ]; Eol].

(** [^L(\d+)(?::L\d+)?\|(.+)$], a machine anchor. *)
Definition ANCHOR_RE : re :=
  seqs [Bol; Lit (lit "L"); Grp 1 (plus is_digit);
        Opt (seqs [Lit (lit ":L"); plus is_digit]);
        Lit (lit "|"); Grp 2 (plus is_dot); Eol].

(** [^<!--\s*] and [\s*-->$], the delimiters stripped from legacy memo text. *)
Definition LEGACY_OPEN_RE : re := seqs [Bol; Lit (lit "<!--"); star is_ws].
Definition LEGACY_CLOSE_RE : re := seqs [star is_ws; Lit (lit "-->"); Eol].

(** [s.replace(re, '')] without the g flag: the first match is removed. *)
Definition remove_first (r : re) (s : jsstring) : jsstring :=
  match exec r s with
  | Some f => f_before f ++ f_after f
  | None => s
  end.

(** [attrs[k] = v] on the plain object [attrs]: the assignment creates or
    overwrites the property [k], except for the key [__proto__], which names
    the accessor of [Object.prototype]: its setter ignores a string, and no
    property is created.  The map holds the own properties of the
    object. *)
Definition assign (k v : jsstring) (attrs : gmap jsstring jsstring)
  : gmap jsstring jsstring :=
  if str_eqb k (lit "__proto__") then attrs else <[k := v]> attrs.

(** Parse attribute lines of a multi-line comment body into an object. *)
Definition parseAttrs (lines : list jsstring) : gmap jsstring jsstring :=
  fold_left
    (fun attrs line =>
       match exec ATTR_RE (trim line) with
       | Some m =>
           match group 1 m, group 2 m with
           | Some k, Some v => assign k v attrs
           | _, _ => attrs
           end
       | None => attrs
       end)
    lines ∅.

(** The property [a.key] of the attribute object. *)
Definition attr (a : gmap jsstring jsstring) (key : string) : option jsstring :=
  a !! lit key.

(** *** splitDocument *)

(** The clock: [Date.now()] in decimal and [new Date().toISOString()].
    One call of [splitDocument] is modelled with one reading of the clock. *)
Record Clock := mkClock {
  clock_now : jsstring;
  clock_iso : jsstring
}.

(** The accumulators of the scanning loop. *)
Record SplitState := mkState {
  st_bodyLines : list jsstring;
  st_memos : list MemoV2;
  st_checkpoints : list Checkpoint;
  st_gates : list Gate;
  st_cursor : option PlanCursor
}.

Definition init_state : SplitState := mkState [] [] [] [] None.

Definition push_body (st : SplitState) (line : jsstring) : SplitState :=
  mkState (st_bodyLines st ++ [line]) (st_memos st) (st_checkpoints st)
          (st_gates st) (st_cursor st).
Definition push_memo (st : SplitState) (m : MemoV2) : SplitState :=
  mkState (st_bodyLines st) (st_memos st ++ [m]) (st_checkpoints st)
          (st_gates st) (st_cursor st).
Definition push_checkpoint (st : SplitState) (c : Checkpoint) : SplitState :=
  mkState (st_bodyLines st) (st_memos st) (st_checkpoints st ++ [c])
          (st_gates st) (st_cursor st).
Definition push_gate (st : SplitState) (g : Gate) : SplitState :=
  mkState (st_bodyLines st) (st_memos st) (st_checkpoints st)
          (st_gates st ++ [g]) (st_cursor st).
Definition set_cursor (st : SplitState) (c : PlanCursor) : SplitState :=
  mkState (st_bodyLines st) (st_memos st) (st_checkpoints st)
          (st_gates st) (Some c).

(** A line is blank when [line.trim()] is the empty string. *)
Definition is_blank (line : jsstring) : bool := negb (truthy (trim line)).

(** [findAnchorAbove]: the nearest non-blank line above, trimmed; [null]
    when there is none.  The argument is the list of body lines reversed,
    as the loop runs from the last line down. *)
Fixpoint anchor_above_rev (rl : list jsstring) : option jsstring :=
  match rl with
  | [] => None
  | l :: rl' => if truthy (trim l) then Some (trim l) else anchor_above_rev rl'
  end.

Definition findAnchorAbove (bodyLines : list jsstring) : option jsstring :=
  anchor_above_rev (rev bodyLines).

(** [findAnchorLineIdx]: the index of that line, or -1. *)
Fixpoint anchor_idx_rev (rl : list jsstring) : Z :=
  match rl with
  | [] => (-1)%Z
  | l :: rl' => if truthy (trim l) then Z.of_nat (length rl') else anchor_idx_rev rl'
  end.

Definition findAnchorLineIdx (bodyLines : list jsstring) : Z :=
  anchor_idx_rev (rev bodyLines).

(** The anchor a memo of a dialect without anchors receives:
    [anchorLine >= 0 ? `L${anchorLine + 1}|${hashLine(bodyLines[anchorLine] || '')}` : ''] *)
Definition derived_anchor (bodyLines : list jsstring) : jsstring :=
  let anchorLine := findAnchorLineIdx bodyLines in
  if (0 <=? anchorLine)%Z
  then lit "L" ++ to_dec (Z.to_N (anchorLine + 1)) ++ lit "|"
       ++ hashLine (nth (Z.to_nat anchorLine) bodyLines [])
  else [].

(** The lines of a block up to its closing line, and the lines after the
    closing line: the loop
    [while (i < lines.length && !END.test(lines[i].trim())) { push; i++ }]
    followed by [i++]. *)
Fixpoint take_block (is_end : jsstring -> bool) (ls : list jsstring)
  : list jsstring * list jsstring :=
  match ls with
  | [] => ([], [])
  | l :: ls' =>
      if is_end l then ([], ls')
      else let '(block, rest) := take_block is_end ls' in (l :: block, rest)
  end.

Definition closes (END : re) (l : jsstring) : bool := test END (trim l).

(** The banner: [while (i < lines.length && !lines[i].includes('-->')) i++]
    followed by [i++]. *)
Fixpoint skip_banner (ls : list jsstring) : list jsstring :=
  match ls with
  | [] => []
  | l :: ls' => if includes (lit "-->") l then ls' else skip_banner ls'
  end.

(** The zero-width space escape of the single-line dialect:
    [text.replace(/--\u200B>/g, '-->')] *)
Definition unescape_v3 (s : jsstring) : jsstring :=
  replace_lit [45; 45; 8203; 62] (lit "-->") s O.

Definition memo_of_v3 (clock : Clock) (bodyLines : list jsstring) (v3Match : found)
  : MemoV2 :=
  let anchorText := findAnchorAbove bodyLines in
  let memoColor := opt_or (group 2 v3Match) s_red in
  let memoStatus := opt_or (group 3 v3Match) s_open in
  mkMemo (default [] (group 1 v3Match))
         (colorToType memoColor)
         memoStatus
         s_human
         s_generic
         memoColor
         (unescape_v3 (default [] (group 4 v3Match)))
         (opt_or anchorText [])
         (derived_anchor bodyLines)
         (clock_iso clock)
         (clock_iso clock).

Definition memo_of_attrs (clock : Clock) (bodyLines : list jsstring)
    (a : gmap jsstring jsstring) : MemoV2 :=
  let anchorText := opt_or (attr a "anchorText") (opt_or (findAnchorAbove bodyLines) []) in
  mkMemo (opt_or (attr a "id") (lit "memo_" ++ clock_now clock))
         (opt_or (attr a "type") (colorToType (opt_or (attr a "color") s_red)))
         (opt_or (attr a "status") s_open)
         (opt_or (attr a "owner") s_human)
         (opt_or (attr a "source") s_generic)
         (opt_or (attr a "color") s_red)
         (opt_or (attr a "text") [])
         anchorText
         (opt_or (attr a "anchor") [])
         (opt_or (attr a "createdAt") (clock_iso clock))
         (opt_or (attr a "updatedAt") (clock_iso clock)).

(** [a.blockedBy ? a.blockedBy.split(',').map(s => s.trim()).filter(Boolean) : []] *)
Definition parse_blockedBy (o : option jsstring) : list jsstring :=
  match o with
  | Some s =>
      if truthy s then List.filter truthy (map trim (split_on 44 s)) else []
  | None => []
  end.

Definition gate_of_attrs (clock : Clock) (a : gmap jsstring jsstring) : Gate :=
  mkGate (opt_or (attr a "id") (lit "gate_" ++ clock_now clock))
         (opt_or (attr a "type") s_custom)
         (opt_or (attr a "status") s_blocked)
         (parse_blockedBy (attr a "blockedBy"))
         (opt_or (attr a "canProceedIf") [])
         (opt_or (attr a "doneDefinition") []).

Definition cursor_of_attrs (clock : Clock) (a : gmap jsstring jsstring) : PlanCursor :=
  mkCursor (opt_or (attr a "taskId") [])
           (opt_or (attr a "step") [])
           (opt_or (attr a "nextAction") [])
           (opt_or (attr a "lastSeenHash") [])
           (opt_or (attr a "updatedAt") (clock_iso clock)).

(** [cpMatch[7] ? cpMatch[7].split(',') : []] *)
Definition parse_sections (s : jsstring) : list jsstring :=
  if truthy s then split_on 44 s else [].

Definition checkpoint_of (cpMatch : found) : Checkpoint :=
  mkCheckpoint (default [] (group 1 cpMatch))
               (default [] (group 2 cpMatch))
               (default [] (group 3 cpMatch))
               (parseInt (default [] (group 4 cpMatch)))
               (parseInt (default [] (group 5 cpMatch)))
               (parseInt (default [] (group 6 cpMatch)))
               (parse_sections (default [] (group 7 cpMatch))).

(** The text of a legacy block memo:
    [memoLines.map(l => l.replace(/^<!--\s*/, '').replace(/\s*-->$/, '')).join('\n').trim()] *)
Definition legacy_text (memoLines : list jsstring) : jsstring :=
  trim (unlines (map (fun l => remove_first LEGACY_CLOSE_RE
                                 (remove_first LEGACY_OPEN_RE l)) memoLines)).

Definition memo_of_legacy (clock : Clock) (bodyLines memoLines : list jsstring)
    (legacyMatch : found) : MemoV2 :=
  let anchorText := findAnchorAbove bodyLines in
  let color := opt_or (group 2 legacyMatch) s_red in
  mkMemo (default [] (group 1 legacyMatch))
         (colorToType color)
         s_open
         s_human
         s_generic
         color
         (legacy_text memoLines)
         (opt_or anchorText [])
         (derived_anchor bodyLines)
         (opt_or (group 3 legacyMatch) (clock_iso clock))
         (opt_or (group 3 legacyMatch) (clock_iso clock)).

(** One turn of the scanning loop [while (i < lines.length)], at the line
    [line = lines[i]], with [rest] the lines after it: the lines that remain
    after the turn and the new accumulators.  The dialects are tried in the
    order of the source. *)
Definition loop_body (clock : Clock) (line : jsstring) (rest : list jsstring)
    (st : SplitState) : list jsstring * SplitState :=
  let trimmed := trim line in
  (* v0.3 single-line memo *)
  match exec MEMO_V3_RE trimmed with
  | Some v3Match =>
      (rest, push_memo st (memo_of_v3 clock (st_bodyLines st) v3Match))
  | None =>
  (* v0.4 multi-line memo *)
  if test MEMO_V4_START_RE trimmed then
    let '(attrLines, rest') := take_block (closes MEMO_V4_END_RE) rest in
    (rest', push_memo st (memo_of_attrs clock (st_bodyLines st) (parseAttrs attrLines)))
  (* Gate *)
  else if test GATE_START_RE trimmed then
    let '(attrLines, rest') := take_block (closes GATE_END_RE) rest in
    (rest', push_gate st (gate_of_attrs clock (parseAttrs attrLines)))
  (* Plan Cursor *)
  else if test CURSOR_START_RE trimmed then
    let '(attrLines, rest') := take_block (closes CURSOR_END_RE) rest in
    (rest', set_cursor st (cursor_of_attrs clock (parseAttrs attrLines)))
  else
  (* Checkpoint *)
  match exec CHECKPOINT_RE trimmed with
  | Some cpMatch => (rest, push_checkpoint st (checkpoint_of cpMatch))
  | None =>
  (* Legacy memo blocks *)
  match exec LEGACY_MEMO_START_RE trimmed with
  | Some legacyMatch =>
      let '(memoLines, rest') := take_block (closes LEGACY_MEMO_END_RE) rest in
      (rest', push_memo st (memo_of_legacy clock (st_bodyLines st) memoLines legacyMatch))
  | None =>
  (* Banner comment *)
  if test BANNER_START_RE trimmed
     && match rest with
        | next :: _ => test BANNER_CONTENT_RE next
        | [] => false
        end
  then (skip_banner (line :: rest), st)
  (* Feedback notes wrapper *)
  else if test FEEDBACK_NOTES_RE trimmed then (rest, st)
  else (rest, push_body st line)
  end end end.

(** The loop.  [ls] is [lines] from index [i] on; every turn consumes at
    least one line, so the number of lines is fuel enough. *)
Fixpoint split_loop (clock : Clock) (fuel : nat) (ls : list jsstring)
    (st : SplitState) : SplitState :=
  match fuel, ls with
  | S fuel', line :: rest =>
      let '(ls', st') := loop_body clock line rest st in
      split_loop clock fuel' ls' st'
  | _, _ => st
  end.

(** Trim trailing empty lines from body:
    [while (bodyLines.length > 0 && bodyLines[bodyLines.length - 1].trim() === '') bodyLines.pop()] *)
Definition pop_blank (bodyLines : list jsstring) : list jsstring :=
  rev (drop_while is_blank (rev bodyLines)).

Definition splitDocument (clock : Clock) (markdown : jsstring) : DocumentParts :=
  let '(frontmatter, body) :=
    match exec FRONTMATTER_RE markdown with
    | Some fmMatch => (f_text fmMatch, skipn (length (f_text fmMatch)) markdown)
    | None => ([], markdown)
    end in
  let lines := lines_of body in
  let st := split_loop clock (length lines) lines init_state in
  mkParts frontmatter
          (unlines (pop_blank (st_bodyLines st)))
          (st_memos st)
          (st_checkpoints st)
          (st_gates st)
          (st_cursor st)
          [].

(** *** Serializers *)

(** [s.replace(/Q/g, '&quot;')] *)
Definition esc (s : jsstring) : jsstring := replace_chr DQ (lit "&quot;") s.

(** One attribute line of a block: two spaces, the key, the quoted value. *)
Definition attr_line (key : string) (value : jsstring) : jsstring :=
  lit "  " ++ attr_head key ++ value ++ [DQ].

Definition serializeMemoV2 (memo : MemoV2) : jsstring :=
  unlines [
    lit "<!-- USER_MEMO";
    attr_line "id" (esc (memo_id memo));
    attr_line "type" (memo_type memo);
    attr_line "status" (memo_status memo);
    attr_line "owner" (memo_owner memo);
    attr_line "source" (esc (memo_source memo));
    attr_line "color" (memo_color memo);
    attr_line "text" (esc (memo_text memo));
    attr_line "anchorText" (esc (memo_anchorText memo));
    attr_line "anchor" (esc (memo_anchor memo));
    attr_line "createdAt" (memo_createdAt memo);
    attr_line "updatedAt" (memo_updatedAt memo);
    lit "-->"
  ].

Definition serializeGate (gate : Gate) : jsstring :=
  unlines [
    lit "<!-- GATE";
    attr_line "id" (gate_id gate);
    attr_line "type" (gate_type gate);
    attr_line "status" (gate_status gate);
    attr_line "blockedBy" (join (lit ",") (gate_blockedBy gate));
    attr_line "canProceedIf" (esc (gate_canProceedIf gate));
    attr_line "doneDefinition" (esc (gate_doneDefinition gate));
    lit "-->"
  ].

Definition serializeCursor (cursor : PlanCursor) : jsstring :=
  unlines [
    lit "<!-- PLAN_CURSOR";
    attr_line "taskId" (cursor_taskId cursor);
    attr_line "step" (cursor_step cursor);
    attr_line "nextAction" (esc (cursor_nextAction cursor));
    attr_line "lastSeenHash" (cursor_lastSeenHash cursor);
    attr_line "updatedAt" (cursor_updatedAt cursor);
    lit "-->"
  ].

(** The counts are interpolated as numbers: the digits of a safe integer
    ([to_dec]). *)
Definition serializeCheckpoint (cp : Checkpoint) : jsstring :=
  let note := esc (cp_note cp) in
  let sections := join (lit ",") (cp_sectionsReviewed cp) in
  lit "<!-- CHECKPOINT " ++ attr_head "id" ++ cp_id cp ++ [DQ]
  ++ lit " " ++ attr_head "time" ++ cp_timestamp cp ++ [DQ]
  ++ lit " " ++ attr_head "note" ++ note ++ [DQ]
  ++ lit " fixes=" ++ to_dec (cp_fixes cp)
  ++ lit " questions=" ++ to_dec (cp_questions cp)
  ++ lit " highlights=" ++ to_dec (cp_highlights cp)
  ++ lit " " ++ attr_head "sections" ++ sections ++ [DQ] ++ lit " -->".

(** *** Anchor-based memo reinsertion *)

(** [d >= 0 && d < lines.length && hashLine(lines[d]) === expectedHash] *)
Definition hash_at (lines : list jsstring) (expectedHash : jsstring) (d : Z) : bool :=
  (0 <=? d)%Z && (d <? Z.of_nat (length lines))%Z
  && str_eqb (hashLine (nth (Z.to_nat d) lines [])) expectedHash.

(** [for (const d of [lineNum - delta, lineNum + delta])] for the given
    values of [delta], in order. *)
Fixpoint probe (lines : list jsstring) (expectedHash : jsstring) (lineNum : Z)
    (deltas : list Z) : option Z :=
  match deltas with
  | [] => None
  | delta :: deltas' =>
      if hash_at lines expectedHash (lineNum - delta) then Some (lineNum - delta)%Z
      else if hash_at lines expectedHash (lineNum + delta) then Some (lineNum + delta)%Z
      else probe lines expectedHash lineNum deltas'
  end.

(** [for (let delta = 1; delta <= 10; delta++)] *)
Definition deltas_1_10 : list Z := [1; 2; 3; 4; 5; 6; 7; 8; 9; 10]%Z.

(** The anchor-hash part: [Some d] where the source returns [d]. *)
Definition find_by_anchor (lines : list jsstring) (memo : MemoV2) : option Z :=
  if truthy (memo_anchor memo) then
    match exec ANCHOR_RE (memo_anchor memo) with
    | Some anchorMatch =>
        let lineNum := (Z.of_N (parseInt (default [] (group 1 anchorMatch))) - 1)%Z in
        let expectedHash := default [] (group 2 anchorMatch) in
        if hash_at lines expectedHash lineNum then Some lineNum
        else probe lines expectedHash lineNum deltas_1_10
    | None => None
    end
  else None.

(** [for (let i = 0; i < lines.length; i++) if (lines[i].includes(needle)) return i] *)
Fixpoint first_including (needle : jsstring) (lines : list jsstring) (i : Z) : option Z :=
  match lines with
  | [] => None
  | l :: lines' =>
      if includes needle l then Some i else first_including needle lines' (i + 1)%Z
  end.

(** The anchorText fallback. *)
Definition find_by_text (lines : list jsstring) (memo : MemoV2) : option Z :=
  if truthy (memo_anchorText memo) then
    let needle := trim (memo_anchorText memo) in
    first_including needle lines 0%Z
  else None.

Definition findMemoAnchorLine (lines : list jsstring) (memo : MemoV2) : Z :=
  match find_by_anchor lines memo with
  | Some d => d
  | None =>
      match find_by_text lines memo with
      | Some i => i
      | None => (-1)%Z
      end
  end.

(** The insertion map and the unanchored memos, built by one pass over the
    memos. *)
Definition place_memo (lines : list jsstring)
    (acc : gmap Z (list MemoV2) * list MemoV2) (memo : MemoV2)
  : gmap Z (list MemoV2) * list MemoV2 :=
  let '(insertionMap, unanchored) := acc in
  let lineIdx := findMemoAnchorLine lines memo in
  if (0 <=? lineIdx)%Z then
    let existing := default [] (insertionMap !! lineIdx) in
    (<[lineIdx := existing ++ [memo]]> insertionMap, unanchored)
  else (insertionMap, unanchored ++ [memo]).

(** The output lines: each line, then the memos anchored to it. *)
Fixpoint emit_lines (insertionMap : gmap Z (list MemoV2)) (lines : list jsstring)
    (i : Z) : list jsstring :=
  match lines with
  | [] => []
  | l :: lines' =>
      l :: match insertionMap !! i with
           | Some memosHere => map serializeMemoV2 memosHere
           | None => []
           end
        ++ emit_lines insertionMap lines' (i + 1)%Z
  end.

Definition reinsertMemos (body : jsstring) (memos : list MemoV2) : jsstring :=
  match memos with
  | [] => body
  | _ =>
      let lines := lines_of body in
      let '(insertionMap, unanchored) := fold_left (place_memo lines) memos (∅, []) in
      let result := emit_lines insertionMap lines 0%Z ++ map serializeMemoV2 unanchored in
      unlines result
  end.

(** *** mergeDocument *)

Definition mergeDocument (parts : DocumentParts) : jsstring :=
  let sections :=
    (if truthy (frontmatter parts) then [trimEnd (frontmatter parts)] else [])
    ++ [reinsertMemos (body parts) (memos parts)]
    ++ map serializeGate (gates parts)
    ++ map serializeCheckpoint (checkpoints parts)
    ++ match cursor parts with
       | Some c => [serializeCursor c]
       | None => []
       end in
  join [NL; NL] sections ++ [NL].

(** [generateBodyHash] *)
Definition generateBodyHash (body : jsstring) : jsstring := hashLine body.

(** ** Annotation counter ([shared/checkpoint.ts]) *)

Record AnnotationCounts := mkCounts {
  fixes : N;
  questions : N;
  highlights : N
}.

(** [HEX_TO_COLOR_NAME[hex]]; a key outside the table yields no colour
    name. *)
Definition HEX_TO_COLOR_NAME (hex : jsstring) : option jsstring :=
  if str_eqb hex (lit "#fef08a") then Some (lit "yellow")
  else if str_eqb hex (lit "#fca5a5") then Some s_red
  else if str_eqb hex (lit "#93c5fd") then Some s_blue
  else None.

(** [/<!-- USER_MEMO\s+id=Q[^Q]+Q(?:\s+color=Q([^Q]+)Q)?(?:\s+status=Q[^Q]+Q)?\s*:/g] *)
Definition memoRe : re :=
  seqs [Lit (lit "<!-- USER_MEMO"); plus is_ws; Lit (attr_head "id");
        plus not_dq; Lit [DQ];
        Opt (seqs [plus is_ws; Lit (attr_head "color"); Grp 1 (plus not_dq); Lit [DQ]]);
        Opt (seqs [plus is_ws; Lit (attr_head "status"); plus not_dq; Lit [DQ]]);
        star is_ws; Lit (lit ":")].

(** [/<mark[^>]*style=Qbackground-color:\s*([^Q]+)Q[^>]*>/g] *)
Definition markRe : re :=
  seqs [Lit (lit "<mark"); star (not_chr 62);
        Lit (attr_head "style" ++ lit "background-color:"); star is_ws;
        Grp 1 (plus not_dq); Lit [DQ]; star (not_chr 62); Lit (lit ">")].

(** [/(?<!`)==(?!.*==.*`)(.+?)==(?!`)/g] *)
Definition eqRe : re :=
  seqs [NotBehind 96; Lit (lit "==");
        NotAhead (seqs [star is_dot; Lit (lit "=="); star is_dot; Lit [96]]);
        Grp 1 (plus_lazy is_dot); Lit (lit "=="); NotAhead (Lit [96])].

(** One turn of a counting loop: the colour name decides the counter. *)
Definition count_color (cn : option jsstring) (acc : AnnotationCounts)
  : AnnotationCounts :=
  match cn with
  | Some c =>
      if str_eqb c s_red then mkCounts (fixes acc + 1) (questions acc) (highlights acc)
      else if str_eqb c s_blue then mkCounts (fixes acc) (questions acc + 1) (highlights acc)
      else mkCounts (fixes acc) (questions acc) (highlights acc + 1)
  | None => mkCounts (fixes acc) (questions acc) (highlights acc + 1)
  end.

Definition getAnnotationCounts (markdown : jsstring) : AnnotationCounts :=
  let acc0 := mkCounts 0 0 0 in
  (* Count USER_MEMO comments by color *)
  let acc1 :=
    fold_left (fun acc '(_, _, cs) => count_color (Some (opt_or (cap 1 cs) s_red)) acc)
              (exec_all memoRe None markdown O) acc0 in
  (* Count <mark> highlights with style *)
  let acc2 :=
    fold_left (fun acc '(_, _, cs) =>
                 count_color (HEX_TO_COLOR_NAME (trim (default [] (cap 1 cs)))) acc)
              (exec_all markRe None markdown O) acc1 in
  (* Count == == highlights *)
  fold_left (fun acc _ => mkCounts (fixes acc) (questions acc) (highlights acc + 1))
            (exec_all eqRe None markdown O) acc2.

(** ** normalizeHighlights ([shared/markdown-roundtrip.ts]) *)

(** [/(^```[\s\S]*?^```|^~~~[\s\S]*?^~~~)/gm], a fenced code block. *)
Definition FENCE_RE : re :=
  Grp 1 (Alt (seqs [BolM; Lit (lit "```"); star_lazy is_any; BolM; Lit (lit "```")])
             (seqs [BolM; Lit (lit "~~~"); star_lazy is_any; BolM; Lit (lit "~~~")])).

(** [s.split(re)] for an expression with one capture group that never
    matches the empty string: the pieces between the matches, with the
    captured text of each match spliced in between them.  [cur] is the
    current piece, reversed; [skip] counts the code units of the current
    match still to be stepped over. *)
Fixpoint split_re (r : re) (prev : option N) (s : jsstring) (skip : nat)
    (cur : jsstring) : list jsstring :=
  match s with
  | [] => [rev cur]
  | c :: s' =>
      match skip with
      | S k => split_re r (Some c) s' k cur
      | O =>
          match match_at r prev s with
          | Some (text, _, cs) =>
              rev cur :: default [] (cap 1 cs)
              :: split_re r (Some c) s' (Nat.pred (length text)) []
          | None => split_re r (Some c) s' O (c :: cur)
          end
      end
  end.

(** [s.replace(re, f)] under the g flag, for an expression that never
    matches the empty string. *)
Fixpoint replace_re (r : re) (f : success -> jsstring) (prev : option N)
    (s : jsstring) (skip : nat) : jsstring :=
  match s with
  | [] => []
  | c :: s' =>
      match skip with
      | S k => replace_re r f (Some c) s' k
      | O =>
          match match_at r prev s with
          | Some m => f m ++ replace_re r f (Some c) s' (Nat.pred (length (fst (fst m))))
          | None => c :: replace_re r f (Some c) s' O
          end
      end
  end.

(** [parts.map((part, i) => ...)]: odd indices are code blocks. *)
Fixpoint map_even {A} (f : A -> A) (l : list A) : list A :=
  match l with
  | [] => []
  | [x] => [f x]
  | x :: y :: l' => f x :: y :: map_even f l'
  end.

Definition normalizeHighlights (markdown : jsstring) : jsstring :=
  let parts := split_re FENCE_RE None markdown O [] in
  concat (map_even
            (fun part =>
               replace_re eqRe
                 (fun '(_, _, cs) => lit "<mark>" ++ default [] (cap 1 cs) ++ lit "</mark>")
                 None part O)
            parts).

(** ** Predicates used in the statements *)

(** *** Gates *)

(** The memo an id refers to: the first memo of the list with that id, the
    one a lookup by id returns. *)
Definition refers_to (memos : list MemoV2) (id : jsstring) (m : MemoV2) : Prop :=
  exists pre post,
    memos = pre ++ m :: post /\ memo_id m = id /\
    Forall (fun m' => memo_id m' <> id) pre.

(** Some id of [blockedBy] refers to an open memo. *)
Definition has_open_blocker (gate : Gate) (memos : list MemoV2) : Prop :=
  exists id m, In id (gate_blockedBy gate) /\ refers_to memos id m /\
               memo_status m = s_open.

Definition set_status (m : MemoV2) (s : jsstring) : MemoV2 :=
  mkMemo (memo_id m) (memo_type m) s (memo_owner m) (memo_source m)
         (memo_color m) (memo_text m) (memo_anchorText m) (memo_anchor m)
         (memo_createdAt m) (memo_updatedAt m).

Definition is_listed (gate : Gate) (m : MemoV2) : bool :=
  existsb (str_eqb (memo_id m)) (gate_blockedBy gate).

(** The status change of the monotonicity property, memo by memo: an open
    memo listed in [blockedBy] takes some status other than open, every
    other memo stays as it is. *)
Definition blocker_resolved (gate : Gate) (m m' : MemoV2) : Prop :=
  if is_listed gate m && is_open m
  then exists s, s <> s_open /\ m' = set_status m s
  else m' = m.

Definition with_blockedBy (gate : Gate) (ids : list jsstring) : Gate :=
  mkGate (gate_id gate) (gate_type gate) (gate_status gate) ids
         (gate_canProceedIf gate) (gate_doneDefinition gate).

(** Every id of [blockedBy] is dangling: no memo of the list carries it. *)
Definition all_dangling (gate : Gate) (memos : list MemoV2) : Prop :=
  forall id m, In id (gate_blockedBy gate) -> In m memos -> memo_id m <> id.

(** *** Reading by hand

    The comment grammar read without regular expressions: the longest run
    of a class, then the literal that must follow.  The proofs show that the
    expressions of the source read the same way. *)

Fixpoint take_while {A} (p : A -> bool) (s : list A) : list A :=
  match s with
  | [] => []
  | c :: s' => if p c then c :: take_while p s' else []
  end.

(** A machine anchor: L, digits, optionally a colon, L and digits, a bar,
    and the hash. *)
Definition parse_anchor (anchor : jsstring) : option (N * jsstring) :=
  match strip_prefix (lit "L") anchor with
  | Some s =>
      let n := take_while is_digit s in
      let s1 := drop_while is_digit s in
      let s2 :=
        match strip_prefix (lit ":L") s1 with
        | Some s' =>
            if truthy (take_while is_digit s') then drop_while is_digit s' else s1
        | None => s1
        end in
      match strip_prefix (lit "|") s2 with
      | Some h => if truthy n then Some (parseInt n, h) else None
      | None => None
      end
  | None => None
  end.

(** One attribute line: a key of word characters, an equals sign, and a
    quoted value without quotes inside. *)
Definition parse_attr (s : jsstring) : option (jsstring * jsstring) :=
  let k := take_while is_word s in
  match strip_prefix [61; DQ] (drop_while is_word s) with
  | Some s1 =>
      match strip_prefix [DQ] (drop_while not_dq s1) with
      | Some [] => if truthy k then Some (k, take_while not_dq s1) else None
      | _ => None
      end
  | None => None
  end.

(** *** Anchor resolution as the specification words it *)

(** The lines tried for a machine anchor with line number [n]: the stored
    position [n-1], then, for d = 1..10, [n-1-d] and [n-1+d]. *)
Definition candidates (n : N) : list Z :=
  let p := (Z.of_N n - 1)%Z in
  p :: flat_map (fun d => [p - d; p + d]%Z) deltas_1_10.

Definition line_at (lines : list jsstring) (i : Z) : option jsstring :=
  if (0 <=? i)%Z then lines !! Z.to_nat i else None.

Definition hash_matches (lines : list jsstring) (h : jsstring) (i : Z) : bool :=
  match line_at lines i with
  | Some l => str_eqb (hashLine l) h
  | None => false
  end.

(** The index of the first line that contains [needle]. *)
Fixpoint index_including (needle : jsstring) (lines : list jsstring) : option nat :=
  match lines with
  | [] => None
  | l :: lines' =>
      if includes needle l then Some O
      else S <$> index_including needle lines'
  end.

(** [resolveAnchor needle_of anchor anchorText lines]: steps 1 to 4 of the
    anchor resolver.  [needle_of] is what is searched for in step 3, as a
    function of [anchorText]. *)
Definition resolveAnchor (needle_of : jsstring -> jsstring)
    (anchor anchorText : jsstring) (lines : list jsstring) : option Z :=
  let machine :=
    match parse_anchor anchor with
    | Some (n, h) => List.find (hash_matches lines h) (candidates n)
    | None => None
    end in
  match machine with
  | Some i => Some i
  | None =>
      if truthy anchorText
      then Z.of_nat <$> index_including (needle_of anchorText) lines
      else None
  end.

(** Unresolved is reported as -1. *)
Definition or_minus_one (o : option Z) : Z := default (-1)%Z o.

(** [insert_lines k ins lines]: [ins] inserted before the line of index
    [k]. *)
Definition insert_lines (k : nat) (ins lines : list jsstring) : list jsstring :=
  take k lines ++ ins ++ drop k lines.

(** The machine anchor of line [p] (0-based) of [lines]. *)
Definition anchor_of (lines : list jsstring) (p : nat) : jsstring :=
  lit "L" ++ to_dec (N.of_nat p + 1) ++ lit "|" ++ hashLine (nth p lines []).

(** *** Proof devices for the regular expressions *)

(** [bindc r prev s cs k]: the captures of the successes of [r] followed by
    the continuation [k], which receives the text [r] consumed, the code
    unit before the new position, the remaining text and the captures. *)
Definition bindc (r : Regex.re) (prev : option N) (s : jsstring) (cs : Regex.captures)
    (k : jsstring -> option N -> jsstring -> Regex.captures -> list Regex.captures)
  : list Regex.captures :=
  flat_map (fun '(c1, rest1, cs1) => k c1 (Regex.prev_after prev c1) rest1 cs1)
           (Regex.matches r prev s cs).

(** The captures of the successes of [r], in order. *)
Definition caps_of (r : Regex.re) (prev : option N) (s : jsstring) (cs : Regex.captures)
  : list Regex.captures :=
  map snd (Regex.matches r prev s cs).

(** *** Merging, as the specification words it *)

(** The memos whose resolved anchor is line [i], in bundle order. *)
Definition placed_at (lines : list jsstring) (memos : list MemoV2) (i : Z)
  : list MemoV2 :=
  List.filter (fun m => (findMemoAnchorLine lines m =? i)%Z) memos.

(** The memos that fail to resolve, in bundle order. *)
Definition unresolved (lines : list jsstring) (memos : list MemoV2) : list MemoV2 :=
  List.filter (fun m => (findMemoAnchorLine lines m <? 0)%Z) memos.

(** The memos in the order of their serialized forms in the merged text. *)
Definition emitted_memos (lines : list jsstring) (memos : list MemoV2) : list MemoV2 :=
  concat (imap (fun i _ => placed_at lines memos (Z.of_nat i)) lines)
  ++ unresolved lines memos.

(** The body with the memos re-inserted: each body line followed by the
    memos resolved to it, then the unresolved memos. *)
Definition body_with_memos (body : jsstring) (memos : list MemoV2) : jsstring :=
  let lines := lines_of body in
  unlines (concat (imap (fun i l =>
                           l :: map serializeMemoV2 (placed_at lines memos (Z.of_nat i)))
                        lines)
           ++ map serializeMemoV2 (unresolved lines memos)).

(** The sections of the merged text, in order. *)
Definition merged_sections (parts : DocumentParts) : list jsstring :=
  (if truthy (frontmatter parts) then [trimEnd (frontmatter parts)] else [])
  ++ [body_with_memos (body parts) (memos parts)]
  ++ map serializeGate (gates parts)
  ++ map serializeCheckpoint (checkpoints parts)
  ++ match cursor parts with Some c => [serializeCursor c] | None => [] end.

(** The text ends in exactly one newline. *)
Definition one_trailing_newline (text : jsstring) : Prop :=
  exists t, text = t ++ [NL] /\ last t <> Some NL.

(** The last section is the body with its memos, and it ends in a newline,
    or it is empty and follows the frontmatter. *)
Definition open_ended (parts : DocumentParts) : Prop :=
  gates parts = [] /\ checkpoints parts = [] /\ cursor parts = None /\
  (last (body_with_memos (body parts) (memos parts)) = Some NL \/
   (body_with_memos (body parts) (memos parts) = [] /\ frontmatter parts <> [])).

(** A bundle that holds a frontmatter and nothing else. *)
Definition frontmatter_only (parts : DocumentParts) : Prop :=
  frontmatter parts <> [] /\ body parts = [] /\ memos parts = [] /\
  gates parts = [] /\ checkpoints parts = [] /\ cursor parts = None.

(** What the insertion map and the list of unanchored memos hold after the
    memos [done] have been placed. *)
Definition places (lines : list jsstring) (done : list MemoV2)
    (acc : gmap Z (list MemoV2) * list MemoV2) : Prop :=
  (forall i, default [] (acc.1 !! i) =
             if (0 <=? i)%Z then placed_at lines done i else []) /\
  acc.2 = unresolved lines done.

(** A section that is not empty and does not end in a newline. *)
Definition ends_in_text (x : jsstring) : Prop := x <> [] /\ last x <> Some NL.

(** *** Scanning *)

(** A string without newline: one line. *)
Definition nl_free (s : jsstring) : Prop := Forall (fun c => c <> NL) s.

(** A line that no dialect recognises, whatever follows it: the scanning
    loop appends it to the body. *)
Definition is_plain (line : jsstring) : bool :=
  let trimmed := trim line in
  negb (Regex.test MEMO_V3_RE trimmed)
  && negb (Regex.test MEMO_V4_START_RE trimmed)
  && negb (Regex.test GATE_START_RE trimmed)
  && negb (Regex.test CURSOR_START_RE trimmed)
  && negb (Regex.test CHECKPOINT_RE trimmed)
  && negb (Regex.test LEGACY_MEMO_START_RE trimmed)
  && negb (Regex.test BANNER_START_RE trimmed)
  && negb (Regex.test FEEDBACK_NOTES_RE trimmed).

Definition plain (line : jsstring) : Prop := is_plain line = true.

(** The scanning loop with the fuel [splitDocument] gives it. *)
Definition scan (clock : Clock) (ls : list jsstring) (st : SplitState) : SplitState :=
  split_loop clock (length ls) ls st.

(** The bundle [splitDocument] builds from the final accumulators. *)
Definition parts_of (frontmatter : jsstring) (st : SplitState) : DocumentParts :=
  mkParts frontmatter (unlines (pop_blank (st_bodyLines st)))
          (st_memos st) (st_checkpoints st) (st_gates st) (st_cursor st) [].

(** The closing delimiter of a block never appears in [ls]. *)
Definition never_closed (ls : list jsstring) : Prop :=
  Forall (fun l => trim l <> lit "-->") ls.

(** *** Valid bundles *)

(** A value that an attribute can carry unchanged: no newline, no double
    quote. *)
Definition attr_safe (s : jsstring) : Prop :=
  Forall (fun c => c <> NL /\ c <> DQ) s.

(** A non-empty attribute value. *)
Definition filled (s : jsstring) : Prop := s <> [] /\ attr_safe s.

Definition comma_free (s : jsstring) : Prop := Forall (fun c => c <> 44) s.

Definition valid_memo (m : MemoV2) : Prop :=
  filled (memo_id m) /\ filled (memo_type m) /\ filled (memo_status m) /\
  filled (memo_owner m) /\ filled (memo_source m) /\ filled (memo_color m) /\
  attr_safe (memo_text m) /\ attr_safe (memo_anchorText m) /\
  attr_safe (memo_anchor m) /\
  filled (memo_createdAt m) /\ filled (memo_updatedAt m).

(** A memo id as [blockedBy] lists it: non-empty, trimmed, without comma. *)
Definition valid_ref (id : jsstring) : Prop :=
  filled id /\ trim id = id /\ comma_free id.

Definition valid_gate (g : Gate) : Prop :=
  filled (gate_id g) /\ filled (gate_type g) /\ filled (gate_status g) /\
  Forall valid_ref (gate_blockedBy g) /\
  attr_safe (gate_canProceedIf g) /\ attr_safe (gate_doneDefinition g).

Definition valid_cursor (c : PlanCursor) : Prop :=
  attr_safe (cursor_taskId c) /\ attr_safe (cursor_step c) /\
  attr_safe (cursor_nextAction c) /\ attr_safe (cursor_lastSeenHash c) /\
  filled (cursor_updatedAt c).

(** A checkpoint whose texts fit the one-line form. *)
Definition readable_checkpoint (c : Checkpoint) : Prop :=
  filled (cp_id c) /\ filled (cp_timestamp c) /\ attr_safe (cp_note c) /\
  Forall (fun s => attr_safe s /\ comma_free s) (cp_sectionsReviewed c) /\
  (cp_sectionsReviewed c = [] \/ join (lit ",") (cp_sectionsReviewed c) <> []).

(** A safe integer, [n <= Number.MAX_SAFE_INTEGER]: a number that
    JavaScript holds, prints and reads back exactly. *)
Definition safe_count (n : N) : Prop := n < 2 ^ 53.

(** A checkpoint whose texts fit the one-line form and whose counts are
    safe integers. *)
Definition valid_checkpoint (c : Checkpoint) : Prop :=
  readable_checkpoint c /\
  safe_count (cp_fixes c) /\ safe_count (cp_questions c) /\ safe_count (cp_highlights c).

(** A body of ordinary lines that does not open like frontmatter. *)
Definition valid_body (body : jsstring) : Prop :=
  Forall plain (lines_of body) /\ starts_with (lit "---") body = false.

(** A bundle without frontmatter whose records fit their comment forms and
    whose checkpoint counts are safe integers. *)
Definition valid_bundle (parts : DocumentParts) : Prop :=
  frontmatter parts = [] /\
  valid_body (body parts) /\
  Forall valid_memo (memos parts) /\
  Forall valid_gate (gates parts) /\
  Forall valid_checkpoint (checkpoints parts) /\
  (forall c, cursor parts = Some c -> valid_cursor c).

(** What the splitter makes of a memo it reads back: an empty anchorText is
    replaced by the nearest non-blank body line above the memo, trimmed. *)
Definition refill (above : list jsstring) (m : MemoV2) : MemoV2 :=
  mkMemo (memo_id m) (memo_type m) (memo_status m) (memo_owner m) (memo_source m)
         (memo_color m) (memo_text m)
         (or_else (memo_anchorText m) (opt_or (findAnchorAbove above) []))
         (memo_anchor m) (memo_createdAt m) (memo_updatedAt m).

(** The memos the splitter recovers from the merged text: in the order of
    the text, each refilled from the body lines above it. *)
Definition recovered_memos (lines : list jsstring) (memos : list MemoV2) : list MemoV2 :=
  concat (imap (fun i _ => map (refill (take (S i) lines))
                               (placed_at lines memos (Z.of_nat i))) lines)
  ++ map (refill lines) (unresolved lines memos).

(** The lines of the serialized forms. *)
Definition memo_lines (memo : MemoV2) : list jsstring :=
  [ lit "<!-- USER_MEMO";
    attr_line "id" (esc (memo_id memo));
    attr_line "type" (memo_type memo);
    attr_line "status" (memo_status memo);
    attr_line "owner" (memo_owner memo);
    attr_line "source" (esc (memo_source memo));
    attr_line "color" (memo_color memo);
    attr_line "text" (esc (memo_text memo));
    attr_line "anchorText" (esc (memo_anchorText memo));
    attr_line "anchor" (esc (memo_anchor memo));
    attr_line "createdAt" (memo_createdAt memo);
    attr_line "updatedAt" (memo_updatedAt memo);
    lit "-->" ].

Definition gate_lines (gate : Gate) : list jsstring :=
  [ lit "<!-- GATE";
    attr_line "id" (gate_id gate);
    attr_line "type" (gate_type gate);
    attr_line "status" (gate_status gate);
    attr_line "blockedBy" (join (lit ",") (gate_blockedBy gate));
    attr_line "canProceedIf" (esc (gate_canProceedIf gate));
    attr_line "doneDefinition" (esc (gate_doneDefinition gate));
    lit "-->" ].

Definition cursor_lines (cursor : PlanCursor) : list jsstring :=
  [ lit "<!-- PLAN_CURSOR";
    attr_line "taskId" (cursor_taskId cursor);
    attr_line "step" (cursor_step cursor);
    attr_line "nextAction" (esc (cursor_nextAction cursor));
    attr_line "lastSeenHash" (cursor_lastSeenHash cursor);
    attr_line "updatedAt" (cursor_updatedAt cursor);
    lit "-->" ].

(** A key of the canonical forms: non-empty, of word characters. *)
Definition wordy (key : string) : Prop :=
  lit key <> [] /\ Forall (fun c => is_word c = true) (lit key).

(** The attribute object of a list of attribute lines. *)
Definition attrs_of (kvs : list (string * jsstring)) : gmap jsstring jsstring :=
  fold_left (fun a '(k, v) => <[lit k := v]> a) kvs ∅.

(** The last binding of [key] in a list of attribute lines. *)
Fixpoint assoc (key : jsstring) (kvs : list (string * jsstring)) : option jsstring :=
  match kvs with
  | [] => None
  | (k, v) :: kvs' =>
      match assoc key kvs' with
      | Some x => Some x
      | None => if str_eqb (lit k) key then Some v else None
      end
  end.

(** [fails_on p R]: the expression [R] has no success on a text that starts
    with a code unit of the class [p]. *)
Definition fails_on (p : N -> bool) (R : Regex.re) : Prop :=
  forall prev c rest cs, p c = true -> caps_of R prev (c :: rest) cs = [].

(** The text does not start with a code unit of the class [p]. *)
Definition stops (p : N -> bool) (rest : jsstring) : Prop :=
  match rest with [] => True | c :: _ => p c = false end.

(** ** Concrete inputs used by the examples *)

(** [quoted s]: the literal [s] between double quotes. *)
Definition quoted (s : string) : jsstring := [DQ] ++ lit s ++ [DQ].

Definition gate_m1 : Gate := mkGate (lit "g1") (lit "merge") s_blocked [lit "m1"] [] [].
Definition gate_ghost : Gate :=
  mkGate (lit "g2") (lit "merge") s_blocked [lit "ghost"] [] [].

Definition memo_with (id status : jsstring) : MemoV2 :=
  mkMemo id s_fix status s_human s_generic s_red [] [] [] [] [].

(** A memo that carries only a machine anchor. *)
Definition memo_anchored (anchor : jsstring) : MemoV2 :=
  mkMemo (lit "m1") s_fix s_open s_human s_generic s_red [] [] anchor [] [].

Definition two_lines : list jsstring := [lit "alpha"; lit "beta"].
Definition eleven_lines : list jsstring := repeat (lit "y") 11.

(** A reading of the clock. *)
Definition clock0 : Clock :=
  mkClock (lit "1770000000000") (lit "2026-02-02T02:40:00.000Z").

(** A document whose memo block is never closed:
    the lines [intro], the opener, an id attribute, and [tail]. *)
Definition doc_unterminated : jsstring :=
  unlines [lit "intro"; lit "<!-- USER_MEMO"; lit "  " ++ attr_head "id" ++ lit "m1" ++ [DQ];
           lit "tail"].

(** A document whose single-line memo is never closed: the line [intro]
    and the memo comment without its closing delimiter. *)
Definition doc_unclosed_line : jsstring :=
  unlines [lit "intro";
           lit "<!-- USER_MEMO " ++ attr_head "id" ++ lit "m1" ++ [DQ] ++ lit " : tail"].

(** A document that holds a frontmatter and nothing else. *)
Definition doc_frontmatter_only : jsstring :=
  unlines [lit "---"; lit "title: Plan"; lit "---"; []].

(** ** The gate summary ([shared/gate-evaluator.ts]) *)

Record GateSummary := mkSummary {
  blocked : N;
  proceed : N;
  done : N
}.

(** [getGateSummary]: one counter per status; a status that is neither
    [blocked] nor [proceed] counts as done. *)
Definition getGateSummary (gates : list Gate) : GateSummary :=
  fold_left
    (fun acc g =>
       if str_eqb (gate_status g) s_blocked
       then mkSummary (blocked acc + 1) (proceed acc) (done acc)
       else if str_eqb (gate_status g) s_proceed
       then mkSummary (blocked acc) (proceed acc + 1) (done acc)
       else mkSummary (blocked acc) (proceed acc) (done acc + 1))
    gates (mkSummary 0 0 0).

(** ** Section detection and checkpoint creation ([shared/checkpoint.ts]) *)

(** [^## (.+)], a second-level heading. *)
Definition H2_RE : re := seqs [Bol; Lit (lit "## "); Grp 1 (plus is_dot)].

(** [(?<!`)==.+==(?!`)], an inline highlight. *)
Definition INLINE_EQ_RE : re :=
  seqs [NotBehind 96; Lit (lit "=="); plus is_dot; Lit (lit "=="); NotAhead (Lit [96])].

(** [h2Match[1].trim()] when the line is a heading. *)
Definition heading_of (line : jsstring) : option jsstring :=
  match exec H2_RE line with
  | Some h2Match => Some (trim (default [] (group 1 h2Match)))
  | None => None
  end.

Definition hasAnnotation (line : jsstring) : bool :=
  includes (lit "<!-- USER_MEMO") line
  || includes (lit "<mark") line
  || test INLINE_EQ_RE line.

(** One turn of the loop of [getSectionsWithAnnotations], on the pair of
    [sections] and [currentSection]. *)
Definition sections_step (acc : list jsstring * jsstring) (line : jsstring)
  : list jsstring * jsstring :=
  let '(sections, currentSection) := acc in
  match heading_of line with
  | Some h => (sections, h)
  | None =>
      if negb (truthy currentSection) then acc
      else if hasAnnotation line && negb (existsb (str_eqb currentSection) sections)
      then (sections ++ [currentSection], currentSection)
      else acc
  end.

Definition getSectionsWithAnnotations (markdown : jsstring) : list jsstring :=
  (fold_left sections_step (lines_of markdown) ([], [])).1.

Definition getAllSections (markdown : jsstring) : list jsstring :=
  fold_left (fun sections line =>
               match heading_of line with
               | Some h => sections ++ [h]
               | None => sections
               end)
            (lines_of markdown) [].

Definition ALPHABET : jsstring := Eval cbv in lit "0123456789abcdefghijklmnopqrstuvwxyz".

(** [nanoid6]; [draw i] is the value of
    [Math.floor(Math.random() * ALPHABET.length)] in turn [i] of the loop.
    An index outside the alphabet would append the text of [undefined]. *)
Definition nanoid6 (draw : nat -> nat) : jsstring :=
  fold_left (fun id i =>
               id ++ match ALPHABET !! draw i with
                     | Some c => [c]
                     | None => lit "undefined"
                     end)
            (seq 0 6) [].

Record Created := mkCreated {
  checkpoint : Checkpoint;
  updatedMarkdown : jsstring
}.

(** [createCheckpoint]; the checkpoint is serialized with the
    [serializeCheckpoint] of [shared/markdown-roundtrip.ts], which is the
    one of the document writer word for word. *)
Definition createCheckpoint (draw : nat -> nat) (clock : Clock)
    (markdown note : jsstring) : Created :=
  let counts := getAnnotationCounts markdown in
  let sectionsReviewed := getSectionsWithAnnotations markdown in
  let checkpoint :=
    mkCheckpoint (lit "ckpt_" ++ nanoid6 draw) (clock_iso clock) note
                 (fixes counts) (questions counts) (highlights counts)
                 sectionsReviewed in
  let comment := serializeCheckpoint checkpoint in
  (* Append checkpoint at the end of the document *)
  let trimmed := trimEnd markdown in
  mkCreated checkpoint (trimmed ++ [NL; NL] ++ comment ++ [NL]).

(** ** Further predicates used in the statements *)

(** A lower-case hexadecimal digit. *)
Definition is_hex (c : N) : bool :=
  (48 <=? c) && (c <=? 57) || (97 <=? c) && (c <=? 102).

(** Two lists of ids with the same members. *)
Definition same_ids (ids ids' : list jsstring) : Prop :=
  forall id, In id ids <-> In id ids'.

(** A line that opens no comment: trimmed, it does not start with the
    comment opener. *)
Definition opens_no_comment (line : jsstring) : Prop :=
  starts_with (lit "<!--") (trim line) = false.

(** The memo as the splitter reads its serialized form back: the five
    attributes the serializer escapes come back escaped. *)
Definition escaped (m : MemoV2) : MemoV2 :=
  mkMemo (esc (memo_id m)) (memo_type m) (memo_status m) (memo_owner m)
         (esc (memo_source m)) (memo_color m) (esc (memo_text m))
         (esc (memo_anchorText m)) (esc (memo_anchor m))
         (memo_createdAt m) (memo_updatedAt m).

(** A memo whose serialized form is one attribute per line: no value holds
    a newline, the values written without escaping hold no double quote,
    and the values the splitter would replace by a default are not
    empty. *)
Definition serializable_memo (m : MemoV2) : Prop :=
  memo_id m <> [] /\ nl_free (memo_id m) /\
  filled (memo_type m) /\ filled (memo_status m) /\ filled (memo_owner m) /\
  memo_source m <> [] /\ nl_free (memo_source m) /\
  filled (memo_color m) /\
  nl_free (memo_text m) /\ nl_free (memo_anchorText m) /\ nl_free (memo_anchor m) /\
  filled (memo_createdAt m) /\ filled (memo_updatedAt m).

(** The bundle of a text that holds nothing but body. *)
Definition body_only (body : jsstring) : DocumentParts :=
  mkParts [] body [] [] [] None [].

(** What [splitDocument] returns for the merged text of a valid bundle. *)
Definition reread (parts : DocumentParts) : DocumentParts :=
  mkParts [] (unlines (pop_blank (lines_of (body parts))))
          (recovered_memos (lines_of (body parts)) (memos parts))
          (checkpoints parts) (gates parts) (cursor parts) [].

(** Every memo names its anchor text. *)
Definition anchored (parts : DocumentParts) : Prop :=
  Forall (fun m => memo_anchorText m <> []) (memos parts).

(** The body does not end in a blank line. *)
Definition no_blank_end (body : jsstring) : Prop :=
  pop_blank (lines_of body) = lines_of body.

(** What the two loops hold after the same lines: the reviewed sections
    [acc.1], the current section [acc.2], all sections [all]. *)
Definition sections_inv (acc : list jsstring * jsstring) (all : list jsstring) : Prop :=
  NoDup acc.1 /\ ~ In [] acc.1 /\
  ((all = [] /\ acc.2 = [] /\ acc.1 = []) \/
   exists pre, all = pre ++ [acc.2] /\
               (sublist acc.1 pre \/ exists r, acc.1 = r ++ [acc.2] /\ sublist r pre)).

(** *** The single-line memo

    The comment the editor writes for a memo
    ([webview/components/Editor.tsx]): the id, the colour and the status as
    quoted attributes, a colon, the text. *)
Definition v3_attr_text (key : string) (value : option jsstring) : jsstring :=
  match value with
  | Some v => lit " " ++ attr_head key ++ v ++ [DQ]
  | None => []
  end.

Definition v3_line (id : jsstring) (color status : option jsstring) (text : jsstring)
  : jsstring :=
  lit "<!-- USER_MEMO" ++ lit " " ++ attr_head "id" ++ id ++ [DQ]
  ++ v3_attr_text "color" color ++ v3_attr_text "status" status
  ++ lit " : " ++ text ++ lit " -->".

(** A text the single-line form carries unchanged: not empty, on one line,
    without white space at its ends. *)
Definition one_line_text (text : jsstring) : Prop :=
  Forall (fun c => is_dot c = true) text /\
  (exists c, head text = Some c /\ is_ws c = false) /\
  (exists c, last text = Some c /\ is_ws c = false).

(** An optional attribute value that is filled when present. *)
Definition filled_if_present (o : option jsstring) : Prop :=
  forall v, o = Some v -> filled v.

(** The memo the splitter makes of a single-line memo found below the body
    lines [bodyLines]. *)
Definition v3_memo (clock : Clock) (bodyLines : list jsstring)
    (id : jsstring) (color status : option jsstring) (text : jsstring) : MemoV2 :=
  mkMemo id (colorToType (default s_red color)) (default s_open status)
         s_human s_generic (default s_red color) (unescape_v3 text)
         (opt_or (findAnchorAbove bodyLines) []) (derived_anchor bodyLines)
         (clock_iso clock) (clock_iso clock).

(** ** Further concrete inputs used by the examples *)

(** A memo anchored to the second of [two_lines], with its anchor text. *)
Definition sample_memo : MemoV2 :=
  mkMemo (lit "m1") s_fix s_open s_human s_generic s_red (lit "tighten this")
         (lit "beta") (anchor_of two_lines 1) (lit "t0") (lit "t1").

Definition sample_checkpoint : Checkpoint :=
  mkCheckpoint (lit "ckpt_a1b2c3") (lit "t0") (lit "first pass") 12 0 3
               [lit "Intro"; lit "Plan"].

Definition sample_cursor : PlanCursor :=
  mkCursor (lit "T-1") (lit "3/7") (lit "run tests") (lit "0a1b2c3d") (lit "t0").

(** A bundle with one record of each kind. *)
Definition sample_bundle : DocumentParts :=
  mkParts [] (unlines two_lines) [sample_memo] [sample_checkpoint] [gate_m1]
          (Some sample_cursor) [].

(** ** Frontmatter *)

(** White space only. *)
Definition white (w : jsstring) : Prop := Forall (fun c => is_ws c = true) w.

(** A frontmatter block as [FRONTMATTER_RE] reads it: the opening fence,
    white space up to a newline, the content, the closing fence at the
    start of a line, white space up to a newline. *)
Definition frontmatter_block (w1 content w2 : jsstring) : jsstring :=
  lit "---" ++ w1 ++ [NL] ++ content ++ [NL] ++ lit "---" ++ w2 ++ [NL].

(** The first line of the text holds a character that is not white
    space. *)
Definition first_line_filled (s : jsstring) : Prop :=
  is_blank (hd [] (lines_of s)) = false.

(** The white space the text starts with holds no newline: no blank line
    comes first. *)
Definition no_blank_start (s : jsstring) : Prop := nl_free (take_while is_ws s).

(** No line of the content starts like a fence. *)
Definition fence_free (content : jsstring) : Prop :=
  Forall (fun l => starts_with (lit "---") l = false) (lines_of content).

(** The bundle with another frontmatter. *)
Definition with_frontmatter (fm : jsstring) (parts : DocumentParts) : DocumentParts :=
  mkParts fm (body parts) (memos parts) (checkpoints parts) (gates parts)
          (cursor parts) (unknownComments parts).

(** A success of the rest of an expression, seen from before the text [l]
    that the front of the expression consumed. *)
Definition glue (l : jsstring) (x : success) : success := (l ++ x.1.1, x.1.2, x.2).

(** The frontmatter of the examples: one key between two fences. *)
Definition sample_frontmatter : jsstring := frontmatter_block [] (lit "title: Plan") [].

(** ** Checkpoints in the editor's reader ([shared/markdown-roundtrip.ts]) *)

(** An expression whose matches do not depend on the text before them: no
    anchor, no word boundary, no look-behind. *)
Fixpoint prev_free (r : re) : bool :=
  match r with
  | Lit _ | Cls _ | Rep _ _ _ | Eol => true
  | Opt r1 | Grp _ r1 | NotAhead r1 => prev_free r1
  | Seq r1 r2 | Alt r1 r2 => prev_free r1 && prev_free r2
  | Bol | BolM | WordB | NotBehind _ => false
  end.

Module Roundtrip.

(** [/<!-- CHECKPOINT id=Q([^Q]+)Q time=Q([^Q]+)Q note=Q([^Q]{0,})Q fixes=(\d+) questions=(\d+) highlights=(\d+) sections=Q([^Q]{0,})Q -->/g] *)
Definition CHECKPOINT_RE : re :=
  seqs [Lit (lit "<!-- CHECKPOINT " ++ attr_head "id"); Grp 1 (plus not_dq);
        Lit (DQ :: lit " " ++ attr_head "time"); Grp 2 (plus not_dq);
        Lit (DQ :: lit " " ++ attr_head "note"); Grp 3 (star not_dq);
        Lit (DQ :: lit " fixes="); Grp 4 (plus is_digit);
        Lit (lit " questions="); Grp 5 (plus is_digit);
        Lit (lit " highlights="); Grp 6 (plus is_digit);
        Lit (lit " " ++ attr_head "sections"); Grp 7 (star not_dq);
        Lit (DQ :: lit " -->")].

(** The checkpoint made of one match. *)
Definition checkpoint_of_match (m : success) : Checkpoint :=
  let cs := m.2 in
  mkCheckpoint (default [] (cap 1 cs))
               (default [] (cap 2 cs))
               (default [] (cap 3 cs))
               (parseInt (default [] (cap 4 cs)))
               (parseInt (default [] (cap 5 cs)))
               (parseInt (default [] (cap 6 cs)))
               (parse_sections (default [] (cap 7 cs))).

(** [extractCheckpoints]: one checkpoint per match, in the order of the
    text. *)
Definition extractCheckpoints (markdown : jsstring) : list Checkpoint :=
  map checkpoint_of_match (exec_all CHECKPOINT_RE None markdown O).

End Roundtrip.

(** The text with which a serialized checkpoint starts. *)
Definition checkpoint_opener : jsstring := lit "<!-- CHECKPOINT " ++ attr_head "id".

(** A text with checkpoint comments: every checkpoint of the log
    serialized behind the text that precedes it, and [tail] behind the
    last. *)
Definition with_checkpoints (log : list (jsstring * Checkpoint)) (tail : jsstring)
  : jsstring :=
  flat_map (fun tc => tc.1 ++ serializeCheckpoint tc.2) log ++ tail.

(** The checkpoint comments of the text are the ones of the log: the
    checkpoints are valid and the texts between them hold no opener. *)
Definition checkpoint_log (log : list (jsstring * Checkpoint)) (tail : jsstring) : Prop :=
  Forall (fun tc => includes checkpoint_opener tc.1 = false /\ valid_checkpoint tc.2) log /\
  includes checkpoint_opener tail = false.

(** ** The legacy memo block *)

(** The line that opens a legacy block: the id, the colour and the date as
    quoted attributes, the last two optional. *)
Definition legacy_opener (id : jsstring) (color date : option jsstring) : jsstring :=
  lit "<!-- @memo" ++ lit " " ++ attr_head "id" ++ id ++ [DQ]
  ++ v3_attr_text "color" color ++ v3_attr_text "date" date ++ lit " -->".

(** The line that closes it. *)
Definition legacy_closer : jsstring := lit "<!-- @/memo -->".

(** The memo the splitter makes of a legacy block with the lines
    [memoLines], found below the body lines [bodyLines]. *)
Definition legacy_memo (clock : Clock) (bodyLines : list jsstring)
    (id : jsstring) (color date : option jsstring) (memoLines : list jsstring) : MemoV2 :=
  mkMemo id (colorToType (default s_red color)) s_open s_human s_generic
         (default s_red color) (legacy_text memoLines)
         (opt_or (findAnchorAbove bodyLines) []) (derived_anchor bodyLines)
         (default (clock_iso clock) date) (default (clock_iso clock) date).

(** ** Memos without double quotes *)

(** The five values the serializer escapes hold no double quote. *)
Definition unquoted (m : MemoV2) : Prop :=
  Forall (fun c => c <> DQ) (memo_id m) /\ Forall (fun c => c <> DQ) (memo_source m) /\
  Forall (fun c => c <> DQ) (memo_text m) /\ Forall (fun c => c <> DQ) (memo_anchorText m) /\
  Forall (fun c => c <> DQ) (memo_anchor m).

(** ** Highlight markup in fenced code *)

(** A document whose only highlight markup stands inside a fenced code
    block: the fence, the line [==x==], the fence. *)
Definition doc_fenced : jsstring :=
  unlines [lit "```"; lit "==x=="; lit "```"].

(** The same code block without the markup. *)
Definition doc_fenced_bare : jsstring :=
  unlines [lit "```"; lit "x"; lit "```"].

(** * Part II: proofs *)

(** ** Strings: basic facts *)

Lemma str_eqb_true s t : str_eqb s t = true <-> s = t.
Proof. unfold str_eqb. apply bool_decide_eq_true. Qed.

Lemma str_eqb_false s t : str_eqb s t = false <-> s <> t.
Proof. unfold str_eqb. apply bool_decide_eq_false. Qed.

Lemma str_eqb_refl s : str_eqb s s = true.
Proof. by apply str_eqb_true. Qed.

Lemma str_eqb_sym s t : str_eqb s t = str_eqb t s.
Proof.
  destruct (str_eqb s t) eqn:E.
  - apply str_eqb_true in E. subst. by rewrite str_eqb_refl.
  - symmetry. apply str_eqb_false. apply str_eqb_false in E. congruence.
Qed.

(** ** Lists and strings *)

Section Spans.
Context {A : Type} (p : A -> bool).

Lemma take_drop_while (s : list A) : take_while p s ++ drop_while p s = s.
Proof. induction s as [|c s IH]; simpl; [done|]. destruct (p c); simpl; congruence. Qed.

Lemma take_while_all (s : list A) : Forall (fun c => p c = true) (take_while p s).
Proof.
  induction s as [|c s IH]; simpl; [constructor|].
  destruct (p c) eqn:E; by constructor.
Qed.

Lemma drop_while_head (s : list A) c r :
  drop_while p s = c :: r -> p c = false.
Proof.
  induction s as [|x s IH]; simpl; [done|].
  destruct (p x) eqn:E; [done|]. by intros [= -> _].
Qed.

Lemma take_while_app (v r : list A) :
  Forall (fun c => p c = true) v ->
  match r with [] => True | c :: _ => p c = false end ->
  take_while p (v ++ r) = v.
Proof.
  intros Hv Hr. induction Hv as [|c v Hc Hv IH]; simpl.
  - destruct r as [|c r]; [done|]. simpl. by rewrite Hr.
  - by rewrite Hc, IH.
Qed.

Lemma drop_while_app (v r : list A) :
  Forall (fun c => p c = true) v ->
  match r with [] => True | c :: _ => p c = false end ->
  drop_while p (v ++ r) = r.
Proof.
  intros Hv Hr. induction Hv as [|c v Hc Hv IH]; simpl.
  - destruct r as [|c r]; [done|]. simpl. by rewrite Hr.
  - by rewrite Hc, IH.
Qed.

Lemma drop_while_all (v : list A) :
  Forall (fun c => p c = true) v -> drop_while p v = [].
Proof. intros Hv. induction Hv as [|c v Hc Hv IH]; simpl; [done|]. by rewrite Hc. Qed.

Lemma drop_while_none (s : list A) c :
  p c = false -> drop_while p (c :: s) = c :: s.
Proof. intros H. simpl. by rewrite H. Qed.

Lemma drop_while_nil_iff (s : list A) :
  drop_while p s = [] <-> forallb p s = true.
Proof.
  induction s as [|c s IH]; simpl; [done|].
  destruct (p c); simpl; [done|]. split; discriminate.
Qed.

Lemma take_while_forallb (s : list A) :
  forallb p s = true -> take_while p s = s.
Proof.
  induction s as [|c s IH]; simpl; [done|].
  destruct (p c); simpl; [|discriminate]. intros H. by rewrite IH.
Qed.

Lemma forallb_Forall (s : list A) :
  forallb p s = true <-> Forall (fun c => p c = true) s.
Proof.
  induction s as [|c s IH]; simpl; [split; [constructor|done]|].
  rewrite andb_true_iff, IH. split.
  - intros [? ?]. by constructor.
  - intros H. by inversion H.
Qed.

End Spans.

Lemma truthy_length (s : jsstring) : truthy s = (1 <=? length s)%nat.
Proof. by destruct s. Qed.

Lemma truthy_true (s : jsstring) : truthy s = true <-> s <> [].
Proof. by destruct s. Qed.

Lemma truthy_false (s : jsstring) : truthy s = false <-> s = [].
Proof. by destruct s. Qed.

Lemma strip_prefix_app l s : strip_prefix l (l ++ s) = Some s.
Proof. induction l as [|a l IH]; simpl; [done|]. by rewrite N.eqb_refl. Qed.

Lemma strip_prefix_Some l s r : strip_prefix l s = Some r <-> s = l ++ r.
Proof.
  revert s. induction l as [|a l IH]; intros s; simpl.
  - split; congruence.
  - destruct s as [|b s]; [split; [done|discriminate]|].
    destruct (N.eqb_spec a b) as [->|Hne].
    + rewrite IH. split; congruence.
    + split; [done|]. intros [= -> _]. done.
Qed.

Lemma starts_with_app l s : starts_with l (l ++ s) = true.
Proof. unfold starts_with. by rewrite strip_prefix_app. Qed.

Lemma starts_with_true l s : starts_with l s = true <-> exists r, s = l ++ r.
Proof.
  unfold starts_with. destruct (strip_prefix l s) as [r|] eqn:E.
  - apply strip_prefix_Some in E. split; eauto.
  - split; [done|]. intros [r ->]. by rewrite strip_prefix_app in E.
Qed.

(** *** split and join *)

Lemma split_on_nonempty sep s : split_on sep s <> [].
Proof.
  destruct s as [|c s]; simpl; [done|].
  destruct (c =? sep); [done|]. by destruct (split_on sep s).
Qed.

Lemma join_split sep s : join [sep] (split_on sep s) = s.
Proof.
  induction s as [|c s IH]; simpl; [done|].
  destruct (N.eqb_spec c sep) as [->|Hne].
  - pose proof (split_on_nonempty sep s) as Hn.
    destruct (split_on sep s) as [|h t]; [done|]. simpl in *. by rewrite IH.
  - pose proof (split_on_nonempty sep s) as Hn.
    destruct (split_on sep s) as [|h t]; [done|].
    destruct t; simpl in *; by rewrite <- IH.
Qed.

Lemma unlines_lines_of s : unlines (lines_of s) = s.
Proof. apply join_split. Qed.

Lemma split_on_no_sep sep s :
  Forall (fun c => c <> sep) s -> split_on sep s = [s].
Proof.
  induction 1 as [|c s Hc Hs IH]; simpl; [done|].
  destruct (N.eqb_spec c sep); [done|]. by rewrite IH.
Qed.

Lemma split_on_app sep s t :
  split_on sep (s ++ sep :: t) = split_on sep s ++ split_on sep t.
Proof.
  induction s as [|c s IH]; simpl.
  - by rewrite N.eqb_refl.
  - destruct (c =? sep); [by rewrite IH|]. rewrite IH.
    pose proof (split_on_nonempty sep s) as Hn.
    by destruct (split_on sep s).
Qed.

Lemma split_on_parts sep s :
  Forall (Forall (fun c => c <> sep)) (split_on sep s).
Proof.
  induction s as [|c s IH]; simpl; [by repeat constructor|].
  destruct (N.eqb_spec c sep) as [->|Hne]; [by constructor|].
  destruct (split_on sep s) as [|h t]; [by repeat constructor|].
  inversion IH; subst. constructor; [by constructor|done].
Qed.

(** Splitting a joined list of separator-free pieces gives the pieces. *)
Lemma split_join sep xs :
  xs <> [] -> Forall (Forall (fun c => c <> sep)) xs ->
  split_on sep (join [sep] xs) = xs.
Proof.
  induction xs as [|x xs IH]; [done|]. intros _ Hall. inversion Hall; subst.
  destruct xs as [|y ys].
  - simpl. by apply split_on_no_sep.
  - change (join [sep] (x :: y :: ys)) with (x ++ sep :: join [sep] (y :: ys)).
    rewrite split_on_app, IH by done. by rewrite split_on_no_sep.
Qed.

(** Splitting a joined list of arbitrary pieces splits each piece. *)
Lemma split_join_concat sep xs :
  xs <> [] ->
  split_on sep (join [sep] xs) = concat (map (split_on sep) xs).
Proof.
  induction xs as [|x xs IH]; [done|]. intros _.
  destruct xs as [|y ys].
  - simpl. by rewrite app_nil_r.
  - change (join [sep] (x :: y :: ys)) with (x ++ sep :: join [sep] (y :: ys)).
    rewrite split_on_app, IH by done. done.
Qed.

Lemma join_app sep xs ys :
  xs <> [] -> ys <> [] -> join sep (xs ++ ys) = join sep xs ++ sep ++ join sep ys.
Proof.
  induction xs as [|x xs IH]; [done|]. intros _ Hys.
  destruct xs as [|x' xs].
  - simpl. by destruct ys.
  - change (join sep ((x :: x' :: xs) ++ ys)) with (x ++ sep ++ join sep ((x' :: xs) ++ ys)).
    rewrite IH by done. simpl. by rewrite <- !app_assoc.
Qed.

Lemma last_join sep xs x :
  x <> [] -> last (join sep (xs ++ [x])) = last x.
Proof.
  intros Hx. induction xs as [|y xs IH]; simpl; [done|].
  destruct (xs ++ [x]) as [|z zs] eqn:E; [by destruct xs|].
  rewrite !last_app. rewrite IH. by destruct (last x) eqn:El; [|apply last_None in El].
Qed.

(** *** trim *)

Lemma trimEnd_snoc s c : is_ws c = false -> trimEnd (s ++ [c]) = s ++ [c].
Proof.
  intros Hc. unfold trimEnd. rewrite rev_app_distr. simpl. rewrite Hc.
  simpl. by rewrite rev_involutive.
Qed.

Lemma trimEnd_nil : trimEnd [] = [].
Proof. done. Qed.

Lemma trimStart_cons s c : is_ws c = false -> trimStart (c :: s) = c :: s.
Proof. intros Hc. unfold trimStart. simpl. by rewrite Hc. Qed.

(** A text that starts and ends outside white space is its own trim. *)
Lemma trim_framed c s d :
  is_ws c = false -> is_ws d = false -> trim (c :: s ++ [d]) = c :: s ++ [d].
Proof.
  intros Hc Hd. unfold trim. rewrite trimStart_cons by done.
  by rewrite app_comm_cons, trimEnd_snoc.
Qed.

Lemma trimStart_ws c s : is_ws c = true -> trimStart (c :: s) = trimStart s.
Proof. intros Hc. unfold trimStart. simpl. by rewrite Hc. Qed.

Lemma drop_while_rev_last {A} (p : A -> bool) (s : list A) :
  match last (rev (drop_while p (rev s))) with
  | Some c => p c = false
  | None => True
  end.
Proof.
  destruct (drop_while p (rev s)) as [|c r] eqn:E; [done|].
  simpl. rewrite last_snoc. by apply (drop_while_head p _ _ _ E).
Qed.

Lemma trim_last s :
  match last (trim s) with Some c => is_ws c = false | None => True end.
Proof. unfold trim, trimEnd. apply drop_while_rev_last. Qed.

Lemma drop_while_rev_head {A} (p : A -> bool) (s : list A) c :
  head s = Some c -> p c = false ->
  head (rev (drop_while p (rev s))) = Some c.
Proof.
  intros Hh Hc. destruct s as [|x s]; [done|]. simpl in Hh. injection Hh as ->.
  simpl. assert (drop_while p (rev s ++ [c]) = drop_while p (rev s) ++ [c]) as ->.
  { induction (rev s) as [|y r IH]; simpl; [by rewrite Hc|].
    destruct (p y); [done|done]. }
  rewrite rev_app_distr. done.
Qed.

Lemma trim_head s :
  match head (trim s) with Some c => is_ws c = false | None => True end.
Proof.
  unfold trim, trimEnd, trimStart.
  destruct (drop_while is_ws s) as [|c r] eqn:E; [done|].
  pose proof (drop_while_head is_ws _ _ _ E) as Hc.
  by rewrite (drop_while_rev_head is_ws (c :: r) c).
Qed.

Lemma trim_fixed s :
  match head s with Some c => is_ws c = false | None => True end ->
  match last s with Some c => is_ws c = false | None => True end ->
  trim s = s.
Proof.
  intros Hh Hl. destruct s as [|c s]; [done|]. simpl in Hh.
  unfold trim. rewrite trimStart_cons by done.
  destruct (c :: s) as [|d r _] eqn:E using rev_ind; [done|].
  rewrite last_snoc in Hl. by apply trimEnd_snoc.
Qed.

Lemma trim_idemp s : trim (trim s) = trim s.
Proof. apply trim_fixed; [apply trim_head|apply trim_last]. Qed.

Lemma drop_while_sub {A} (P : A -> Prop) (p : A -> bool) (s : list A) :
  Forall P s -> Forall P (drop_while p s).
Proof.
  induction 1 as [|c s Hc Hs IH]; simpl; [done|].
  destruct (p c); [done|]. by constructor.
Qed.

Lemma trim_sub (P : N -> Prop) s : Forall P s -> Forall P (trim s).
Proof.
  intros H. unfold trim, trimEnd, trimStart.
  apply Forall_rev, drop_while_sub, Forall_rev, drop_while_sub, H.
Qed.

(** *** Escaping *)

Lemma esc_safe s : attr_safe s -> esc s = s.
Proof.
  unfold esc, replace_chr. induction 1 as [|c s [_ Hc] Hs IH]; simpl; [done|].
  destruct (N.eqb_spec c DQ); [done|]. simpl. by rewrite IH.
Qed.

Lemma attr_safe_nl s : attr_safe s -> nl_free s.
Proof. intros H. eapply Forall_impl; [exact H|]. by intros c [? ?]. Qed.

Lemma attr_safe_not_dq s : attr_safe s -> Forall (fun c => not_dq c = true) s.
Proof.
  intros H. eapply Forall_impl; [exact H|]. intros c [_ Hc]. unfold not_dq, not_chr.
  by destruct (N.eqb_spec c DQ).
Qed.

(** ** The matcher: equations for sequences *)

(** Literals of the source are evaluated before a proof steps through an
    expression. *)
Ltac norm_lit :=
  repeat match goal with
    | |- context [lit ?s] =>
        tryif is_var s then fail else
        let v := eval vm_compute in (lit s) in change (lit s) with v
    | |- context [attr_head ?s] =>
        tryif is_var s then fail else
        let v := eval vm_compute in (attr_head s) in change (attr_head s) with v
    end.

Section Matcher.

Implicit Types (r : re) (prev : option N) (s : jsstring) (cs : captures).
Implicit Types (k : jsstring -> option N -> jsstring -> captures -> list captures).

Lemma flat_map_ext_in {A B} (f g : A -> list B) (l : list A) :
  (forall x, In x l -> f x = g x) -> flat_map f l = flat_map g l.
Proof.
  induction l as [|x l IH]; simpl; [done|]. intros H.
  rewrite (H x) by (by left). f_equal. apply IH. intros y Hy. apply H. by right.
Qed.

Lemma flat_map_nil {A B} (f : A -> list B) (l : list A) :
  (forall x, In x l -> f x = []) -> flat_map f l = [].
Proof.
  induction l as [|x l IH]; simpl; [done|]. intros H.
  rewrite (H x) by (by left). simpl. apply IH. intros y Hy. apply H. by right.
Qed.

Lemma flat_map_map {A B C} (f : B -> list C) (g : A -> B) (l : list A) :
  flat_map f (map g l) = flat_map (fun x => f (g x)) l.
Proof. induction l as [|x l IH]; simpl; [done|]. by rewrite IH. Qed.

Lemma flat_map_flat_map {A B C} (f : B -> list C) (g : A -> list B) (l : list A) :
  flat_map f (flat_map g l) = flat_map (fun x => flat_map f (g x)) l.
Proof.
  induction l as [|x l IH]; simpl; [done|].
  by rewrite flat_map_app, IH.
Qed.

Lemma prev_after_nil prev : prev_after prev [] = prev.
Proof. done. Qed.

Lemma prev_after_app prev c1 c2 :
  prev_after (prev_after prev c1) c2 = prev_after prev (c1 ++ c2).
Proof.
  unfold prev_after. destruct c2 as [|x c2 _] using rev_ind.
  - by rewrite app_nil_r.
  - by rewrite app_assoc, !last_snoc.
Qed.

Lemma bindc_ext r prev s cs k k' :
  (forall c p' s' cs', k c p' s' cs' = k' c p' s' cs') ->
  bindc r prev s cs k = bindc r prev s cs k'.
Proof.
  intros H. unfold bindc. apply flat_map_ext_in. by intros [[? ?] ?] _.
Qed.

Lemma caps_of_bindc r prev s cs :
  caps_of r prev s cs = bindc r prev s cs (fun _ _ _ cs' => [cs']).
Proof.
  unfold caps_of, bindc. induction (matches r prev s cs) as [|[[? ?] ?] l IH];
    simpl; [done|]. by rewrite IH.
Qed.

Lemma bindc_seq r1 r2 prev s cs k :
  bindc (Seq r1 r2) prev s cs k =
  bindc r1 prev s cs (fun c1 p1 s1 cs1 =>
    bindc r2 p1 s1 cs1 (fun c2 p2 s2 cs2 => k (c1 ++ c2) p2 s2 cs2)).
Proof.
  unfold bindc. simpl. rewrite flat_map_flat_map. apply flat_map_ext_in.
  intros [[c1 s1] cs1] _. rewrite flat_map_map. apply flat_map_ext_in.
  intros [[c2 s2] cs2] _. by rewrite prev_after_app.
Qed.

Lemma bindc_lit l prev s cs k :
  bindc (Lit l) prev s cs k =
  match strip_prefix l s with
  | Some rest => k l (prev_after prev l) rest cs
  | None => []
  end.
Proof.
  unfold bindc. simpl. destruct (strip_prefix l s); simpl; [|done].
  by rewrite app_nil_r.
Qed.

Lemma bindc_nil prev s cs k : bindc (Lit []) prev s cs k = k [] prev s cs.
Proof. rewrite bindc_lit. by destruct s. Qed.

Lemma bindc_grp n r prev s cs k :
  bindc (Grp n r) prev s cs k =
  bindc r prev s cs (fun c p' s' cs' => k c p' s' ((n, c) :: cs')).
Proof.
  unfold bindc. simpl. rewrite flat_map_map. apply flat_map_ext_in.
  by intros [[? ?] ?] _.
Qed.

Lemma bindc_opt r prev s cs k :
  bindc (Opt r) prev s cs k = bindc r prev s cs k ++ k [] prev s cs.
Proof.
  unfold bindc. simpl. rewrite flat_map_app. simpl. by rewrite app_nil_r.
Qed.

Lemma bindc_alt r1 r2 prev s cs k :
  bindc (Alt r1 r2) prev s cs k = bindc r1 prev s cs k ++ bindc r2 prev s cs k.
Proof. unfold bindc. simpl. by rewrite flat_map_app. Qed.

Lemma bindc_bol prev s cs k :
  bindc Bol prev s cs k = match prev with None => k [] None s cs | Some _ => [] end.
Proof. unfold bindc. simpl. destruct prev; simpl; [done|]. by rewrite app_nil_r. Qed.

Lemma bindc_eol prev s cs k :
  bindc Eol prev s cs k = match s with [] => k [] prev [] cs | _ => [] end.
Proof. unfold bindc. simpl. destruct s; simpl; [|done]. by rewrite app_nil_r. Qed.

(** A greedy run over a class, when the continuation fails on any text that
    starts inside the class: only the longest run can succeed. *)
Lemma bindc_rep_greedy p min prev s cs k :
  (forall run p' c rest, p c = true -> k run p' (c :: rest) cs = []) ->
  bindc (Rep false min p) prev s cs k =
  if (min <=? length (take_while p s))%nat
  then k (take_while p s) (prev_after prev (take_while p s)) (drop_while p s) cs
  else [].
Proof.
  intros Hk. unfold bindc. cbn [matches]. rewrite flat_map_map.
  assert (forall (g : jsstring -> jsstring -> list captures) mn,
    (forall run c rest, p c = true -> g run (c :: rest) = []) ->
    flat_map (fun x : jsstring * jsstring => g (fst x) (snd x))
      (List.filter (fun '(run, _) => (mn <=? length run)%nat) (runs p s)) =
    if (mn <=? length (take_while p s))%nat
    then g (take_while p s) (drop_while p s) else []) as Hgen.
  { clear k Hk. induction s as [|c s' IH]; intros g mn Hg.
    - simpl. destruct mn; simpl; [by rewrite app_nil_r|done].
    - simpl. destruct (p c) eqn:Hc.
      + rewrite List.filter_app, flat_map_app. simpl.
        assert (flat_map (fun x : jsstring * jsstring => g (fst x) (snd x))
                  (if (mn <=? 0)%nat then [([], c :: s')] else []) = []) as ->.
        { destruct (mn <=? 0)%nat; simpl; [|done]. by rewrite (Hg [] c s' Hc). }
        rewrite app_nil_r.
        assert (forall n, (mn <=? S n)%nat = (Nat.pred mn <=? n)%nat) as Hpred.
        { intros n. destruct mn; simpl; [done|].
          destruct (Nat.leb_spec mn n); destruct (Nat.leb_spec (S mn) (S n)); (done || lia). }
        specialize (IH (fun run rest => g (c :: run) rest) (Nat.pred mn)).
        cbn [length]. rewrite Hpred.
        rewrite <- IH by (intros; by apply Hg).
        clear IH. induction (runs p s') as [|[run rest] l IHl]; simpl; [done|].
        rewrite Hpred.
        destruct (Nat.pred mn <=? length run)%nat; simpl; by rewrite IHl.
      + simpl. destruct mn; simpl; [by rewrite app_nil_r|done]. }
  rewrite <- (Hgen (fun run rest => k run (prev_after prev run) rest cs) min)
    by (intros; by apply Hk).
  apply flat_map_ext_in. by intros [? ?] _.
Qed.

(** The successes of a greedy run, all of them: the splits of the longest
    run. *)
Lemma runs_spec p s run rest :
  In (run, rest) (runs p s) ->
  s = run ++ rest /\ Forall (fun c => p c = true) run.
Proof.
  revert run rest. induction s as [|c s IH]; intros run rest; simpl.
  - intros [[= <- <-]|[]]. by split.
  - destruct (p c) eqn:Hc.
    + rewrite in_app_iff, in_map_iff. intros [([run' rest'] & [= <- <-] & Hin)|[[= <- <-]|[]]].
      * apply IH in Hin as [-> Hall]. split; [done|]. by constructor.
      * by split.
    + intros [[= <- <-]|[]]. by split.
Qed.

(** An expression anchored with [^] matches at the start or nowhere. *)
Lemma search_bol_later r c before s :
  search (Seq Bol r) (Some c) before s = None.
Proof.
  revert c before. induction s as [|x s IH]; intros c before; simpl; [done|].
  unfold match_at. simpl. apply IH.
Qed.

Lemma matches_bol_start r s cs :
  matches (Seq Bol r) None s cs = matches r None s cs.
Proof.
  simpl. rewrite app_nil_r. unfold prev_after. simpl.
  induction (matches r None s cs) as [|[[? ?] ?] l IH]; simpl; [done|].
  by rewrite IH.
Qed.

Lemma exec_bol r s :
  exec (Seq Bol r) s =
  match matches r None s [] with
  | (text, rest, cs) :: _ => Some (mkFound [] text rest cs)
  | [] => None
  end.
Proof.
  unfold exec. destruct s as [|c s]; unfold search; fold search;
    unfold match_at; rewrite matches_bol_start;
    destruct (matches r None _ []) as [|[[t rest] cs] l]; simpl; try done.
  apply search_bol_later.
Qed.

Lemma exec_bol_caps r s :
  f_caps <$> exec (Seq Bol r) s = head (caps_of r None s []).
Proof.
  rewrite exec_bol. unfold caps_of.
  by destruct (matches r None s []) as [|[[t rest] cs] l].
Qed.

Lemma test_bol r s :
  test (Seq Bol r) s = match caps_of r None s [] with [] => false | _ => true end.
Proof.
  unfold test. rewrite exec_bol. unfold caps_of.
  by destruct (matches r None s []) as [|[[t rest] cs] l].
Qed.

Lemma caps_of_seq r1 r2 prev s cs :
  caps_of (Seq r1 r2) prev s cs =
  bindc r1 prev s cs (fun _ p1 s1 cs1 => caps_of r2 p1 s1 cs1).
Proof.
  rewrite caps_of_bindc, bindc_seq. apply bindc_ext. intros.
  by rewrite caps_of_bindc.
Qed.

Lemma caps_of_nil prev s cs : caps_of (Lit []) prev s cs = [cs].
Proof. done. Qed.

Lemma caps_of_eol prev s cs :
  caps_of Eol prev s cs = match s with [] => [cs] | _ => [] end.
Proof. unfold caps_of. simpl. by destruct s. Qed.

End Matcher.

(** ** The scanning loop *)

Section Scan.

Variable clock : Clock.

Lemma take_block_length is_end ls :
  (length (take_block is_end ls).2 <= length ls)%nat.
Proof.
  induction ls as [|l ls IH]; simpl; [done|].
  destruct (is_end l); simpl; [lia|].
  destruct (take_block is_end ls). simpl in *. lia.
Qed.

Lemma skip_banner_length ls : (length (skip_banner ls) <= Nat.pred (length ls))%nat.
Proof.
  induction ls as [|l ls IH]; simpl; [done|].
  destruct (includes _ l); simpl; [done|]. lia.
Qed.

(** A turn of the loop consumes at least the current line. *)
Lemma loop_body_length line rest st :
  (length (loop_body clock line rest st).1 <= length rest)%nat.
Proof.
  unfold loop_body.
  repeat match goal with
    | |- context [match exec ?r ?t with _ => _ end] => destruct (exec r t)
    | |- context [if ?b then _ else _] => destruct b
    | |- context [let '(_, _) := take_block ?e ?l in _] =>
        pose proof (take_block_length e l); destruct (take_block e l)
    end; simpl in *; try lia.
  pose proof (skip_banner_length (line :: rest)). simpl in *. lia.
Qed.

Lemma split_loop_enough fuel ls st :
  (length ls <= fuel)%nat -> split_loop clock fuel ls st = scan clock ls st.
Proof.
  unfold scan. remember (length ls) as n eqn:En.
  assert (length ls <= n)%nat as Hn by lia. clear En.
  revert n ls st Hn. induction fuel as [|fuel IH]; intros n ls st Hn Hf.
  - destruct ls; simpl in *; [by destruct n|lia].
  - destruct ls as [|line rest]; [by destruct n|].
    destruct n as [|n]; [simpl in *; lia|]. simpl.
    pose proof (loop_body_length line rest st) as Hlen.
    destruct (loop_body clock line rest st) as [ls' st']. simpl in *.
    apply (IH n); lia.
Qed.

Lemma scan_nil st : scan clock [] st = st.
Proof. done. Qed.

Lemma scan_cons line rest st :
  scan clock (line :: rest) st =
  scan clock (loop_body clock line rest st).1 (loop_body clock line rest st).2.
Proof.
  unfold scan at 1. simpl.
  pose proof (loop_body_length line rest st) as Hlen.
  destruct (loop_body clock line rest st) as [ls' st']. simpl in *.
  by apply split_loop_enough.
Qed.

(** A plain line goes to the body. *)
Lemma loop_body_plain line rest st :
  plain line -> loop_body clock line rest st = (rest, push_body st line).
Proof.
  unfold plain, is_plain, loop_body, test. cbv zeta.
  rewrite !andb_true_iff, !negb_true_iff.
  intros [[[[[[[H1 H2] H3] H4] H5] H6] H7] H8].
  destruct (exec MEMO_V3_RE (trim line)); [done|].
  destruct (exec MEMO_V4_START_RE (trim line)); [done|].
  destruct (exec GATE_START_RE (trim line)); [done|].
  destruct (exec CURSOR_START_RE (trim line)); [done|].
  destruct (exec CHECKPOINT_RE (trim line)); [done|].
  destruct (exec LEGACY_MEMO_START_RE (trim line)); [done|].
  destruct (exec BANNER_START_RE (trim line)); [done|].
  destruct (exec FEEDBACK_NOTES_RE (trim line)); [done|].
  done.
Qed.

Lemma push_body_lines st ls :
  fold_left push_body ls st =
  mkState (st_bodyLines st ++ ls) (st_memos st) (st_checkpoints st)
          (st_gates st) (st_cursor st).
Proof.
  revert st. induction ls as [|l ls IH]; intros st; simpl.
  - rewrite app_nil_r. by destruct st.
  - rewrite IH. simpl. by rewrite <- app_assoc.
Qed.

Lemma scan_plain pre rest st :
  Forall plain pre ->
  scan clock (pre ++ rest) st = scan clock rest (fold_left push_body pre st).
Proof.
  intros Hpre. revert st. induction Hpre as [|l pre Hl Hpre IH]; intros st; [done|].
  simpl. rewrite scan_cons, (loop_body_plain _ _ _ Hl). simpl. apply IH.
Qed.

(** A block that is never closed runs to the end of the document. *)
Lemma closes_iff l : closes MEMO_V4_END_RE l = true <-> trim l = lit "-->".
Proof.
  unfold closes, MEMO_V4_END_RE, seqs. cbn [fold_right]. norm_lit.
  rewrite test_bol, caps_of_seq, bindc_lit.
  destruct (strip_prefix [45; 45; 62] (trim l)) as [r|] eqn:E.
  - apply strip_prefix_Some in E. rewrite E. rewrite caps_of_seq, bindc_eol.
    destruct r; simpl; [done|]. split; [done|]. intros [=].
  - split; [done|]. intros H. rewrite H in E. done.
Qed.

Lemma take_block_never_closed ls :
  never_closed ls -> take_block (closes MEMO_V4_END_RE) ls = (ls, []).
Proof.
  induction 1 as [|l ls Hl Hls IH]; simpl; [done|].
  destruct (closes MEMO_V4_END_RE l) eqn:E.
  - by apply closes_iff in E.
  - by rewrite IH.
Qed.

End Scan.

Lemma lines_of_unlines ls :
  ls <> [] -> Forall nl_free ls -> lines_of (unlines ls) = ls.
Proof. apply split_join. Qed.

(** *** Frontmatter and block openers *)

Section Openers.

Variable clock : Clock.

Lemma exec_frontmatter_none s :
  starts_with (lit "---") s = false -> exec FRONTMATTER_RE s = None.
Proof.
  unfold starts_with, FRONTMATTER_RE, seqs. cbn [fold_right]. intros H.
  rewrite exec_bol. cbn [matches].
  by destruct (strip_prefix (lit "---") s).
Qed.

Lemma splitDocument_no_frontmatter ls :
  ls <> [] -> Forall nl_free ls ->
  starts_with (lit "---") (unlines ls) = false ->
  splitDocument clock (unlines ls) = parts_of [] (scan clock ls init_state).
Proof.
  intros Hne Hnl Hfm. unfold splitDocument.
  rewrite (exec_frontmatter_none _ Hfm), lines_of_unlines by done. done.
Qed.

Lemma loop_body_memo_open opener rest st :
  trim opener = lit "<!-- USER_MEMO" ->
  loop_body clock opener rest st =
  let '(attrLines, rest') := take_block (closes MEMO_V4_END_RE) rest in
  (rest', push_memo st (memo_of_attrs clock (st_bodyLines st) (parseAttrs attrLines))).
Proof.
  intros H. unfold loop_body. cbv zeta. rewrite H.
  assert (exec MEMO_V3_RE (lit "<!-- USER_MEMO") = None) as -> by (by vm_compute).
  assert (test MEMO_V4_START_RE (lit "<!-- USER_MEMO") = true) as -> by (by vm_compute).
  done.
Qed.

Lemma loop_body_gate_open opener rest st :
  trim opener = lit "<!-- GATE" ->
  loop_body clock opener rest st =
  let '(attrLines, rest') := take_block (closes GATE_END_RE) rest in
  (rest', push_gate st (gate_of_attrs clock (parseAttrs attrLines))).
Proof.
  intros H. unfold loop_body. cbv zeta. rewrite H.
  assert (exec MEMO_V3_RE (lit "<!-- GATE") = None) as -> by (by vm_compute).
  assert (test MEMO_V4_START_RE (lit "<!-- GATE") = false) as -> by (by vm_compute).
  assert (test GATE_START_RE (lit "<!-- GATE") = true) as -> by (by vm_compute).
  done.
Qed.

Lemma loop_body_cursor_open opener rest st :
  trim opener = lit "<!-- PLAN_CURSOR" ->
  loop_body clock opener rest st =
  let '(attrLines, rest') := take_block (closes CURSOR_END_RE) rest in
  (rest', set_cursor st (cursor_of_attrs clock (parseAttrs attrLines))).
Proof.
  intros H. unfold loop_body. cbv zeta. rewrite H.
  assert (exec MEMO_V3_RE (lit "<!-- PLAN_CURSOR") = None) as -> by (by vm_compute).
  assert (test MEMO_V4_START_RE (lit "<!-- PLAN_CURSOR") = false) as -> by (by vm_compute).
  assert (test GATE_START_RE (lit "<!-- PLAN_CURSOR") = false) as -> by (by vm_compute).
  assert (test CURSOR_START_RE (lit "<!-- PLAN_CURSOR") = true) as -> by (by vm_compute).
  done.
Qed.

End Openers.

(** ** Attribute lines *)

Section Attributes.

Lemma class_not (p : N -> bool) (a c : N) :
  p c = true -> p a = false -> (a =? c) = false.
Proof. intros Hc Ha. destruct (N.eqb_spec a c) as [->|]; congruence. Qed.

Lemma strip_prefix_class (p : N -> bool) a l c rest :
  p c = true -> p a = false -> strip_prefix (a :: l) (c :: rest) = None.
Proof. intros Hc Ha. simpl. by rewrite (class_not p a c). Qed.

(** The expression for attribute lines reads a line as [parse_attr]
    does. *)
Lemma exec_attr s :
  f_caps <$> exec ATTR_RE s =
  (fun '(k, v) => [(2%nat, v); (1%nat, k)]) <$> parse_attr s.
Proof.
  unfold ATTR_RE, parse_attr, seqs. cbn [fold_right]. rewrite exec_bol_caps.
  rewrite caps_of_seq, bindc_grp, bindc_rep_greedy.
  2:{ intros run p' c rest Hc. rewrite caps_of_seq, bindc_lit.
      by rewrite (strip_prefix_class is_word). }
  rewrite <- truthy_length.
  generalize (prev_after None (take_while is_word s)). intros prev.
  destruct (truthy (take_while is_word s)) eqn:Ek.
  2:{ cbn [head]. destruct (strip_prefix [61; DQ] _) as [s1|]; [|done].
      by destruct (strip_prefix [DQ] _) as [[|]|]. }
  rewrite caps_of_seq, bindc_lit.
  destruct (strip_prefix [61; DQ] (drop_while is_word s)) as [s1|]; [|done].
  rewrite caps_of_seq, bindc_grp, bindc_rep_greedy.
  2:{ intros run p' c rest Hc. rewrite caps_of_seq, bindc_lit.
      by rewrite (strip_prefix_class not_dq). }
  cbn [Nat.leb]. rewrite caps_of_seq, bindc_lit.
  destruct (strip_prefix [DQ] (drop_while not_dq s1)) as [r|]; [|done].
  rewrite caps_of_seq, bindc_eol. by destruct r.
Qed.

Lemma parseAttrs_fold lines :
  parseAttrs lines =
  fold_left (fun attrs line =>
               match parse_attr (trim line) with
               | Some (k, v) => assign k v attrs
               | None => attrs
               end) lines ∅.
Proof.
  unfold parseAttrs. generalize (∅ : gmap jsstring jsstring).
  induction lines as [|l lines IH]; intros a; simpl; [done|].
  rewrite IH. f_equal.
  pose proof (exec_attr (trim l)) as H. unfold group.
  destruct (exec ATTR_RE (trim l)) as [m|]; destruct (parse_attr (trim l)) as [[k v]|];
    simpl in H; try done.
  injection H as ->. simpl. done.
Qed.

Lemma is_word_not_ws c : is_word c = true -> is_ws c = false.
Proof.
  intros H. apply not_true_iff_false. intros Hw.
  unfold is_word, is_digit in H. unfold is_ws in Hw.
  repeat first [ rewrite orb_true_iff in H | rewrite andb_true_iff in H
               | rewrite N.leb_le in H | rewrite N.eqb_eq in H ].
  repeat first [ rewrite orb_true_iff in Hw | rewrite andb_true_iff in Hw
               | rewrite N.leb_le in Hw | rewrite N.eqb_eq in Hw ].
  lia.
Qed.

Lemma parse_attr_line key v :
  key <> [] -> Forall (fun c => is_word c = true) key -> attr_safe v ->
  parse_attr (key ++ [61; DQ] ++ v ++ [DQ]) = Some (key, v).
Proof.
  intros Hne Hkey Hv. unfold parse_attr.
  rewrite take_while_app, drop_while_app by done.
  cbn [app strip_prefix]. rewrite !N.eqb_refl.
  apply attr_safe_not_dq in Hv.
  rewrite take_while_app, drop_while_app by done.
  simpl. by destruct key.
Qed.

Lemma trim_attr_line key v :
  wordy key -> trim (attr_line key v) = lit key ++ [61; DQ] ++ v ++ [DQ].
Proof.
  intros [Hne Hw]. unfold attr_line, attr_head, trim. norm_lit. cbn [app].
  rewrite !trimStart_ws by done. rewrite <- !app_assoc.
  destruct (lit key) as [|c k]; [done|]. inversion Hw; subst.
  cbn [app]. rewrite trimStart_cons by (by apply is_word_not_ws).
  replace (c :: k ++ 61 :: DQ :: v ++ [DQ]) with ((c :: k ++ 61 :: DQ :: v) ++ [DQ])
    by (simpl; by rewrite <- !app_assoc).
  by rewrite trimEnd_snoc.
Qed.

Lemma parse_attr_attr_line key v :
  wordy key -> attr_safe v ->
  parse_attr (trim (attr_line key v)) = Some (lit key, v).
Proof.
  intros Hk Hv. rewrite trim_attr_line by done.
  destruct Hk. by apply parse_attr_line.
Qed.

Lemma closes_attr_line key v :
  wordy key -> closes MEMO_V4_END_RE (attr_line key v) = false.
Proof.
  intros Hk. apply not_true_iff_false. rewrite closes_iff, trim_attr_line by done.
  destruct Hk as [Hne Hw]. destruct (lit key) as [|c k]; [done|].
  inversion Hw; subst. intros [= -> _]. done.
Qed.

Lemma take_block_app is_end blk c rest :
  Forall (fun l => is_end l = false) blk -> is_end c = true ->
  take_block is_end (blk ++ c :: rest) = (blk, rest).
Proof.
  intros Hblk Hc. induction Hblk as [|l blk Hl Hblk IH]; simpl.
  - by rewrite Hc.
  - by rewrite Hl, IH.
Qed.

Lemma assign_key k v attrs :
  k <> lit "__proto__" -> assign k v attrs = <[k := v]> attrs.
Proof. intros Hk. unfold assign. by rewrite (proj2 (str_eqb_false _ _) Hk). Qed.

Lemma parseAttrs_attr_lines kvs :
  Forall (fun '(k, v) => wordy k /\ attr_safe v) kvs ->
  Forall (fun kv => lit kv.1 <> lit "__proto__") kvs ->
  parseAttrs (map (fun '(k, v) => attr_line k v) kvs) = attrs_of kvs.
Proof.
  intros Hall Hkeys. rewrite parseAttrs_fold. unfold attrs_of.
  generalize (∅ : gmap jsstring jsstring).
  induction Hall as [|[k v] kvs [Hk Hv] Hall IH]; intros a; simpl; [done|].
  inversion Hkeys; subst.
  rewrite parse_attr_attr_line by done. rewrite assign_key by done. by apply IH.
Qed.

Lemma take_block_attr_lines kvs rest :
  Forall (fun '(k, v) => wordy k /\ attr_safe v) kvs ->
  take_block (closes MEMO_V4_END_RE)
             (map (fun '(k, v) => attr_line k v) kvs ++ lit "-->" :: rest) =
  (map (fun '(k, v) => attr_line k v) kvs, rest).
Proof.
  intros Hall. apply take_block_app; [|by vm_compute].
  apply Forall_forall. intros l Hl.
  apply list_elem_of_In, in_map_iff in Hl as ([k v] & <- & Hin).
  rewrite Forall_forall in Hall. apply list_elem_of_In, Hall in Hin as [Hk _].
  by apply closes_attr_line.
Qed.

Lemma attrs_of_lookup kvs key : attrs_of kvs !! key = assoc key kvs.
Proof.
  unfold attrs_of.
  assert (forall a : gmap jsstring jsstring,
            fold_left (fun a '(k, v) => <[lit k := v]> a) kvs a !! key =
                    match assoc key kvs with Some x => Some x | None => a !! key end) as H.
  { induction kvs as [|[k v] kvs IH]; intros a; simpl; [done|].
    rewrite IH. destruct (assoc key kvs); [done|].
    unfold str_eqb. case_bool_decide as E.
    - subst. by rewrite lookup_insert_eq.
    - by rewrite lookup_insert_ne. }
  rewrite H, lookup_empty. by destruct (assoc key kvs).
Qed.

Lemma or_else_filled s d : filled s -> or_else s d = s.
Proof. intros [Hs _]. by destruct s. Qed.

Lemma or_else_nil s : or_else s [] = s.
Proof. by destruct s. Qed.

End Attributes.

(** The attribute lines of the serialized forms, as keys and values. *)
Ltac attr_facts :=
  repeat match goal with
    | |- Forall _ (_ :: _) => constructor
    | |- Forall _ [] => constructor
    | |- wordy _ /\ _ => split
    | |- wordy _ => split; [by vm_compute | by vm_compute; repeat constructor]
    | H : filled ?s |- attr_safe ?s => exact (proj2 H)
    | |- _ => assumption
    end.

Section Blocks.

Variable clock : Clock.

Lemma loop_body_memo_lines m rest st :
  valid_memo m ->
  loop_body clock (lit "<!-- USER_MEMO") (tail (memo_lines m) ++ rest) st =
  (rest, push_memo st (refill (st_bodyLines st) m)).
Proof.
  intros (Hid & Hty & Hst & How & Hso & Hco & Hte & Hat & Han & Hcr & Hup).
  rewrite loop_body_memo_open by reflexivity.
  unfold memo_lines. cbn [tail].
  rewrite (esc_safe (memo_id m)), (esc_safe (memo_source m)), (esc_safe (memo_text m)),
    (esc_safe (memo_anchorText m)), (esc_safe (memo_anchor m))
    by (assumption || apply Hid || apply Hso).
  set (kvs := [("id", memo_id m); ("type", memo_type m); ("status", memo_status m);
               ("owner", memo_owner m); ("source", memo_source m);
               ("color", memo_color m); ("text", memo_text m);
               ("anchorText", memo_anchorText m); ("anchor", memo_anchor m);
               ("createdAt", memo_createdAt m); ("updatedAt", memo_updatedAt m)]%string).
  match goal with |- context [take_block _ ?l] =>
    change l with (map (fun '(k, v) => attr_line k v) kvs ++ lit "-->" :: rest) end.
  assert (Forall (fun '(k, v) => wordy k /\ attr_safe v) kvs) as Hkvs
    by (subst kvs; attr_facts).
  assert (Forall (fun kv => lit kv.1 <> lit "__proto__") kvs) as Hkeys
    by (subst kvs; repeat constructor; by vm_compute).
  rewrite take_block_attr_lines, parseAttrs_attr_lines by done.
  f_equal. f_equal. unfold memo_of_attrs, attr, refill. rewrite !attrs_of_lookup.
  subst kvs. cbn [assoc].
  repeat match goal with
    | |- context [str_eqb (lit ?a) (lit ?b)] =>
        let v := eval vm_compute in (str_eqb (lit a) (lit b)) in
        change (str_eqb (lit a) (lit b)) with v
    end.
  cbn [opt_or].
  rewrite (or_else_filled (memo_id m)), (or_else_filled (memo_type m)),
    (or_else_filled (memo_status m)), (or_else_filled (memo_owner m)),
    (or_else_filled (memo_source m)), (or_else_filled (memo_color m)),
    (or_else_filled (memo_createdAt m)), (or_else_filled (memo_updatedAt m)) by done.
  by rewrite !or_else_nil.
Qed.

End Blocks.

(** ** Reading a serialized line segment by segment *)

Section Segments.

Implicit Types (R : re) (p q : N -> bool).

Lemma fails_on_lit p a l R : p a = false -> fails_on p (Seq (Lit (a :: l)) R).
Proof.
  intros Ha prev c rest cs Hc. rewrite caps_of_seq, bindc_lit.
  by rewrite (strip_prefix_class p).
Qed.

Lemma fails_on_eol p R : fails_on p (Seq Eol R).
Proof. intros prev c rest cs Hc. by rewrite caps_of_seq, bindc_eol. Qed.

Lemma caps_lit l R prev rest cs :
  caps_of (Seq (Lit l) R) prev (l ++ rest) cs = caps_of R (prev_after prev l) rest cs.
Proof. by rewrite caps_of_seq, bindc_lit, strip_prefix_app. Qed.

Lemma caps_rep p min R prev v rest cs :
  fails_on p R -> Forall (fun c => p c = true) v -> stops p rest ->
  (min <= length v)%nat ->
  caps_of (Seq (Rep false min p) R) prev (v ++ rest) cs =
  caps_of R (prev_after prev v) rest cs.
Proof.
  intros HR Hv Hrest Hmin. rewrite caps_of_seq, bindc_rep_greedy.
  2:{ intros. by apply HR. }
  rewrite take_while_app, drop_while_app by done.
  by destruct (Nat.leb_spec min (length v)); [|lia].
Qed.

Lemma caps_grp_rep n p min R prev v rest cs :
  fails_on p R -> Forall (fun c => p c = true) v -> stops p rest ->
  (min <= length v)%nat ->
  caps_of (Seq (Grp n (Rep false min p)) R) prev (v ++ rest) cs =
  caps_of R (prev_after prev v) rest ((n, v) :: cs).
Proof.
  intros HR Hv Hrest Hmin. rewrite caps_of_seq, bindc_grp, bindc_rep_greedy.
  2:{ intros. by apply HR. }
  rewrite take_while_app, drop_while_app by done.
  by destruct (Nat.leb_spec min (length v)); [|lia].
Qed.

(** A run that needs one code unit fails where the class does not start. *)
Lemma fails_on_plus p q R :
  (forall c, p c = true -> q c = false) -> fails_on q R ->
  fails_on p (Seq (Rep false 1 q) R).
Proof.
  intros Hpq HR prev c rest cs Hc. rewrite caps_of_seq, bindc_rep_greedy.
  2:{ intros. by apply HR. }
  simpl. by rewrite (Hpq c Hc).
Qed.

End Segments.

(** ** Numbers in decimal *)

Section Decimal.

Lemma dec_digits_app fuel n acc :
  dec_digits fuel n acc = dec_digits fuel n [] ++ acc.
Proof.
  revert n acc. induction fuel as [|fuel IH]; intros n acc; simpl; [done|].
  destruct (n / 10 =? 0); [done|].
  rewrite (IH _ (_ :: acc)), (IH _ [_]). by rewrite <- app_assoc.
Qed.

Lemma parseInt_snoc s d : parseInt (s ++ [d]) = parseInt s * 10 + (d - 48).
Proof. unfold parseInt. by rewrite fold_left_app. Qed.

Lemma parseInt_dec_digits fuel n :
  n < 2 ^ N.of_nat fuel -> parseInt (dec_digits fuel n []) = n.
Proof.
  revert n. induction fuel as [|fuel IH]; intros n Hn.
  - simpl in *. assert (n = 0) as -> by lia. done.
  - cbn [dec_digits]. destruct (N.eqb_spec (n / 10) 0) as [E|E].
    + change (parseInt [48 + n mod 10]) with (0 * 10 + (48 + n mod 10 - 48)).
      pose proof (N.div_mod n 10 ltac:(lia)) as H. rewrite E in H.
      generalize dependent (n mod 10). intros r Hr. lia.
    + rewrite dec_digits_app, parseInt_snoc, IH.
      * pose proof (N.div_mod n 10 ltac:(lia)) as H.
        generalize dependent (n mod 10). generalize dependent (n / 10).
        intros. lia.
      * rewrite Nat2N.inj_succ, N.pow_succ_r' in Hn.
        assert (n / 10 <= n / 2) by (apply N.div_le_compat_l; lia).
        assert (n / 2 < 2 ^ N.of_nat fuel) by (apply N.Div0.div_lt_upper_bound; lia).
        lia.
Qed.

Lemma to_dec_fuel n : n < 2 ^ N.of_nat (S (N.to_nat (N.log2 n))).
Proof.
  rewrite Nat2N.inj_succ, N2Nat.id. destruct n as [|p]; [done|].
  apply N.log2_spec. lia.
Qed.

Lemma parseInt_to_dec n : parseInt (to_dec n) = n.
Proof. apply parseInt_dec_digits, to_dec_fuel. Qed.

Lemma dec_digits_digits fuel n acc :
  Forall (fun c => is_digit c = true) acc ->
  Forall (fun c => is_digit c = true) (dec_digits fuel n acc).
Proof.
  revert n acc. induction fuel as [|fuel IH]; intros n acc Hacc; simpl; [done|].
  assert (is_digit (48 + n mod 10) = true) as Hd.
  { unfold is_digit. pose proof (N.mod_lt n 10 ltac:(lia)) as Hm.
    generalize dependent (n mod 10). intros r Hr.
    destruct (N.leb_spec 48 (48 + r)); destruct (N.leb_spec (48 + r) 57);
      (done || lia). }
  destruct (n / 10 =? 0); [by constructor|]. apply IH. by constructor.
Qed.

Lemma to_dec_digits n : Forall (fun c => is_digit c = true) (to_dec n).
Proof. by apply dec_digits_digits. Qed.

Lemma to_dec_nonempty n : (1 <= length (to_dec n))%nat.
Proof.
  unfold to_dec. cbn [dec_digits]. destruct (n / 10 =? 0); [simpl; lia|].
  rewrite dec_digits_app, length_app. simpl. lia.
Qed.

End Decimal.

(** ** The serialized forms, read back *)

Section Checkpoint.

Lemma digit_not_ws c : is_digit c = true -> is_ws c = false.
Proof. intros H. apply is_word_not_ws. unfold is_word. by rewrite H. Qed.

Lemma filled_length s : filled s -> (1 <= length s)%nat.
Proof. intros [H _]. destruct s; simpl; [done|lia]. Qed.

Lemma attr_safe_join ids :
  Forall attr_safe ids -> attr_safe (join (lit ",") ids).
Proof.
  induction 1 as [|x ids Hx Hids IH]; [constructor|].
  destruct ids as [|y ids]; [done|].
  change (join (lit ",") (x :: y :: ids)) with (x ++ lit "," ++ join (lit ",") (y :: ids)).
  apply Forall_app. split; [done|]. apply Forall_app. split; [|done].
  repeat constructor; done.
Qed.

Ltac seg_side :=
  match goal with
  | |- fails_on _ (Seq (Lit (_ :: _)) _) => apply fails_on_lit; reflexivity
  | |- fails_on _ (Seq (Rep false 1 is_ws) _) =>
      apply fails_on_plus; [apply digit_not_ws | apply fails_on_lit; reflexivity]
  | |- fails_on _ (Seq Eol _) => apply fails_on_eol
  | |- Forall _ _ =>
      first [ assumption | by apply attr_safe_not_dq | by apply to_dec_digits
            | by repeat constructor
            | match goal with H : filled _ |- _ => by apply attr_safe_not_dq, H end
            | match goal with H : attr_safe _ |- _ =>
                apply attr_safe_not_dq; exact H end ]
  | |- stops _ _ => reflexivity
  | |- (_ <= _)%nat =>
      first [ by apply filled_length | apply to_dec_nonempty | simpl; lia ]
  end.

Lemma exec_checkpoint_serialized c :
  readable_checkpoint c ->
  f_caps <$> exec CHECKPOINT_RE (serializeCheckpoint c) =
  Some [(7%nat, join (lit ",") (cp_sectionsReviewed c));
        (6%nat, to_dec (cp_highlights c));
        (5%nat, to_dec (cp_questions c));
        (4%nat, to_dec (cp_fixes c));
        (3%nat, cp_note c);
        (2%nat, cp_timestamp c);
        (1%nat, cp_id c)].
Proof.
  intros (Hid & Hts & Hnote & Hsecs & _).
  assert (attr_safe (join (lit ",") (cp_sectionsReviewed c))) as Hjoin.
  { apply attr_safe_join. eapply Forall_impl; [exact Hsecs|]. by intros s [? ?]. }
  unfold CHECKPOINT_RE, seqs, serializeCheckpoint. cbn [fold_right]. cbv zeta.
  rewrite exec_bol_caps, esc_safe by done.
  change (lit "<!-- CHECKPOINT ") with (lit "<!-- CHECKPOINT" ++ [32]).
  change (lit " fixes=") with ([32] ++ lit "fixes=").
  change (lit " questions=") with ([32] ++ lit "questions=").
  change (lit " highlights=") with ([32] ++ lit "highlights=").
  change (lit " ") with [32].
  rewrite <- !app_assoc.
  norm_lit.
  rewrite caps_lit.
  rewrite caps_rep by seg_side. rewrite caps_lit.
  rewrite caps_grp_rep by seg_side. rewrite caps_lit.
  rewrite caps_rep by seg_side. rewrite caps_lit.
  rewrite caps_grp_rep by seg_side. rewrite caps_lit.
  rewrite caps_rep by seg_side. rewrite caps_lit.
  rewrite caps_grp_rep by seg_side. rewrite caps_lit.
  rewrite caps_rep by seg_side. rewrite caps_lit.
  rewrite caps_grp_rep by seg_side.
  rewrite caps_rep by seg_side. rewrite caps_lit.
  rewrite caps_grp_rep by seg_side.
  rewrite caps_rep by seg_side. rewrite caps_lit.
  rewrite caps_grp_rep by seg_side.
  rewrite caps_rep by seg_side. rewrite caps_lit.
  rewrite caps_grp_rep by seg_side.
  change ([DQ] ++ [32; 45; 45; 62]) with ((DQ :: [32; 45; 45; 62]) ++ []).
  rewrite caps_lit.
  by rewrite caps_of_seq, bindc_eol.
Qed.

End Checkpoint.

Section SerializedForms.

Variable clock : Clock.

Lemma exec_lit_none l R s :
  strip_prefix l s = None -> exec (Seq Bol (Seq (Lit l) R)) s = None.
Proof. intros H. rewrite exec_bol. cbn [matches]. by rewrite H. Qed.

Lemma test_lit_false l R s :
  strip_prefix l s = None -> test (Seq Bol (Seq (Lit l) R)) s = false.
Proof. intros H. unfold test. by rewrite exec_lit_none. Qed.

Lemma trim_serializeCheckpoint c : trim (serializeCheckpoint c) = serializeCheckpoint c.
Proof.
  apply trim_fixed; [reflexivity|].
  unfold serializeCheckpoint. cbv zeta. rewrite !last_app. reflexivity.
Qed.

Lemma parse_sections_join secs :
  Forall (fun s => attr_safe s /\ comma_free s) secs ->
  secs = [] \/ join (lit ",") secs <> [] ->
  parse_sections (join (lit ",") secs) = secs.
Proof.
  intros Hall [->|Hne]; [done|]. unfold parse_sections.
  destruct (truthy (join (lit ",") secs)) eqn:E.
  - apply split_join; [by intros ->|].
    eapply Forall_impl; [exact Hall|]. by intros s [_ ?].
  - by apply truthy_false in E.
Qed.

Lemma loop_body_checkpoint c rest st :
  readable_checkpoint c ->
  loop_body clock (serializeCheckpoint c) rest st = (rest, push_checkpoint st c).
Proof.
  intros Hc. unfold loop_body. cbv zeta. rewrite trim_serializeCheckpoint.
  pose proof (exec_checkpoint_serialized c Hc) as Hex.
  assert (exec MEMO_V3_RE (serializeCheckpoint c) = None) as ->.
  { unfold MEMO_V3_RE, seqs. cbn [fold_right]. by apply exec_lit_none. }
  assert (test MEMO_V4_START_RE (serializeCheckpoint c) = false) as ->.
  { unfold MEMO_V4_START_RE, seqs. cbn [fold_right]. by apply test_lit_false. }
  assert (test GATE_START_RE (serializeCheckpoint c) = false) as ->.
  { unfold GATE_START_RE, seqs. cbn [fold_right]. by apply test_lit_false. }
  assert (test CURSOR_START_RE (serializeCheckpoint c) = false) as ->.
  { unfold CURSOR_START_RE, seqs. cbn [fold_right]. by apply test_lit_false. }
  destruct (exec CHECKPOINT_RE (serializeCheckpoint c)) as [m|]; [|done].
  injection Hex as Hcaps. f_equal. f_equal.
  unfold checkpoint_of, group. rewrite Hcaps. cbn [cap Nat.eqb from_option]. unfold id.
  rewrite !parseInt_to_dec.
  destruct Hc as (_ & _ & _ & Hsecs & Hj).
  rewrite parse_sections_join by done. by destruct c.
Qed.

Lemma parse_blockedBy_join ids :
  Forall valid_ref ids -> parse_blockedBy (Some (join (lit ",") ids)) = ids.
Proof.
  intros Hall. unfold parse_blockedBy.
  destruct ids as [|id ids]; [done|].
  assert (truthy (join (lit ",") (id :: ids)) = true) as ->.
  { inversion Hall as [|? ? [[Hne _] _] _]; subst.
    destruct id; [done|]. by destruct ids. }
  rewrite split_join.
  - assert (map trim (id :: ids) = id :: ids) as ->.
    { induction Hall as [|x xs [_ [Hx _]] _ IH]; simpl; [done|]. by rewrite Hx, IH. }
    induction Hall as [|x xs [[Hx _] _] _ IH]; simpl; [done|].
    destruct x; [done|]. simpl. by rewrite IH.
  - done.
  - eapply Forall_impl; [exact Hall|]. by intros x (_ & _ & ?).
Qed.

Lemma valid_refs_safe ids :
  Forall valid_ref ids -> attr_safe (join (lit ",") ids).
Proof.
  intros H. apply attr_safe_join. eapply Forall_impl; [exact H|].
  by intros x [[_ ?] _].
Qed.

Lemma loop_body_gate_lines g rest st :
  valid_gate g ->
  loop_body clock (lit "<!-- GATE") (tail (gate_lines g) ++ rest) st =
  (rest, push_gate st g).
Proof.
  intros (Hid & Hty & Hst & Hby & Hcp & Hdd).
  rewrite loop_body_gate_open by reflexivity.
  change GATE_END_RE with MEMO_V4_END_RE.
  unfold gate_lines. cbn [tail].
  rewrite (esc_safe (gate_canProceedIf g)), (esc_safe (gate_doneDefinition g)) by done.
  pose proof (valid_refs_safe _ Hby) as Hjoin.
  set (kvs := [("id", gate_id g); ("type", gate_type g); ("status", gate_status g);
               ("blockedBy", join (lit ",") (gate_blockedBy g));
               ("canProceedIf", gate_canProceedIf g);
               ("doneDefinition", gate_doneDefinition g)]%string).
  match goal with |- context [take_block _ ?l] =>
    change l with (map (fun '(k, v) => attr_line k v) kvs ++ lit "-->" :: rest) end.
  assert (Forall (fun '(k, v) => wordy k /\ attr_safe v) kvs) as Hkvs
    by (subst kvs; attr_facts).
  assert (Forall (fun kv => lit kv.1 <> lit "__proto__") kvs) as Hkeys
    by (subst kvs; repeat constructor; by vm_compute).
  rewrite take_block_attr_lines, parseAttrs_attr_lines by done.
  f_equal. f_equal. unfold gate_of_attrs, attr. rewrite !attrs_of_lookup.
  subst kvs. cbn [assoc].
  repeat match goal with
    | |- context [str_eqb (lit ?a) (lit ?b)] =>
        let v := eval vm_compute in (str_eqb (lit a) (lit b)) in
        change (str_eqb (lit a) (lit b)) with v
    end.
  cbn [opt_or].
  rewrite (or_else_filled (gate_id g)), (or_else_filled (gate_type g)),
    (or_else_filled (gate_status g)) by done.
  rewrite !or_else_nil, parse_blockedBy_join by done. by destruct g.
Qed.

Lemma loop_body_cursor_lines c rest st :
  valid_cursor c ->
  loop_body clock (lit "<!-- PLAN_CURSOR") (tail (cursor_lines c) ++ rest) st =
  (rest, set_cursor st c).
Proof.
  intros (Hta & Hst & Hna & Hls & Hup).
  rewrite loop_body_cursor_open by reflexivity.
  change CURSOR_END_RE with MEMO_V4_END_RE.
  unfold cursor_lines. cbn [tail].
  rewrite (esc_safe (cursor_nextAction c)) by done.
  set (kvs := [("taskId", cursor_taskId c); ("step", cursor_step c);
               ("nextAction", cursor_nextAction c);
               ("lastSeenHash", cursor_lastSeenHash c);
               ("updatedAt", cursor_updatedAt c)]%string).
  match goal with |- context [take_block _ ?l] =>
    change l with (map (fun '(k, v) => attr_line k v) kvs ++ lit "-->" :: rest) end.
  assert (Forall (fun '(k, v) => wordy k /\ attr_safe v) kvs) as Hkvs
    by (subst kvs; attr_facts).
  assert (Forall (fun kv => lit kv.1 <> lit "__proto__") kvs) as Hkeys
    by (subst kvs; repeat constructor; by vm_compute).
  rewrite take_block_attr_lines, parseAttrs_attr_lines by done.
  f_equal. f_equal. unfold cursor_of_attrs, attr. rewrite !attrs_of_lookup.
  subst kvs. cbn [assoc].
  repeat match goal with
    | |- context [str_eqb (lit ?a) (lit ?b)] =>
        let v := eval vm_compute in (str_eqb (lit a) (lit b)) in
        change (str_eqb (lit a) (lit b)) with v
    end.
  cbn [opt_or].
  rewrite (or_else_filled (cursor_updatedAt c)) by done.
  rewrite !or_else_nil. by destruct c.
Qed.

Lemma plain_blank : plain [].
Proof. reflexivity. Qed.

End SerializedForms.

(** ** The lines of a merged text *)

Section MergedLines.

Lemma merged_as_lines secs :
  secs <> [] ->
  join [NL; NL] secs ++ [NL] = unlines (flat_map (fun s => [s; []]) secs).
Proof.
  induction secs as [|a secs IH]; [done|]. intros _.
  destruct secs as [|b secs].
  - reflexivity.
  - change (join [NL; NL] (a :: b :: secs)) with (a ++ [NL; NL] ++ join [NL; NL] (b :: secs)).
    rewrite <- !app_assoc, IH by done.
    change (flat_map (fun s => [s; []]) (a :: b :: secs))
      with (a :: [] :: b :: [] :: flat_map (fun s => [s; []]) secs).
    done.
Qed.

Lemma lines_of_merged secs :
  secs <> [] ->
  lines_of (join [NL; NL] secs ++ [NL]) = flat_map (fun s => lines_of s ++ [[]]) secs.
Proof.
  intros Hne. rewrite merged_as_lines by done. unfold lines_of, unlines.
  rewrite split_join_concat by (by destruct secs).
  clear Hne. induction secs as [|a secs IH]; [done|].
  simpl. rewrite IH. by rewrite <- app_assoc.
Qed.

Lemma nl_free_lit_app a b : nl_free a -> nl_free b -> nl_free (a ++ b).
Proof. intros. by apply Forall_app. Qed.

Lemma nl_free_attr_line key v : nl_free (lit key) -> nl_free v -> nl_free (attr_line key v).
Proof.
  intros Hk Hv. unfold attr_line, attr_head, nl_free in *.
  rewrite !Forall_app. repeat split; try done; by repeat constructor.
Qed.

Lemma lines_of_line l : nl_free l -> lines_of l = [l].
Proof. apply split_on_no_sep. Qed.

Ltac nl_facts :=
  repeat match goal with
    | |- Forall nl_free (_ :: _) => constructor
    | |- Forall nl_free [] => constructor
    | |- nl_free (attr_line _ _) => apply nl_free_attr_line
    | |- nl_free (lit _) => by (vm_compute; repeat constructor)
    | |- nl_free (esc ?s) => rewrite (esc_safe s)
    | H : filled ?s |- nl_free ?s => exact (attr_safe_nl _ (proj2 H))
    | H : attr_safe ?s |- nl_free ?s => exact (attr_safe_nl _ H)
    | H : filled ?s |- attr_safe ?s => exact (proj2 H)
    | |- _ => assumption
    end.

Lemma lines_of_serializeMemoV2 m :
  valid_memo m -> lines_of (serializeMemoV2 m) = memo_lines m.
Proof.
  intros (Hid & Hty & Hst & How & Hso & Hco & Hte & Hat & Han & Hcr & Hup).
  unfold serializeMemoV2. apply lines_of_unlines; [done|].
  unfold memo_lines. nl_facts.
Qed.

Lemma lines_of_serializeGate g :
  valid_gate g -> lines_of (serializeGate g) = gate_lines g.
Proof.
  intros (Hid & Hty & Hst & Hby & Hcp & Hdd).
  pose proof (valid_refs_safe _ Hby) as Hjoin.
  unfold serializeGate. apply lines_of_unlines; [done|].
  unfold gate_lines. nl_facts.
Qed.

Lemma lines_of_serializeCursor c :
  valid_cursor c -> lines_of (serializeCursor c) = cursor_lines c.
Proof.
  intros (Hta & Hst & Hna & Hls & Hup).
  unfold serializeCursor. apply lines_of_unlines; [done|].
  unfold cursor_lines. nl_facts.
Qed.

Lemma digits_nl_free s : Forall (fun c => is_digit c = true) s -> nl_free s.
Proof.
  intros H. eapply Forall_impl; [exact H|]. intros c Hc ->. done.
Qed.

Lemma lines_of_serializeCheckpoint c :
  readable_checkpoint c -> lines_of (serializeCheckpoint c) = [serializeCheckpoint c].
Proof.
  intros (Hid & Hts & Hnote & Hsecs & _). apply lines_of_line.
  assert (attr_safe (join (lit ",") (cp_sectionsReviewed c))) as Hjoin.
  { apply attr_safe_join. eapply Forall_impl; [exact Hsecs|]. by intros s [? ?]. }
  unfold serializeCheckpoint, attr_head. cbv zeta. rewrite esc_safe by done.
  unfold nl_free. rewrite !Forall_app.
  repeat split;
    first [ by (vm_compute; repeat constructor)
          | by apply digits_nl_free, to_dec_digits
          | by apply attr_safe_nl
          | by apply attr_safe_nl, Hid
          | by apply attr_safe_nl, Hts ].
Qed.

End MergedLines.

(** ** The gate evaluator *)

Section GateEvaluator.

Lemma is_open_true m : is_open m = true <-> memo_status m = s_open.
Proof. apply str_eqb_true. Qed.

Lemma is_open_false m : is_open m = false <-> memo_status m <> s_open.
Proof. apply str_eqb_false. Qed.

(** [find_memo] returns the memo the id refers to. *)
Lemma find_memo_Some memos id m :
  find_memo memos id = Some m <-> refers_to memos id m.
Proof.
  unfold find_memo, refers_to. induction memos as [|x memos IH]; simpl.
  - split; [discriminate|]. intros (pre & post & H & _). by destruct pre.
  - destruct (str_eqb (memo_id x) id) eqn:E.
    + apply str_eqb_true in E. split.
      * intros [= ->]. exists [], memos. by repeat split.
      * intros (pre & post & H & Hid & Hpre). destruct pre as [|p pre].
        -- simpl in H. congruence.
        -- simpl in H. injection H as -> _. inversion Hpre; subst. congruence.
    + apply str_eqb_false in E. rewrite IH. split.
      * intros (pre & post & -> & Hid & Hpre). exists (x :: pre), post.
        repeat split; [done|]. by constructor.
      * intros (pre & post & H & Hid & Hpre). destruct pre as [|p pre].
        -- simpl in H. congruence.
        -- simpl in H. injection H as -> ->. inversion Hpre; subst.
           by exists pre, post.
Qed.

Lemma find_memo_None memos id :
  find_memo memos id = None <-> Forall (fun m => memo_id m <> id) memos.
Proof.
  unfold find_memo. induction memos as [|x memos IH]; simpl.
  - split; [constructor|done].
  - destruct (str_eqb (memo_id x) id) eqn:E.
    + apply str_eqb_true in E. split; [discriminate|].
      intros H. inversion H; subst. congruence.
    + apply str_eqb_false in E. rewrite IH. split.
      * intros H. by constructor.
      * intros H. by inversion H.
Qed.

(** The list of blocking memos is non-empty iff a blocker is open. *)
Lemma blocking_nonempty gate memos :
  List.filter is_blocking (map (find_memo memos) (gate_blockedBy gate)) <> []
  <-> has_open_blocker gate memos.
Proof.
  unfold has_open_blocker. generalize (gate_blockedBy gate) as ids.
  induction ids as [|id ids IH]; simpl.
  - split; [done|]. intros (? & ? & [] & _).
  - destruct (is_blocking (find_memo memos id)) eqn:E.
    + split; [intros _|done].
      destruct (find_memo memos id) as [m|] eqn:F; [|done]. simpl in E.
      exists id, m. split; [by left|]. split; [by apply find_memo_Some|].
      by apply is_open_true.
    + rewrite IH. split.
      * intros (id' & m & Hin & Href & Hop). exists id', m. split; [by right|done].
      * intros (id' & m & [->|Hin] & Href & Hop).
        -- apply find_memo_Some in Href. rewrite Href in E. simpl in E.
           apply is_open_true in Hop. congruence.
        -- by exists id', m.
Qed.

Lemma evaluateGate_blocked_iff gate memos :
  evaluateGate gate memos = Blocked <-> has_open_blocker gate memos.
Proof.
  rewrite <- blocking_nonempty. unfold evaluateGate.
  destruct (gate_blockedBy gate) as [|id ids] eqn:Eids.
  - simpl. split; [|done]. by destruct (existsb is_open memos).
  - change (0 <? length (id :: ids))%nat with true. cbv iota.
    set (blocking := List.filter _ _).
    destruct blocking as [|b bs]; simpl.
    + split; [|done]. by destruct (existsb is_open memos).
    + split; done.
Qed.

Lemma evaluateGate_unblocked gate memos :
  ~ has_open_blocker gate memos ->
  evaluateGate gate memos = if existsb is_open memos then Proceed else Done.
Proof.
  intros Hnb. rewrite <- blocking_nonempty in Hnb. unfold evaluateGate.
  assert (List.filter is_blocking (map (find_memo memos) (gate_blockedBy gate)) = []) as ->.
  { destruct (List.filter _ _); [done|]. exfalso. by apply Hnb. }
  simpl. destruct (0 <? length (gate_blockedBy gate))%nat;
    by destruct (existsb is_open memos).
Qed.

Lemma existsb_open_false memos :
  existsb is_open memos = false <-> Forall (fun m => memo_status m <> s_open) memos.
Proof.
  induction memos as [|m memos IH]; simpl; [split; [constructor|done]|].
  rewrite orb_false_iff, IH, is_open_false. split.
  - intros [? ?]. by constructor.
  - intros H. by inversion H.
Qed.

Lemma existsb_open_true memos :
  existsb is_open memos = true <-> Exists (fun m => memo_status m = s_open) memos.
Proof.
  induction memos as [|m memos IH]; simpl.
  - split; [done|]. intros H. inversion H.
  - rewrite orb_true_iff, IH, is_open_true. split.
    + intros [?|?]; [by left|by right].
    + intros H. inversion H; subst; [by left|by right].
Qed.

End GateEvaluator.

(** C2 (as amended).  [evaluateGate] is a total function with three possible
    results.  It returns [Blocked] exactly when some id of [blockedBy] refers
    to an open memo, where an id refers to the first memo of the list that
    carries it; otherwise it returns [Done] when no memo of the whole list is
    open, and [Proceed] when some memo is. *)
Theorem evaluateGate_rule (gate : Gate) (memos : list MemoV2) :
  (has_open_blocker gate memos -> evaluateGate gate memos = Blocked) /\
  (~ has_open_blocker gate memos ->
   Forall (fun m => memo_status m <> s_open) memos ->
   evaluateGate gate memos = Done) /\
  (~ has_open_blocker gate memos ->
   Exists (fun m => memo_status m = s_open) memos ->
   evaluateGate gate memos = Proceed).
Proof.
  split; [apply evaluateGate_blocked_iff|].
  split; intros Hnb H; rewrite (evaluateGate_unblocked _ _ Hnb).
  - apply existsb_open_false in H. by rewrite H.
  - apply existsb_open_true in H. by rewrite H.
Qed.

Lemma evaluateGate_rule_witness :
  evaluateGate gate_m1 [memo_with (lit "m1") s_open] = Blocked /\
  evaluateGate gate_m1 [memo_with (lit "m1") s_done] = Done /\
  evaluateGate gate_m1 [memo_with (lit "m1") s_done; memo_with (lit "m2") s_open] = Proceed.
Proof.
  split; [|split].
  - apply (proj1 (evaluateGate_rule gate_m1 [memo_with (lit "m1") s_open])).
    exists (lit "m1"), (memo_with (lit "m1") s_open).
    split; [by left|]. split; [|reflexivity].
    exists [], []. repeat split. constructor.
  - apply (proj1 (proj2 (evaluateGate_rule gate_m1 [memo_with (lit "m1") s_done]))).
    + intros H. apply evaluateGate_blocked_iff in H. vm_compute in H. discriminate.
    + repeat constructor. vm_compute. discriminate.
  - apply (proj2 (proj2 (evaluateGate_rule gate_m1
             [memo_with (lit "m1") s_done; memo_with (lit "m2") s_open]))).
    + intros H. apply evaluateGate_blocked_iff in H. vm_compute in H. discriminate.
    + right. left. reflexivity.
Defined.

(** C2 as stated fails when two memos share an id: the gate lists [m1], a
    memo with id [m1] and status open exists in the list, yet the lookup
    finds the earlier, closed memo with the same id and the result is
    [Proceed]. *)
Lemma evaluateGate_duplicate_id_counterexample :
  let memos := [memo_with (lit "m1") s_done; memo_with (lit "m1") s_open] in
  gate_blockedBy gate_m1 <> [] /\
  (exists m, In m memos /\ In (memo_id m) (gate_blockedBy gate_m1) /\
             memo_status m = s_open) /\
  evaluateGate gate_m1 memos = Proceed.
Proof.
  split; [discriminate|]. split; [|reflexivity].
  exists (memo_with (lit "m1") s_open). split; [right; by left|].
  split; [by left|reflexivity].
Qed.

(** C7.  Gate monotonicity: when a gate evaluates to [Blocked] and every
    open memo listed in its [blockedBy] takes a status other than open, all
    other memos and the gate being unchanged, the gate evaluates to
    [Proceed] or [Done], never to [Blocked]. *)
Theorem evaluateGate_monotone (gate : Gate) (memos memos' : list MemoV2) :
  evaluateGate gate memos = Blocked ->
  Forall2 (blocker_resolved gate) memos memos' ->
  evaluateGate gate memos' = Proceed \/ evaluateGate gate memos' = Done.
Proof.
  intros _ Hres.
  assert (~ has_open_blocker gate memos') as Hnb.
  { intros (id & m' & Hin & (pre & post & -> & Hid & _) & Hop).
    apply Forall2_app_inv_r in Hres as (l1 & l2 & _ & H2 & _).
    inversion H2 as [|m ? ? ? Hm _]; subst. unfold blocker_resolved in Hm.
    destruct (is_listed gate m && is_open m) eqn:E.
    - destruct Hm as (s & Hs & ->). simpl in Hop. congruence.
    - subst m'. apply andb_false_iff in E as [E|E].
      + unfold is_listed in E. rewrite <- not_true_iff_false in E. apply E.
        apply existsb_exists. exists (memo_id m). split; [done|apply str_eqb_refl].
      + apply is_open_false in E. congruence. }
  rewrite (evaluateGate_unblocked _ _ Hnb).
  destruct (existsb is_open memos'); [by left|by right].
Qed.

Lemma evaluateGate_monotone_witness :
  evaluateGate gate_m1 [memo_with (lit "m1") s_done; memo_with (lit "m2") s_open] = Proceed
  \/ evaluateGate gate_m1 [memo_with (lit "m1") s_done; memo_with (lit "m2") s_open] = Done.
Proof.
  apply (evaluateGate_monotone gate_m1
           [memo_with (lit "m1") s_open; memo_with (lit "m2") s_open]).
  - reflexivity.
  - constructor; [|constructor; [|constructor]].
    + exists s_done. split; [discriminate|reflexivity].
    + reflexivity.
Defined.

(** C10.  Dangling blocker references are ignored: when no id of
    [blockedBy] is carried by a memo of the list, the result is never
    [Blocked]; it is [Done] when no memo is open and [Proceed] otherwise,
    the same as for the gate with an empty [blockedBy]. *)
Theorem evaluateGate_dangling (gate : Gate) (memos : list MemoV2) :
  all_dangling gate memos ->
  evaluateGate gate memos <> Blocked /\
  (Forall (fun m => memo_status m <> s_open) memos -> evaluateGate gate memos = Done) /\
  (Exists (fun m => memo_status m = s_open) memos -> evaluateGate gate memos = Proceed) /\
  evaluateGate gate memos = evaluateGate (with_blockedBy gate []) memos.
Proof.
  intros Hd.
  assert (~ has_open_blocker gate memos) as Hnb.
  { intros (id & m & Hin & (pre & post & -> & Hid & _) & _).
    apply (Hd id m Hin); [|done]. apply in_or_app. right. by left. }
  assert (~ has_open_blocker (with_blockedBy gate []) memos) as Hnb'.
  { intros (id & m & [] & _). }
  rewrite (evaluateGate_unblocked _ _ Hnb), (evaluateGate_unblocked _ _ Hnb').
  split; [by destruct (existsb is_open memos)|].
  split; [|split; [|done]].
  - intros H. apply existsb_open_false in H. by rewrite H.
  - intros H. apply existsb_open_true in H. by rewrite H.
Qed.

Lemma evaluateGate_dangling_witness :
  evaluateGate gate_ghost [memo_with (lit "m1") s_open] <> Blocked.
Proof.
  apply (evaluateGate_dangling gate_ghost [memo_with (lit "m1") s_open]).
  intros id m [<-|[]] [<-|[]]. discriminate.
Defined.

(** ** Anchor resolution *)

Section AnchorParsing.

Lemma strip_prefix_head_ne a l c rest :
  (a =? c) = false -> strip_prefix (a :: l) (c :: rest) = None.
Proof. intros H. simpl. by rewrite H. Qed.

Lemma digit_not (a c : N) :
  is_digit c = true -> is_digit a = false -> (a =? c) = false.
Proof. intros Hc Ha. destruct (N.eqb_spec a c) as [->|]; congruence. Qed.

(** What follows the line number: a bar, the hash, the end. *)
Lemma anchor_tail prev s cs :
  caps_of (Seq (Lit [124]) (Seq (Grp 2 (plus is_dot)) (Seq Eol (Lit [])))) prev s cs =
  match strip_prefix [124] s with
  | Some h => if truthy h && forallb is_dot h then [(2%nat, h) :: cs] else []
  | None => []
  end.
Proof.
  rewrite caps_of_seq, bindc_lit. destruct (strip_prefix [124] s) as [h|]; [|done].
  rewrite caps_of_seq, bindc_grp, bindc_rep_greedy.
  2:{ intros. by rewrite caps_of_seq, bindc_eol. }
  rewrite <- truthy_length, caps_of_seq, bindc_eol.
  destruct (forallb is_dot h) eqn:E.
  - rewrite (take_while_forallb _ _ E).
    apply drop_while_nil_iff in E. rewrite E. by destruct (truthy h).
  - rewrite andb_false_r. destruct (drop_while is_dot h) eqn:E'.
    + apply drop_while_nil_iff in E'. congruence.
    + by destruct (truthy _).
Qed.

Lemma exec_anchor s :
  f_caps <$> exec ANCHOR_RE s =
  match parse_anchor s with
  | Some (_, h) =>
      if truthy h && forallb is_dot h
      then Some [(2%nat, h); (1%nat, take_while is_digit (drop 1 s))]
      else None
  | None => None
  end.
Proof.
  unfold ANCHOR_RE, parse_anchor, seqs. cbn [fold_right]. norm_lit. rewrite exec_bol_caps.
  rewrite caps_of_seq, bindc_lit.
  destruct (strip_prefix [76] s) as [s0|] eqn:E0; [|done].
  apply strip_prefix_Some in E0 as ->. cbn [drop app].
  rewrite caps_of_seq, bindc_grp, bindc_rep_greedy.
  2:{ intros run p' c rest Hc. rewrite caps_of_seq, bindc_opt, bindc_seq, bindc_lit.
      rewrite strip_prefix_head_ne by (by apply digit_not).
      rewrite caps_of_seq, bindc_lit.
      by rewrite strip_prefix_head_ne by (by apply digit_not). }
  rewrite <- truthy_length.
  generalize (prev_after (prev_after None [76]) (take_while is_digit s0)) as prev.
  change (drop 0 s0) with s0.
  generalize (take_while is_digit s0) as n. generalize (drop_while is_digit s0) as s1.
  intros s1 n prev.
  destruct (truthy n) eqn:En.
  2:{ cbn [head]. by match goal with |- context [strip_prefix [124] ?x] =>
                  destruct (strip_prefix [124] x) end. }
  rewrite caps_of_seq, bindc_opt, bindc_seq, bindc_lit.
  destruct (strip_prefix [58; 76] s1) as [s'|] eqn:E1.
  - (* a range: the bar cannot follow the line number directly *)
    assert (caps_of (Seq (Lit [124]) (Seq (Grp 2 (plus is_dot)) (Seq Eol (Lit []))))
              prev s1 [(1%nat, n)] = []) as ->.
    { rewrite anchor_tail. apply strip_prefix_Some in E1 as ->. reflexivity. }
    rewrite app_nil_r, bindc_seq, bindc_rep_greedy.
    2:{ intros run p' c rest Hc. rewrite bindc_nil, anchor_tail. by rewrite strip_prefix_head_ne by (by apply digit_not). }
    rewrite <- truthy_length. destruct (truthy (take_while is_digit s')) eqn:E2.
    + rewrite bindc_nil, anchor_tail.
      destruct (strip_prefix [124] _) as [h|]; [|done].
      by destruct (truthy h && forallb is_dot h).
    + apply strip_prefix_Some in E1. rewrite E1. reflexivity.
  - cbn [app]. rewrite anchor_tail. destruct (strip_prefix [124] s1) as [h|]; [|done].
    by destruct (truthy h && forallb is_dot h).
Qed.

(** *** hashLine yields eight hexadecimal digits *)

Lemma hex_digit_dot d : d < 16 -> is_dot (hex_digit d) = true.
Proof.
  intros Hd. unfold hex_digit, is_dot, is_line_terminator.
  destruct (N.ltb_spec d 10);
    repeat match goal with
      | |- context [?a =? ?b] => destruct (N.eqb_spec a b); [lia|]
      end; reflexivity.
Qed.

Lemma hex_digits_dot fuel n acc :
  forallb is_dot acc = true -> forallb is_dot (hex_digits fuel n acc) = true.
Proof.
  revert n acc. induction fuel as [|fuel IH]; intros n acc Hacc; simpl; [done|].
  assert (forallb is_dot (hex_digit (n mod 16) :: acc) = true) as H.
  { simpl. rewrite Hacc, hex_digit_dot; [done|]. apply N.mod_lt. lia. }
  destruct (n / 16 =? 0); [done|]. by apply IH.
Qed.

Lemma hashLine_dot line : forallb is_dot (hashLine line) = true.
Proof.
  unfold hashLine, slice0, padStart. apply forallb_Forall.
  apply Forall_take, Forall_app. split.
  - apply Forall_forall. intros c Hc. apply list_elem_of_In, repeat_spec in Hc. by subst.
  - apply forallb_Forall. by apply hex_digits_dot.
Qed.

Lemma hashLine_length line : length (hashLine line) = 8%nat.
Proof.
  unfold hashLine, slice0, padStart.
  rewrite length_take, length_app, repeat_length. lia.
Qed.

Lemma hashLine_truthy line : truthy (hashLine line) = true.
Proof.
  pose proof (hashLine_length line) as H. by destruct (hashLine line).
Qed.

(** *** The code against the resolver of the specification *)

Lemma hash_at_matches lines h d : hash_at lines h d = hash_matches lines h d.
Proof.
  unfold hash_at, hash_matches, line_at.
  destruct (Z.leb_spec 0 d); simpl; [|done].
  destruct (Z.ltb_spec d (Z.of_nat (length lines))); simpl.
  - destruct (lines !! Z.to_nat d) as [l|] eqn:E.
    + by rewrite (nth_lookup_Some _ _ _ _ E).
    + apply lookup_ge_None in E. lia.
  - rewrite (proj2 (lookup_ge_None lines (Z.to_nat d))); [done|lia].
Qed.

Lemma probe_find lines h p ds :
  probe lines h p ds =
  List.find (hash_matches lines h) (flat_map (fun d => [p - d; p + d]%Z) ds).
Proof.
  induction ds as [|d ds IH]; simpl; [done|].
  rewrite !hash_at_matches.
  destruct (hash_matches lines h (p - d)); [done|].
  by destruct (hash_matches lines h (p + d)).
Qed.

Lemma find_none_hash lines h cands :
  truthy h && forallb is_dot h = false ->
  List.find (hash_matches lines h) cands = None.
Proof.
  intros Hh. induction cands as [|c cands IH]; simpl; [done|].
  assert (hash_matches lines h c = false) as ->; [|done].
  unfold hash_matches. destruct (line_at lines c) as [l|]; [|done].
  apply str_eqb_false. intros <-.
  by rewrite hashLine_truthy, hashLine_dot in Hh.
Qed.

Lemma find_by_anchor_spec lines memo :
  find_by_anchor lines memo =
  match parse_anchor (memo_anchor memo) with
  | Some (n, h) => List.find (hash_matches lines h) (candidates n)
  | None => None
  end.
Proof.
  unfold find_by_anchor. destruct (truthy (memo_anchor memo)) eqn:Et.
  2:{ apply truthy_false in Et. by rewrite Et. }
  pose proof (exec_anchor (memo_anchor memo)) as Hex.
  assert (forall n h, parse_anchor (memo_anchor memo) = Some (n, h) ->
            n = parseInt (take_while is_digit (drop 1 (memo_anchor memo)))) as Hn.
  { intros n h. unfold parse_anchor. norm_lit.
    destruct (strip_prefix [76] _) as [s0|] eqn:E0; [|done].
    apply strip_prefix_Some in E0 as ->. cbn [drop app].
    destruct (strip_prefix [124] _); [|done].
    destruct (truthy (take_while is_digit s0)); [|done]. by intros [= <- _]. }
  destruct (parse_anchor (memo_anchor memo)) as [[n h]|].
  - specialize (Hn n h eq_refl). destruct (truthy h && forallb is_dot h) eqn:Eh.
    + destruct (exec ANCHOR_RE (memo_anchor memo)) as [m|]; [|done].
      injection Hex as Hcaps. unfold group. rewrite Hcaps. cbn [cap Nat.eqb from_option]. unfold id.
      rewrite <- Hn. unfold candidates. cbn [List.find].
      rewrite hash_at_matches, probe_find.
      by destruct (hash_matches lines h (Z.of_N n - 1)).
    + destruct (exec ANCHOR_RE (memo_anchor memo)); [done|].
      symmetry. by apply find_none_hash.
  - by destruct (exec ANCHOR_RE (memo_anchor memo)).
Qed.

Lemma first_including_index needle lines i :
  first_including needle lines i =
  (fun k => (i + Z.of_nat k)%Z) <$> index_including needle lines.
Proof.
  revert i. induction lines as [|l lines IH]; intros i; simpl; [done|].
  destruct (includes needle l); simpl; [f_equal; lia|].
  rewrite IH. destruct (index_including needle lines); simpl; [f_equal; lia|done].
Qed.

End AnchorParsing.

(** C4 (as amended).  [findMemoAnchorLine] is the anchor resolver of the
    specification, first success wins: (1) the anchor is read as
    L<n>(:L<m>)?|<hash> and line n-1 is returned when it is in range and has
    the stored hash; (2) otherwise the lines n-1-d, n-1+d are tried for
    d = 1..10 in this order; (3) otherwise, when anchorText is non-empty, the
    first line containing the whitespace-trimmed anchorText is returned;
    (4) otherwise the anchor is unresolved (-1). *)
Theorem findMemoAnchorLine_resolves (lines : list jsstring) (memo : MemoV2) :
  findMemoAnchorLine lines memo =
  or_minus_one (resolveAnchor trim (memo_anchor memo) (memo_anchorText memo) lines).
Proof.
  unfold findMemoAnchorLine, resolveAnchor. rewrite find_by_anchor_spec.
  destruct (match parse_anchor (memo_anchor memo) with
            | Some (n, h) => List.find (hash_matches lines h) (candidates n)
            | None => None
            end) as [d|]; [done|].
  unfold find_by_text. destruct (truthy (memo_anchorText memo)); [|done].
  rewrite first_including_index.
  by destruct (index_including _ lines).
Qed.

(** C4 as stated fails: the needle of step (3) is the trimmed anchorText,
    not anchorText itself.  With anchorText [ foo ] (spaces around) and the
    single line [foo], the code resolves to line 0 although no line contains
    the anchorText. *)
Lemma findMemoAnchorLine_untrimmed_counterexample :
  let memo := mkMemo (lit "m1") s_fix s_open s_human s_generic s_red [] (lit " foo ") [] [] [] in
  let lines := [lit "foo"] in
  findMemoAnchorLine lines memo = 0%Z /\
  resolveAnchor (fun anchorText => anchorText)
                (memo_anchor memo) (memo_anchorText memo) lines = None.
Proof. split; reflexivity. Qed.

(** ** Anchor stability under insertion *)

Section Probe.

Variables (lines : list jsstring) (h : jsstring).

(** The probe returns the nearest line with the stored hash, the line above
    before the line below. *)
Lemma find_candidates (n : N) (D : Z) :
  (0 <= D <= 10)%Z ->
  hash_matches lines h (Z.of_N n - 1 + D) = true ->
  (forall c, (Z.of_N n - 1 - D <= c < Z.of_N n - 1 + D)%Z ->
             hash_matches lines h c = false) ->
  List.find (hash_matches lines h) (candidates n) = Some (Z.of_N n - 1 + D)%Z.
Proof.
  intros HD Hat Hbefore. unfold candidates, deltas_1_10.
  set (P := (Z.of_N n - 1)%Z) in *.
  assert (D = 0 \/ D = 1 \/ D = 2 \/ D = 3 \/ D = 4 \/ D = 5 \/ D = 6 \/ D = 7
          \/ D = 8 \/ D = 9 \/ D = 10)%Z as Hcases by lia.
  cbn [flat_map app List.find].
  repeat destruct Hcases as [->|Hcases]; try subst D;
    repeat first
      [ rewrite Hat; reflexivity
      | rewrite Z.add_0_r in Hat; rewrite Hat; f_equal; lia
      | rewrite (Hbefore _) by lia ].
Qed.

End Probe.

Lemma insert_lines_lookup (k p : nat) (ins lines : list jsstring) :
  (k <= p)%nat ->
  insert_lines k ins lines !! (p + length ins)%nat = lines !! p.
Proof.
  intros Hk. unfold insert_lines.
  destruct (Nat.le_gt_cases (length lines) p) as [Hge|Hlt].
  - rewrite (proj2 (lookup_ge_None lines p)) by done. apply lookup_ge_None.
    rewrite !length_app, length_take, length_drop. lia.
  - rewrite lookup_app_r by (rewrite length_take; lia).
    rewrite lookup_app_r by (rewrite length_take; lia).
    rewrite lookup_drop, length_take. f_equal. lia.
Qed.

(** C5 (as amended).  A memo whose machine anchor points at line [p] of the
    body with the hash of that line; [N] lines are inserted before that
    line, with [N <= 10].  If in the edited body no line nearer to the
    stored position than the shifted line, nor the line [N] above it, has
    the stored hash, then the hash probe resolves the anchor to the shifted
    line [p + N]. *)
Theorem anchor_stable_under_insertion
    (lines ins : list jsstring) (memo : MemoV2) (p k : nat) :
  let h := hashLine (nth p lines []) in
  let N := length ins in
  (p < length lines)%nat ->
  (k <= p)%nat ->
  parse_anchor (memo_anchor memo) = Some (N.of_nat p + 1, h) ->
  (N <= 10)%nat ->
  (forall j l, insert_lines k ins lines !! j = Some l ->
               (p - N <= j < p + N)%nat -> hashLine l <> h) ->
  find_by_anchor (insert_lines k ins lines) memo = Some (Z.of_nat (p + N)) /\
  findMemoAnchorLine (insert_lines k ins lines) memo = Z.of_nat (p + N).
Proof.
  intros h N Hp Hk Hparse HN Hwin.
  assert (find_by_anchor (insert_lines k ins lines) memo = Some (Z.of_nat (p + N))) as H.
  { rewrite find_by_anchor_spec, Hparse.
    rewrite (find_candidates _ _ _ (Z.of_nat N)).
    - f_equal. lia.
    - lia.
    - unfold hash_matches, line_at.
      replace (Z.of_N (N.of_nat p + 1) - 1 + Z.of_nat N)%Z with (Z.of_nat (p + N)) by lia.
      destruct (Z.leb_spec 0 (Z.of_nat (p + N))); [|lia].
      rewrite Nat2Z.id. unfold N. rewrite insert_lines_lookup by done.
      destruct (lines !! p) as [l|] eqn:El.
      + unfold h. rewrite (nth_lookup_Some _ _ _ _ El). apply str_eqb_refl.
      + apply lookup_ge_None in El. lia.
    - intros c Hc. unfold hash_matches, line_at.
      destruct (Z.leb_spec 0 c); [|done].
      destruct (insert_lines k ins lines !! Z.to_nat c) as [l|] eqn:El; [|done].
      apply str_eqb_false. apply (Hwin (Z.to_nat c)); [done|lia]. }
  split; [done|]. unfold findMemoAnchorLine. by rewrite H.
Qed.

Lemma anchor_stable_under_insertion_witness :
  findMemoAnchorLine (insert_lines 0 [lit "new"] two_lines)
                     (memo_anchored (anchor_of two_lines 1)) = 2%Z.
Proof.
  pose proof (anchor_stable_under_insertion two_lines [lit "new"]
                (memo_anchored (anchor_of two_lines 1)) 1 0) as H.
  cbv zeta in H. apply H.
  - simpl. lia.
  - lia.
  - reflexivity.
  - simpl. lia.
  - intros j l Hl Hj. destruct j as [|[|j]]; [| |simpl in Hj; lia];
      simpl in Hl; injection Hl as <-; vm_compute; discriminate.
Defined.

(** C5 as stated fails for more than ten inserted lines: the probe stops at
    distance 10.  Eleven lines [y] are inserted before the anchored line
    [x]; none of them hashes like [x], the anchor is well formed and its
    hash matches, yet the hash probe finds nothing and the memo is
    unresolved. *)
Lemma anchor_lost_after_eleven_insertions :
  let lines := [lit "x"] in
  let memo := memo_anchored (anchor_of lines 0) in
  parse_anchor (memo_anchor memo) = Some (1, hashLine (lit "x")) /\
  Forall (fun l => hashLine l <> hashLine (lit "x")) eleven_lines /\
  insert_lines 0 eleven_lines lines !! 11%nat = Some (lit "x") /\
  find_by_anchor (insert_lines 0 eleven_lines lines) memo = None /\
  findMemoAnchorLine (insert_lines 0 eleven_lines lines) memo = (-1)%Z.
Proof.
  repeat split; try reflexivity.
  unfold eleven_lines. simpl. repeat constructor; vm_compute; discriminate.
Qed.

(** ** The merger *)

Section Reinsert.

Variable lines : list jsstring.

Local Abbreviation places := (places lines).

Lemma places_init : places [] (∅, []).
Proof. split; [|done]. intros i. simpl. rewrite lookup_empty. by destruct (0 <=? i)%Z. Qed.

Lemma places_step done acc memo :
  places done acc -> places (done ++ [memo]) (place_memo lines acc memo).
Proof.
  destruct acc as [M U]. unfold places. intros [HM HU]. cbn [fst snd] in *.
  unfold place_memo, placed_at, unresolved in *.
  destruct (Z.leb_spec 0 (findMemoAnchorLine lines memo)) as [Hge|Hlt];
    split; cbn [fst snd].
  - intros i. rewrite List.filter_app. cbn [List.filter].
    destruct (Z.eqb_spec (findMemoAnchorLine lines memo) i) as [<-|Hne].
    + rewrite lookup_insert_eq. cbn [default from_option]. unfold id. rewrite HM.
      by destruct (Z.leb_spec 0 (findMemoAnchorLine lines memo)); [|lia].
    + rewrite lookup_insert_ne by done. by rewrite HM, app_nil_r.
  - rewrite List.filter_app. cbn [List.filter].
    destruct (Z.ltb_spec (findMemoAnchorLine lines memo) 0); [lia|].
    by rewrite app_nil_r.
  - intros i. rewrite List.filter_app. cbn [List.filter]. rewrite HM.
    destruct (Z.eqb_spec (findMemoAnchorLine lines memo) i) as [<-|Hne].
    + destruct (Z.leb_spec 0 (findMemoAnchorLine lines memo)); [lia|done].
    + by rewrite app_nil_r.
  - rewrite List.filter_app. cbn [List.filter].
    destruct (Z.ltb_spec (findMemoAnchorLine lines memo) 0); [|lia].
    by rewrite HU.
Qed.

Lemma places_fold memos done acc :
  places done acc ->
  places (done ++ memos) (fold_left (place_memo lines) memos acc).
Proof.
  revert done acc. induction memos as [|m memos IH]; intros done acc H; simpl.
  - by rewrite app_nil_r.
  - replace (done ++ m :: memos) with ((done ++ [m]) ++ memos)
      by (by rewrite <- app_assoc).
    apply IH. by apply places_step.
Qed.

End Reinsert.

Lemma emit_lines_spec (M : gmap Z (list MemoV2)) ls i0 :
  emit_lines M ls i0 =
  concat (imap (fun i l => l :: map serializeMemoV2
                                  (default [] (M !! (i0 + Z.of_nat i)%Z))) ls).
Proof.
  revert i0. induction ls as [|l ls IH]; intros i0; simpl; [done|].
  rewrite Z.add_0_r. f_equal. f_equal.
  - by destruct (M !! i0).
  - rewrite IH. f_equal. apply imap_ext. intros i x _. simpl.
    do 4 f_equal. lia.
Qed.

(** [reinsertMemos] emits each body line followed by the memos resolved to
    it, then the unresolved memos. *)
Lemma reinsertMemos_spec body memos :
  reinsertMemos body memos = body_with_memos body memos.
Proof.
  unfold reinsertMemos, body_with_memos.
  destruct memos as [|m memos].
  - unfold unresolved, placed_at. simpl. rewrite app_nil_r.
    rewrite <- (unlines_lines_of body) at 1. f_equal.
    induction (lines_of body) as [|l ls IH]; simpl; [done|].
    f_equal. rewrite IH at 1. done.
  - pose proof (places_fold (lines_of body) (m :: memos) [] (∅, []) (places_init _)) as H.
    destruct (fold_left _ (m :: memos) (∅, [])) as [M U].
    destruct H as [HM HU]. cbn [fst snd app] in HM, HU. rewrite emit_lines_spec, HU.
    f_equal. f_equal. f_equal. apply imap_ext. intros i l _. cbv beta.
    rewrite HM, Z.add_0_l. by destruct (Z.leb_spec 0 (Z.of_nat i)); [|lia].
Qed.

(** A resolved anchor is a line of the body. *)
Lemma hash_at_range lines h d :
  hash_at lines h d = true -> (0 <= d < Z.of_nat (length lines))%Z.
Proof. unfold hash_at. rewrite !andb_true_iff. intros [[? ?] _]. lia. Qed.

Lemma probe_hash_at lines h p ds d :
  probe lines h p ds = Some d -> hash_at lines h d = true.
Proof.
  induction ds as [|x ds IH]; simpl; [done|].
  destruct (hash_at lines h (p - x)) eqn:E1; [by intros [= <-]|].
  destruct (hash_at lines h (p + x)) eqn:E2; [by intros [= <-]|]. done.
Qed.

Lemma find_by_anchor_range lines memo d :
  find_by_anchor lines memo = Some d -> (0 <= d < Z.of_nat (length lines))%Z.
Proof.
  unfold find_by_anchor. destruct (truthy (memo_anchor memo)); [|done].
  destruct (exec ANCHOR_RE (memo_anchor memo)) as [m|]; [|done].
  destruct (hash_at lines _ _) eqn:E.
  - intros [= <-]. by apply hash_at_range in E.
  - intros H. by apply probe_hash_at, hash_at_range in H.
Qed.

Lemma first_including_range needle lines i k :
  first_including needle lines i = Some k ->
  (i <= k < i + Z.of_nat (length lines))%Z.
Proof.
  revert i. induction lines as [|l lines IH]; intros i; simpl; [done|].
  destruct (includes needle l); [intros [= <-]; lia|].
  intros H. apply IH in H. lia.
Qed.

Lemma findMemoAnchorLine_range lines memo :
  (0 <= findMemoAnchorLine lines memo)%Z ->
  (findMemoAnchorLine lines memo < Z.of_nat (length lines))%Z.
Proof.
  unfold findMemoAnchorLine.
  destruct (find_by_anchor lines memo) as [d|] eqn:E.
  - apply find_by_anchor_range in E. lia.
  - unfold find_by_text. destruct (truthy (memo_anchorText memo)); [|lia].
    destruct (first_including _ lines 0) as [k|] eqn:Ek; [|lia].
    apply first_including_range in Ek. lia.
Qed.

(** *** No memo is dropped *)

Lemma concat_imap_nil {A B} (l : list A) :
  concat (imap (fun _ _ => @nil B) l) = [].
Proof. induction l as [|x l IH]; simpl; [done|]. apply IH. Qed.

Lemma concat_imap_mark {A} (P : nat -> list A) (m : A) (ls : list jsstring) (j : nat) :
  (j < length ls)%nat ->
  concat (imap (fun i _ => if Nat.eqb i j then m :: P i else P i) ls)
  ≡ₚ m :: concat (imap (fun i _ => P i) ls).
Proof.
  revert P j. induction ls as [|l ls IH]; intros P j Hj; simpl in *; [lia|].
  destruct j as [|j]; simpl.
  - apply Permutation_skip. apply Permutation_app_head.
    erewrite imap_ext; [done|]. intros i x _. done.
  - rewrite (IH (fun i => P (S i)) j) by lia.
    by rewrite Permutation_middle.
Qed.

Lemma emitted_memos_perm lines memos :
  emitted_memos lines memos ≡ₚ memos.
Proof.
  unfold emitted_memos, placed_at, unresolved.
  induction memos as [|m memos IH]; simpl.
  - by rewrite concat_imap_nil.
  - destruct (Z.ltb_spec (findMemoAnchorLine lines m) 0) as [Hlt|Hge].
    + rewrite <- Permutation_middle. apply Permutation_skip.
      etrans; [|exact IH]. apply Permutation_app_tail.
      erewrite imap_ext; [done|]. intros i x _. simpl.
      by destruct (Z.eqb_spec (findMemoAnchorLine lines m) (Z.of_nat i)); [lia|].
    + pose proof (findMemoAnchorLine_range lines m Hge) as Hrange.
      etrans; [|apply Permutation_skip, IH].
      rewrite app_comm_cons. apply Permutation_app_tail.
      set (j := Z.to_nat (findMemoAnchorLine lines m)).
      rewrite <- (concat_imap_mark _ m lines j) by lia.
      erewrite imap_ext; [done|]. intros i x _. simpl.
      destruct (Z.eqb_spec (findMemoAnchorLine lines m) (Z.of_nat i));
        destruct (Nat.eqb_spec i j); (done || lia).
Qed.

(** *** The end of the merged text *)

Lemma ends_in_text_app a b : ends_in_text b -> ends_in_text (a ++ b).
Proof.
  intros [Hb Hl]. split; [by destruct a, b|].
  rewrite last_app. by destruct (last b) eqn:E; [|apply last_None in E].
Qed.

Lemma ends_in_text_unlines xs x : ends_in_text x -> ends_in_text (unlines (xs ++ [x])).
Proof.
  intros [Hx Hl]. assert (last (unlines (xs ++ [x])) = last x) as E.
  { by apply last_join. }
  split; [|by rewrite E]. intros H. rewrite H in E. simpl in E.
  symmetry in E. by apply last_None in E.
Qed.

Lemma ends_in_text_close : ends_in_text (lit "-->").
Proof. split; [done|]. vm_compute. discriminate. Qed.

Lemma serializeMemoV2_ends m : ends_in_text (serializeMemoV2 m).
Proof.
  unfold serializeMemoV2.
  match goal with |- ends_in_text (unlines ?l) =>
    change l with (removelast l ++ [lit "-->"]) end.
  apply ends_in_text_unlines, ends_in_text_close.
Qed.

Lemma serializeGate_ends g : ends_in_text (serializeGate g).
Proof.
  unfold serializeGate.
  match goal with |- ends_in_text (unlines ?l) =>
    change l with (removelast l ++ [lit "-->"]) end.
  apply ends_in_text_unlines, ends_in_text_close.
Qed.

Lemma serializeCursor_ends c : ends_in_text (serializeCursor c).
Proof.
  unfold serializeCursor.
  match goal with |- ends_in_text (unlines ?l) =>
    change l with (removelast l ++ [lit "-->"]) end.
  apply ends_in_text_unlines, ends_in_text_close.
Qed.

Lemma serializeCheckpoint_ends c : ends_in_text (serializeCheckpoint c).
Proof.
  unfold serializeCheckpoint. cbv zeta.
  repeat apply ends_in_text_app. split; [done|]. vm_compute. discriminate.
Qed.

Lemma body_with_memos_ends body memos :
  body <> [] -> last body <> Some NL -> ends_in_text (body_with_memos body memos).
Proof.
  intros Hb Hl. unfold body_with_memos.
  destruct (unresolved (lines_of body) memos) as [|u us _] using rev_ind.
  - rewrite app_nil_r.
    pose proof (unlines_lines_of body) as Hbody.
    pose proof (split_on_nonempty NL body) as Hne. fold (lines_of body) in Hne.
    generalize (placed_at (lines_of body) memos). intros P.
    destruct (lines_of body) as [|ll ls _] using rev_ind; [done|].
    rewrite imap_app, concat_app. simpl. rewrite app_nil_r.
    assert (ends_in_text ll) as Hll.
    { assert (ll <> []) as Hll.
      { intros ->. destruct ls as [|l ls' _] using rev_ind.
        - cbn in Hbody. congruence.
        - apply Hl. rewrite <- Hbody. unfold unlines.
          rewrite join_app by (done || by destruct ls').
          cbn. by rewrite last_snoc. }
      split; [done|]. rewrite <- Hbody in Hl. unfold unlines in Hl.
      by rewrite last_join in Hl. }
    destruct (map serializeMemoV2 (P (Z.of_nat (length ls + 0)))) as [|x xs _] eqn:E
      using rev_ind.
    + by apply ends_in_text_unlines.
    + rewrite app_comm_cons, app_assoc. apply ends_in_text_unlines.
      assert (x ∈ map serializeMemoV2 (P (Z.of_nat (length ls + 0)))) as Hin.
      { rewrite E. apply list_elem_of_In, in_or_app. right. by left. }
      apply list_elem_of_In, in_map_iff in Hin as (m & <- & _).
      apply serializeMemoV2_ends.
  - rewrite map_app. simpl. rewrite app_assoc.
    apply ends_in_text_unlines, serializeMemoV2_ends.
Qed.

Lemma last_section (xs ys : list jsstring) :
  ys <> [] -> Forall ends_in_text ys ->
  exists pre x, xs ++ ys = pre ++ [x] /\ ends_in_text x.
Proof.
  intros Hne Hall. destruct ys as [|y ys' _] using rev_ind; [done|].
  exists (xs ++ ys'), y. split; [by rewrite app_assoc|].
  apply Forall_app in Hall as [_ Hy]. by inversion Hy.
Qed.

Lemma mergeDocument_sections parts :
  mergeDocument parts = join [NL; NL] (merged_sections parts) ++ [NL].
Proof. unfold mergeDocument, merged_sections. by rewrite reinsertMemos_spec. Qed.

Lemma serialized_sections_end parts :
  Forall ends_in_text (map serializeGate (gates parts)
                       ++ map serializeCheckpoint (checkpoints parts)
                       ++ match cursor parts with Some c => [serializeCursor c] | None => [] end).
Proof.
  rewrite !Forall_app. repeat split.
  - apply Forall_forall. intros x Hx.
    apply list_elem_of_In, in_map_iff in Hx as (g & <- & _). apply serializeGate_ends.
  - apply Forall_forall. intros x Hx.
    apply list_elem_of_In, in_map_iff in Hx as (c & <- & _). apply serializeCheckpoint_ends.
  - destruct (cursor parts); repeat constructor; try apply serializeCursor_ends.
Qed.

(** The end of the joined sections when the last one is empty. *)
Lemma last_join_empty (pre : list jsstring) :
  last (join [NL; NL] (pre ++ [[]])) = if pre is [] then None else Some NL.
Proof.
  destruct pre as [|p pre]; [done|].
  rewrite join_app by done. cbn [join]. rewrite app_nil_r.
  change [NL; NL] with ([NL] ++ [NL]). by rewrite !app_assoc, last_snoc.
Qed.

Lemma one_trailing_newline_snoc t :
  one_trailing_newline (t ++ [NL]) <-> last t <> Some NL.
Proof.
  unfold one_trailing_newline. split.
  - intros (t' & E & Hl). by apply app_inj_tail in E as [-> _].
  - intros Hl. by exists t.
Qed.

(** The body section of a bundle with an empty body: empty without memos,
    and closed by the last memo otherwise. *)
Lemma body_with_memos_empty_body memos :
  (memos = [] /\ body_with_memos [] memos = []) \/
  (memos <> [] /\ ends_in_text (body_with_memos [] memos)).
Proof.
  pose proof (emitted_memos_perm [[]] memos) as Hperm.
  unfold emitted_memos in Hperm. unfold body_with_memos.
  change (lines_of []) with [[] : jsstring]. cbn [imap concat app] in *.
  rewrite app_nil_r in *.
  destruct memos as [|m memos]; [by left|]. right. split; [done|].
  rewrite <- map_app.
  destruct (placed_at [[]] (m :: memos) (Z.of_nat 0) ++ unresolved [[]] (m :: memos))
    as [|e es _] using rev_ind.
  - by apply Permutation_nil_l in Hperm.
  - rewrite map_app. cbn [map]. rewrite app_comm_cons.
    apply ends_in_text_unlines, serializeMemoV2_ends.
Qed.

(** The end of the merged text, by the last section. *)
Lemma merged_end parts :
  one_trailing_newline (mergeDocument parts) <-> ~ open_ended parts.
Proof.
  rewrite mergeDocument_sections, one_trailing_newline_snoc.
  unfold merged_sections, open_ended.
  pose proof (serialized_sections_end parts) as Hall.
  set (b := body_with_memos (body parts) (memos parts)) in *.
  set (F := if truthy (frontmatter parts) then [trimEnd (frontmatter parts)] else []).
  destruct (map serializeGate (gates parts)
            ++ map serializeCheckpoint (checkpoints parts)
            ++ match cursor parts with Some c => [serializeCursor c] | None => [] end)
    as [|r rs] eqn:Er.
  - apply app_eq_nil in Er as [Eg Er]. apply app_eq_nil in Er as [Ec Er].
    apply map_eq_nil in Eg, Ec.
    assert (cursor parts = None) as Ecur by (by destruct (cursor parts)).
    rewrite app_nil_r.
    assert (F <> [] <-> frontmatter parts <> []) as HF.
    { unfold F. by destruct (frontmatter parts). }
    destruct b as [|c b'] eqn:Eb.
    + rewrite last_join_empty. split.
      * intros H (_ & _ & _ & [Hl|[_ Hfm]]); [done|].
        apply HF in Hfm. by destruct F.
      * intros H. destruct F as [|f F'] eqn:EF; [done|]. exfalso. apply H.
        repeat split; try done. right. split; [done|]. by apply HF.
    + rewrite last_join by done. split.
      * intros H (_ & _ & _ & [Hl|[Hb _]]); done.
      * intros H Hl. apply H. repeat split; try done. by left.
  - destruct (last_section (F ++ [b]) (r :: rs) ltac:(done) Hall) as (pre & x & E & Hx & Hl).
    rewrite <- app_assoc in E. rewrite E, last_join by done. split; [|done].
    intros _ (Hg & Hc & Hcur & _). rewrite Hg, Hc, Hcur in Er. done.
Qed.

(** For a body as [splitDocument] returns it (no trailing blank line, so no
    newline at its end) the only bundles whose merged text does not end in
    exactly one newline hold a frontmatter and nothing else. *)
Lemma open_ended_frontmatter_only parts :
  last (body parts) <> Some NL -> (open_ended parts <-> frontmatter_only parts).
Proof.
  intros Hl. unfold open_ended, frontmatter_only. split.
  - intros (Hg & Hc & Hcur & H).
    destruct (body parts) as [|c0 body'] eqn:Eb.
    + destruct (body_with_memos_empty_body (memos parts)) as [[Hm Hb]|[Hm [Hne Hend]]].
      * destruct H as [H|[_ Hfm]]; [by rewrite Hb in H|done].
      * destruct H as [H|[H _]]; done.
    + pose proof (body_with_memos_ends (c0 :: body') (memos parts) ltac:(done) Hl)
        as [Hne Hend].
      destruct H as [H|[H _]]; done.
  - intros (Hfm & Hb & Hm & Hg & Hc & Hcur). repeat split; try done.
    right. rewrite Hb, Hm. by split.
Qed.

(** C6 (as amended).  The merged text is the sections joined by one blank
    line and closed by one newline; the sections are the frontmatter if
    present, the body with the memos re-inserted (each body line followed by
    the memos resolved to it, then the memos that failed to resolve), every
    gate in bundle order, every checkpoint in bundle order, and the cursor
    if present.  No memo is dropped: the memos emitted are a permutation of
    the memos of the bundle.  The text ends in exactly one newline unless
    its last section is the body with its memos and that section ends in a
    newline, or is empty and follows the frontmatter.  For a body without a
    newline at its end, as [splitDocument] returns it, the exception is the
    bundle that holds a frontmatter and nothing else. *)
Theorem mergeDocument_emits (parts : DocumentParts) :
  mergeDocument parts = join [NL; NL] (merged_sections parts) ++ [NL] /\
  emitted_memos (lines_of (body parts)) (memos parts) ≡ₚ memos parts /\
  (one_trailing_newline (mergeDocument parts) <-> ~ open_ended parts) /\
  (last (body parts) <> Some NL ->
   (one_trailing_newline (mergeDocument parts) <-> ~ frontmatter_only parts)).
Proof.
  split; [apply mergeDocument_sections|]. split; [apply emitted_memos_perm|].
  split; [apply merged_end|].
  intros Hl. rewrite merged_end. by rewrite (open_ended_frontmatter_only parts Hl).
Qed.

Lemma mergeDocument_emits_witness :
  one_trailing_newline (mergeDocument sample_bundle) /\
  one_trailing_newline (mergeDocument (mkParts [] [] [] [] [] None [])).
Proof.
  split.
  - apply (proj1 (proj2 (proj2 (mergeDocument_emits sample_bundle)))).
    intros (Hg & _). discriminate.
  - apply (proj2 (proj2 (proj2 (mergeDocument_emits (mkParts [] [] [] [] [] None [])))));
      [discriminate|].
    intros (Hfm & _). by apply Hfm.
Defined.

(** C6 as stated fails in its last part.  A document that holds a
    frontmatter and nothing else is split into a bundle with that
    frontmatter and an empty body; merging the bundle gives the frontmatter
    followed by three newlines. *)
Lemma mergeDocument_frontmatter_only_counterexample :
  let parts := splitDocument clock0 doc_frontmatter_only in
  parts = mkParts doc_frontmatter_only [] [] [] [] None [] /\
  mergeDocument parts = trimEnd doc_frontmatter_only ++ [NL; NL; NL] /\
  ~ one_trailing_newline (mergeDocument parts).
Proof.
  cbv zeta.
  assert (splitDocument clock0 doc_frontmatter_only
          = mkParts doc_frontmatter_only [] [] [] [] None []) as -> by (by vm_compute).
  assert (mergeDocument (mkParts doc_frontmatter_only [] [] [] [] None [])
          = (trimEnd doc_frontmatter_only ++ [NL; NL]) ++ [NL]) as E by (by vm_compute).
  split; [done|]. split; [by rewrite E, <- app_assoc|].
  rewrite E, one_trailing_newline_snoc. intros H. apply H.
  by vm_compute.
Qed.

(** ** Blocks that are never closed *)


(** What [splitDocument] does with a block that is never closed, in a
    document without frontmatter whose lines before the opener are ordinary
    body lines: the block runs to the end of the document, the body is the
    text before the opener and nothing after it, and one record is
    synthesized from the attribute lines found among the consumed lines: a
    memo for the opener [<!-- USER_MEMO], a gate for [<!-- GATE], a cursor
    for [<!-- PLAN_CURSOR]. *)
Lemma unterminated_block_runs_to_end
    (clock : Clock) (pre : list jsstring) (opener : jsstring) (rest : list jsstring) :
  let text := unlines (pre ++ opener :: rest) in
  Forall nl_free (pre ++ opener :: rest) ->
  starts_with (lit "---") text = false ->
  Forall plain pre ->
  never_closed rest ->
  (trim opener = lit "<!-- USER_MEMO" ->
   splitDocument clock text =
   mkParts [] (unlines (pop_blank pre))
           [memo_of_attrs clock pre (parseAttrs rest)] [] [] None []) /\
  (trim opener = lit "<!-- GATE" ->
   splitDocument clock text =
   mkParts [] (unlines (pop_blank pre))
           [] [] [gate_of_attrs clock (parseAttrs rest)] None []) /\
  (trim opener = lit "<!-- PLAN_CURSOR" ->
   splitDocument clock text =
   mkParts [] (unlines (pop_blank pre))
           [] [] [] (Some (cursor_of_attrs clock (parseAttrs rest))) []).
Proof.
  intros text Hnl Hfm Hpre Hrest. subst text.
  rewrite splitDocument_no_frontmatter by (done || by destruct pre).
  rewrite scan_plain, push_body_lines by done. rewrite scan_cons.
  repeat split; intros Hop.
  - rewrite loop_body_memo_open, take_block_never_closed by done. done.
  - rewrite loop_body_gate_open by done.
    change GATE_END_RE with MEMO_V4_END_RE.
    rewrite take_block_never_closed by done. done.
  - rewrite loop_body_cursor_open by done.
    change CURSOR_END_RE with MEMO_V4_END_RE.
    rewrite take_block_never_closed by done. done.
Qed.

(** C3: the code at the failing input.  The document is [intro], the opener
    [<!-- USER_MEMO], an id line and [tail]; the block is never closed.  The
    body of the result is [intro] alone: the opener and the line [tail] are
    not body text, a memo with the id of the truncated block is
    synthesized, and the text merged from the result no longer holds the
    line [tail], which the document held.  A single-line memo that is never
    closed, by contrast, stays in the body and no record is made of it. *)
Lemma unterminated_block_loses_text :
  let parts := splitDocument clock0 doc_unterminated in
  body parts = lit "intro" /\
  includes (lit "<!-- USER_MEMO") (body parts) = false /\
  map memo_id (memos parts) = [lit "m1"] /\
  includes (lit "tail") doc_unterminated = true /\
  includes (lit "tail") (body parts) = false /\
  includes (lit "tail") (mergeDocument parts) = false /\
  splitDocument clock0 doc_unclosed_line = mkParts [] doc_unclosed_line [] [] [] None [].
Proof. repeat split; by vm_compute. Qed.

(** ** Gates: evaluation of all gates and the summary *)

Section GateSummary.

(** The loop of [getGateSummary] from arbitrary counters. *)
Lemma summary_fold_total gates acc :
  let r := fold_left
    (fun acc g =>
       if str_eqb (gate_status g) s_blocked
       then mkSummary (blocked acc + 1) (proceed acc) (done acc)
       else if str_eqb (gate_status g) s_proceed
       then mkSummary (blocked acc) (proceed acc + 1) (done acc)
       else mkSummary (blocked acc) (proceed acc) (done acc + 1)) gates acc in
  blocked r + proceed r + done r =
  blocked acc + proceed acc + done acc + N.of_nat (length gates).
Proof.
  revert acc. induction gates as [|g gates IH]; intros acc; cbn [fold_left length].
  - cbv zeta. lia.
  - cbv zeta in *. rewrite IH.
    destruct (str_eqb (gate_status g) s_blocked); [simpl; lia|].
    destruct (str_eqb (gate_status g) s_proceed); simpl; lia.
Qed.

(** The done counter counts the gates whose status is neither [blocked]
    nor [proceed]. *)
Lemma summary_fold_done gates acc :
  done (fold_left
    (fun acc g =>
       if str_eqb (gate_status g) s_blocked
       then mkSummary (blocked acc + 1) (proceed acc) (done acc)
       else if str_eqb (gate_status g) s_proceed
       then mkSummary (blocked acc) (proceed acc + 1) (done acc)
       else mkSummary (blocked acc) (proceed acc) (done acc + 1)) gates acc) =
  done acc +
  N.of_nat (length (List.filter
                      (fun g => negb (str_eqb (gate_status g) s_blocked)
                                && negb (str_eqb (gate_status g) s_proceed)) gates)).
Proof.
  revert acc. induction gates as [|g gates IH]; intros acc; cbn [fold_left List.filter].
  - simpl. lia.
  - rewrite IH.
    destruct (str_eqb (gate_status g) s_blocked); [simpl; lia|].
    destruct (str_eqb (gate_status g) s_proceed); simpl; lia.
Qed.

(** No memo is open: no gate has an open blocker. *)
Lemma no_open_no_blocker gate memos :
  existsb is_open memos = false -> ~ has_open_blocker gate memos.
Proof.
  intros H (id & m & _ & (pre & post & -> & _) & Hop).
  apply existsb_open_false in H. rewrite Forall_forall in H.
  apply (H m); [|done]. apply list_elem_of_In, in_or_app. right. by left.
Qed.

Lemma evaluateGate_done_iff gate memos :
  evaluateGate gate memos = Done <-> existsb is_open memos = false.
Proof.
  split.
  - intros H. unfold evaluateGate in H.
    destruct (existsb is_open memos); [|done]. simpl in H.
    destruct (0 <? length (gate_blockedBy gate))%nat; [|done].
    by destruct (0 <? length _)%nat.
  - intros H. rewrite (evaluateGate_unblocked _ _ (no_open_no_blocker _ _ H)).
    by rewrite H.
Qed.

(** The verdict does not read the stored status, nor any field of the gate
    other than [blockedBy]. *)
Lemma evaluateGate_reads_blockedBy g g' memos :
  gate_blockedBy g = gate_blockedBy g' -> evaluateGate g memos = evaluateGate g' memos.
Proof. unfold evaluateGate. by intros ->. Qed.

Lemma has_open_blocker_same_ids g g' memos :
  same_ids (gate_blockedBy g) (gate_blockedBy g') ->
  has_open_blocker g memos -> has_open_blocker g' memos.
Proof.
  intros Hs (id & m & Hin & H). exists id, m. split; [by apply Hs|done].
Qed.

End GateSummary.

(** X1.  [getGateSummary] counts every gate exactly once: the three
    counters add up to the number of gates, whatever the status strings
    are (a status that is neither [blocked] nor [proceed] is counted as
    done). *)
Theorem getGateSummary_counts_every_gate (gates : list Gate) :
  blocked (getGateSummary gates) + proceed (getGateSummary gates)
  + done (getGateSummary gates) = N.of_nat (length gates).
Proof.
  unfold getGateSummary.
  pose proof (summary_fold_total gates (mkSummary 0 0 0)) as H. cbv zeta in H.
  rewrite H. simpl. lia.
Qed.

(** X2.  After [evaluateAllGates] the gates are done all together or not at
    all: when no memo is open every gate is counted as done by
    [getGateSummary], and as soon as one memo is open (whether a gate lists
    it or not) no gate is. *)
Theorem evaluateAllGates_done_together (gates : list Gate) (memos : list MemoV2) :
  done (getGateSummary (evaluateAllGates gates memos)) =
  if existsb is_open memos then 0 else N.of_nat (length gates).
Proof.
  unfold getGateSummary. rewrite summary_fold_done. cbn [done].
  unfold evaluateAllGates. rewrite N.add_0_l.
  induction gates as [|g gates IH]; cbn [map List.filter length gate_status].
  - by destruct (existsb is_open memos).
  - pose proof (evaluateGate_done_iff g memos) as Hd.
    destruct (evaluateGate g memos) eqn:E; cbn [result_string];
      destruct (existsb is_open memos) eqn:Eo; simpl in *; try lia;
      try (destruct Hd as [Hd1 Hd2]; (by specialize (Hd1 eq_refl)) || by specialize (Hd2 eq_refl)).
Qed.

(** X3.  Evaluating gates that were evaluated before (against any memos)
    gives what evaluating the original gates gives: the stored status is
    overwritten, never read. *)
Theorem evaluateAllGates_overrides (gates : list Gate) (memos0 memos : list MemoV2) :
  evaluateAllGates (evaluateAllGates gates memos0) memos = evaluateAllGates gates memos.
Proof.
  unfold evaluateAllGates. rewrite map_map. apply map_ext. intros g. simpl.
  by rewrite (evaluateGate_reads_blockedBy _ g memos).
Qed.

(** X4.  The verdict of [evaluateGate] depends on the gate only through the
    set of ids in [blockedBy]: their order, duplicates among them and every
    other field of the gate (its stored status included) are irrelevant. *)
Theorem evaluateGate_same_ids (g g' : Gate) (memos : list MemoV2) :
  same_ids (gate_blockedBy g) (gate_blockedBy g') ->
  evaluateGate g memos = evaluateGate g' memos.
Proof.
  intros Hs.
  assert (same_ids (gate_blockedBy g') (gate_blockedBy g)) as Hs'.
  { intros id. by rewrite (Hs id). }
  destruct (evaluateGate g memos) eqn:E.
  - apply evaluateGate_blocked_iff in E. symmetry. apply evaluateGate_blocked_iff.
    by apply (has_open_blocker_same_ids g).
  - destruct (evaluateGate g' memos) eqn:E'; [|done|].
    + apply evaluateGate_blocked_iff, (has_open_blocker_same_ids g' g) in E'; [|done].
      apply evaluateGate_blocked_iff in E'. congruence.
    + apply evaluateGate_done_iff in E'.
      apply (evaluateGate_done_iff g) in E'. congruence.
  - apply evaluateGate_done_iff in E. symmetry. by apply evaluateGate_done_iff.
Qed.

Lemma evaluateGate_same_ids_witness :
  evaluateGate (mkGate (lit "g1") (lit "merge") s_blocked [lit "m1"; lit "m2"] [] [])
               [memo_with (lit "m2") s_open] =
  evaluateGate (mkGate (lit "g9") (lit "review") s_done
                       [lit "m2"; lit "m1"; lit "m2"] [] (lit "x"))
               [memo_with (lit "m2") s_open].
Proof.
  apply evaluateGate_same_ids. intros id. simpl. tauto.
Defined.

(** ** Hashes and anchors *)

Section Hashes.

Lemma hex_digit_hex d : d < 16 -> is_hex (hex_digit d) = true.
Proof.
  intros Hd. unfold hex_digit, is_hex.
  destruct (N.ltb_spec d 10).
  - apply orb_true_iff. left. apply andb_true_iff. split; apply N.leb_le; lia.
  - apply orb_true_iff. right. apply andb_true_iff. split; apply N.leb_le; lia.
Qed.

Lemma hex_digits_hex fuel n acc :
  Forall (fun c => is_hex c = true) acc ->
  Forall (fun c => is_hex c = true) (hex_digits fuel n acc).
Proof.
  revert n acc. induction fuel as [|fuel IH]; intros n acc Hacc; simpl; [done|].
  assert (Forall (fun c => is_hex c = true) (hex_digit (n mod 16) :: acc)) as H.
  { constructor; [|done]. apply hex_digit_hex, N.mod_lt. lia. }
  destruct (n / 16 =? 0); [done|]. by apply IH.
Qed.

End Hashes.

(** X5.  [hashLine] (and with it [generateBodyHash]) always returns exactly
    eight lower-case hexadecimal digits, whatever the line: short hashes are
    padded with zeros, and the empty line has a hash as well. *)
Theorem hashLine_eight_hex_digits (line : jsstring) :
  length (hashLine line) = 8%nat /\
  Forall (fun c => is_hex c = true) (hashLine line) /\
  generateBodyHash line = hashLine line.
Proof.
  split; [apply hashLine_length|]. split; [|done].
  unfold hashLine, slice0, padStart.
  apply Forall_take, Forall_app. split.
  - apply Forall_forall. intros c Hc. apply list_elem_of_In, repeat_spec in Hc. by subst.
  - by apply hex_digits_hex.
Qed.

Section Anchors.

(** The nearest non-blank line above, by text and by index. *)
Lemma anchor_above_spec bodyLines :
  match findAnchorAbove bodyLines with
  | Some t =>
      exists i l, findAnchorLineIdx bodyLines = Z.of_nat i /\
                  bodyLines !! i = Some l /\ t = trim l /\ t <> [] /\
                  Forall (fun l' => is_blank l' = true) (drop (S i) bodyLines)
  | None =>
      findAnchorLineIdx bodyLines = (-1)%Z /\
      Forall (fun l => is_blank l = true) bodyLines
  end.
Proof.
  unfold findAnchorAbove, findAnchorLineIdx.
  induction bodyLines as [|l ls IH] using rev_ind; [by split|].
  rewrite rev_app_distr. cbn [rev app anchor_above_rev anchor_idx_rev].
  destruct (truthy (trim l)) eqn:Et.
  - exists (length ls), l. rewrite length_rev. split; [done|].
    split; [by rewrite lookup_app_r, Nat.sub_diag by lia|].
    split; [done|]. split; [by apply truthy_true|].
    rewrite drop_ge; [constructor|]. rewrite length_app. simpl. lia.
  - assert (is_blank l = true) as Hl by (unfold is_blank; by rewrite Et).
    destruct (anchor_above_rev (rev ls)) as [t|].
    + destruct IH as (i & l0 & Hi & Hl0 & Ht & Hne & Hd).
      exists i, l0. split; [done|]. pose proof (lookup_lt_Some _ _ _ Hl0) as Hlt.
      split; [by rewrite lookup_app_l|]. split; [done|]. split; [done|].
      rewrite drop_app_le by lia. apply Forall_app. split; [done|]. by constructor.
    + destruct IH as [Hi Hall]. split; [done|].
      apply Forall_app. split; [done|]. by constructor.
Qed.

(** A machine anchor as the splitter and the tools write it reads back as
    its line number and its hash. *)
Lemma parse_anchor_written n h :
  parse_anchor (lit "L" ++ to_dec n ++ lit "|" ++ h) = Some (n, h).
Proof.
  unfold parse_anchor. norm_lit. cbn [app strip_prefix]. rewrite N.eqb_refl.
  pose proof (to_dec_digits n) as Hd. pose proof (to_dec_nonempty n) as Hne.
  rewrite take_while_app, drop_while_app by done.
  cbn [strip_prefix]. change (58 =? 124) with false. cbv iota.
  rewrite N.eqb_refl, parseInt_to_dec.
  destruct (to_dec n); [simpl in Hne; lia|done].
Qed.

Lemma derived_resolves lines bodyLines memo :
  memo_anchor memo = derived_anchor bodyLines ->
  memo_anchorText memo = opt_or (findAnchorAbove bodyLines) [] ->
  ((0 <= findAnchorLineIdx bodyLines)%Z ->
   lines !! Z.to_nat (findAnchorLineIdx bodyLines)
   = bodyLines !! Z.to_nat (findAnchorLineIdx bodyLines)) ->
  findMemoAnchorLine lines memo = findAnchorLineIdx bodyLines.
Proof.
  intros Ha Ht Hsame. pose proof (anchor_above_spec bodyLines) as Hspec.
  unfold findMemoAnchorLine. rewrite find_by_anchor_spec, Ha. unfold derived_anchor.
  destruct (findAnchorAbove bodyLines) as [t|].
  - destruct Hspec as (i & l & Hi & Hl & _). rewrite Hi in *.
    destruct (Z.leb_spec 0 (Z.of_nat i)); [|lia]. rewrite Nat2Z.id in *.
    rewrite parse_anchor_written. unfold candidates. cbn [List.find].
    replace (Z.of_N (Z.to_N (Z.of_nat i + 1)) - 1)%Z with (Z.of_nat i) by lia.
    assert (hash_matches lines (hashLine (nth i bodyLines [])) (Z.of_nat i) = true) as ->.
    { unfold hash_matches, line_at. destruct (Z.leb_spec 0 (Z.of_nat i)); [|lia].
      rewrite Nat2Z.id, Hsame, Hl by lia.
      rewrite (nth_lookup_Some _ _ _ _ Hl). apply str_eqb_refl. }
    done.
  - destruct Hspec as [Hi _]. rewrite Hi. cbn.
    unfold find_by_text. rewrite Ht. done.
Qed.

End Anchors.

(** X6.  [findAnchorAbove] and [findAnchorLineIdx] agree: when the first
    returns a text, the second returns the index of a body line whose
    trimmed text is that text, the text is not empty and every line below it
    is blank; when the first returns nothing, the second returns -1 and
    every line is blank. *)
Theorem findAnchorAbove_agrees_with_index (bodyLines : list jsstring) :
  match findAnchorAbove bodyLines with
  | Some t =>
      exists i l, findAnchorLineIdx bodyLines = Z.of_nat i /\
                  bodyLines !! i = Some l /\ t = trim l /\ t <> [] /\
                  Forall (fun l' => is_blank l' = true) (drop (S i) bodyLines)
  | None =>
      findAnchorLineIdx bodyLines = (-1)%Z /\
      Forall (fun l => is_blank l = true) bodyLines
  end.
Proof. apply anchor_above_spec. Qed.

(** X7.  A memo of a dialect without anchors (the single-line form, the
    legacy block) is anchored where it was found: the anchor the splitter
    derives for it resolves, by the exact-position step, to the nearest
    non-blank body line above the memo, on every list of lines that has
    that line at that index; when there is no such line the memo is
    unresolved (-1). *)
Theorem derived_anchor_resolves
    (clock : Clock) (bodyLines lines memoLines : list jsstring) (m : found) :
  ((0 <= findAnchorLineIdx bodyLines)%Z ->
   lines !! Z.to_nat (findAnchorLineIdx bodyLines)
   = bodyLines !! Z.to_nat (findAnchorLineIdx bodyLines)) ->
  findMemoAnchorLine lines (memo_of_v3 clock bodyLines m) = findAnchorLineIdx bodyLines /\
  findMemoAnchorLine lines (memo_of_legacy clock bodyLines memoLines m)
  = findAnchorLineIdx bodyLines.
Proof. intros H. split; by apply derived_resolves. Qed.

Lemma derived_anchor_resolves_witness :
  findMemoAnchorLine [lit "alpha"; lit "beta"; lit "gamma"]
    (memo_of_v3 clock0 [lit "alpha"; lit "beta"; []] (mkFound [] [] [] [])) = 1%Z.
Proof.
  apply (derived_anchor_resolves clock0 [lit "alpha"; lit "beta"; []]
           [lit "alpha"; lit "beta"; lit "gamma"] [] (mkFound [] [] [] [])).
  intros _. reflexivity.
Defined.

(** X8.  [findMemoAnchorLine] returns -1 or the index of a line of the
    body: a resolved anchor never points outside the lines it was resolved
    against. *)
Theorem findMemoAnchorLine_in_range (lines : list jsstring) (memo : MemoV2) :
  findMemoAnchorLine lines memo = (-1)%Z \/
  (0 <= findMemoAnchorLine lines memo < Z.of_nat (length lines))%Z.
Proof.
  pose proof (findMemoAnchorLine_range lines memo) as Hr.
  unfold findMemoAnchorLine in *.
  destruct (find_by_anchor lines memo) as [d|] eqn:E.
  - apply find_by_anchor_range in E. right. lia.
  - destruct (find_by_text lines memo) as [k|] eqn:Ek; [|by left].
    unfold find_by_text in Ek. destruct (truthy (memo_anchorText memo)); [|done].
    apply first_including_range in Ek. right. lia.
Qed.

(** ** Attribute lines: what the parser accepts *)

Section AttributeParser.

Lemma parse_attr_Some s k v :
  parse_attr s = Some (k, v) ->
  s = k ++ [61; DQ] ++ v ++ [DQ] /\ k <> [] /\
  Forall (fun c => is_word c = true) k /\ Forall (fun c => c <> DQ) v.
Proof.
  unfold parse_attr. intros H.
  pose proof (take_drop_while is_word s) as Hs.
  destruct (strip_prefix [61; DQ] (drop_while is_word s)) as [s1|] eqn:E1; [|done].
  apply strip_prefix_Some in E1.
  pose proof (take_drop_while not_dq s1) as Hs1.
  destruct (strip_prefix [DQ] (drop_while not_dq s1)) as [[|]|] eqn:E2; try done.
  apply strip_prefix_Some in E2.
  destruct (truthy (take_while is_word s)) eqn:Et; [|done].
  injection H as <- <-. split.
  - rewrite <- Hs at 1. rewrite E1. f_equal. cbn [app]. do 2 f_equal.
    rewrite <- Hs1 at 1. by rewrite E2.
  - split; [by apply truthy_true|]. split; [apply take_while_all|].
    eapply Forall_impl; [apply (take_while_all not_dq)|].
    intros c Hc ->. done.
Qed.

Lemma parse_attr_quoted key v :
  key <> [] -> Forall (fun c => is_word c = true) key ->
  Forall (fun c => c <> DQ) v ->
  parse_attr (key ++ [61; DQ] ++ v ++ [DQ]) = Some (key, v).
Proof.
  intros Hne Hkey Hv. unfold parse_attr.
  rewrite take_while_app, drop_while_app by done.
  cbn [app strip_prefix]. rewrite !N.eqb_refl.
  assert (Forall (fun c => not_dq c = true) v) as Hv'.
  { eapply Forall_impl; [exact Hv|]. intros c Hc. unfold not_dq, not_chr.
    by destruct (N.eqb_spec c DQ). }
  rewrite take_while_app, drop_while_app by done.
  simpl. by destruct key.
Qed.

(** Every binding of the attribute object comes from a line. *)
Lemma parseAttrs_from_line lines k v :
  parseAttrs lines !! k = Some v ->
  exists line, In line lines /\ parse_attr (trim line) = Some (k, v).
Proof.
  rewrite parseAttrs_fold.
  induction lines as [|l lines IH] using rev_ind; [simpl; by rewrite lookup_empty|].
  rewrite fold_left_app. cbn [fold_left].
  destruct (parse_attr (trim l)) as [[k' v']|] eqn:E.
  - unfold assign. destruct (str_eqb k' (lit "__proto__")).
    { intros H. destruct (IH H) as (line & Hin & Hp). exists line. split; [|done].
      apply in_or_app. by left. }
    destruct (decide (k' = k)) as [->|Hne].
    + rewrite lookup_insert_eq. intros [= ->]. exists l. split; [|done].
      apply in_or_app. right. by left.
    + rewrite lookup_insert_ne by done. intros H.
      destruct (IH H) as (line & Hin & Hp). exists line. split; [|done].
      apply in_or_app. by left.
  - intros H. destruct (IH H) as (line & Hin & Hp). exists line. split; [|done].
    apply in_or_app. by left.
Qed.

Lemma parseAttrs_snoc lines l :
  parseAttrs (lines ++ [l]) =
  match parse_attr (trim l) with
  | Some (k, v) => assign k v (parseAttrs lines)
  | None => parseAttrs lines
  end.
Proof.
  rewrite !parseAttrs_fold, fold_left_app. cbn [fold_left].
  by destruct (parse_attr (trim l)) as [[k v]|].
Qed.

(** The key [__proto__] is never bound. *)
Lemma parseAttrs_no_proto lines : parseAttrs lines !! lit "__proto__" = None.
Proof.
  induction lines as [|l lines IH] using rev_ind; [apply lookup_empty|].
  rewrite parseAttrs_snoc. destruct (parse_attr (trim l)) as [[k v]|]; [|done].
  unfold assign. destruct (str_eqb k (lit "__proto__")) eqn:E; [done|].
  apply str_eqb_false in E. by rewrite lookup_insert_ne.
Qed.

End AttributeParser.

(** X9.  [parseAttrs] returns only what some line binds: every attribute of
    the object it returns was written on one of the lines, trimmed, as a key
    of word characters, an equals sign and a value between double quotes
    with no double quote inside.  Lines of any other shape contribute
    nothing. *)
Theorem parseAttrs_sound (lines : list jsstring) (k v : jsstring) :
  parseAttrs lines !! k = Some v ->
  k <> [] /\ Forall (fun c => is_word c = true) k /\ Forall (fun c => c <> DQ) v /\
  exists line, In line lines /\ trim line = k ++ [61; DQ] ++ v ++ [DQ].
Proof.
  intros H. apply parseAttrs_from_line in H as (line & Hin & Hp).
  apply parse_attr_Some in Hp as (Hs & Hne & Hk & Hv).
  repeat split; try done. by exists line.
Qed.

Lemma parseAttrs_sound_witness :
  exists line, In line [lit "  " ++ attr_head "id" ++ lit "m1" ++ [DQ]; lit "noise"] /\
               trim line = lit "id" ++ [61; DQ] ++ lit "m1" ++ [DQ].
Proof.
  apply (parseAttrs_sound [lit "  " ++ attr_head "id" ++ lit "m1" ++ [DQ]; lit "noise"]
           (lit "id") (lit "m1")).
  reflexivity.
Defined.

(** X10.  The last line that binds a key wins: when a line, trimmed, reads
    key="value" (a key of word characters other than [__proto__], a value
    without double quote) and no later line binds the same key, the
    attribute object maps the key to that value, whatever the earlier lines
    hold.  The key [__proto__] is the exception: assigning a string to it
    creates no property, so the object never binds it. *)
Theorem parseAttrs_last_wins (pre post : list jsstring) (line k v : jsstring) :
  k <> [] -> Forall (fun c => is_word c = true) k -> k <> lit "__proto__" ->
  Forall (fun c => c <> DQ) v ->
  trim line = k ++ [61; DQ] ++ v ++ [DQ] ->
  Forall (fun l => forall v', trim l <> k ++ [61; DQ] ++ v' ++ [DQ]) post ->
  parseAttrs (pre ++ line :: post) !! k = Some v /\
  parseAttrs (pre ++ line :: post) !! lit "__proto__" = None.
Proof.
  intros Hne Hk Hproto Hv Hline Hpost. split; [|apply parseAttrs_no_proto].
  induction post as [|l post IH] using rev_ind.
  - rewrite parseAttrs_snoc, Hline, parse_attr_quoted by done.
    rewrite assign_key by done. by rewrite lookup_insert_eq.
  - apply Forall_app in Hpost as [Hpost Hl]. inversion Hl as [|? ? Hl' _]; subst.
    replace (pre ++ line :: post ++ [l]) with ((pre ++ line :: post) ++ [l])
      by (by rewrite <- app_assoc).
    rewrite parseAttrs_snoc.
    destruct (parse_attr (trim l)) as [[k' v']|] eqn:E; [|by apply IH].
    unfold assign. destruct (str_eqb k' (lit "__proto__")); [by apply IH|].
    destruct (decide (k' = k)) as [->|Hne'].
    + apply parse_attr_Some in E as [E _]. by apply Hl' in E.
    + rewrite lookup_insert_ne by done. by apply IH.
Qed.

Lemma parseAttrs_last_wins_witness :
  parseAttrs ([attr_line "status" (lit "open")]
              ++ attr_line "status" (lit "done")
                 :: [lit "-- noise --"; lit "__proto__" ++ [61; DQ] ++ lit "x" ++ [DQ]])
  !! lit "status" = Some (lit "done") /\
  parseAttrs ([attr_line "status" (lit "open")]
              ++ attr_line "status" (lit "done")
                 :: [lit "-- noise --"; lit "__proto__" ++ [61; DQ] ++ lit "x" ++ [DQ]])
  !! lit "__proto__" = None.
Proof.
  apply parseAttrs_last_wins.
  - discriminate.
  - vm_compute. repeat constructor.
  - vm_compute. discriminate.
  - vm_compute. repeat constructor; discriminate.
  - reflexivity.
  - repeat constructor; intros v'; vm_compute; discriminate.
Defined.

(** ** Serialized records, read back by the splitter *)

Section Escaping.

Lemma esc_attr_safe v : nl_free v -> attr_safe (esc v).
Proof.
  intros Hv. unfold esc, replace_chr, attr_safe.
  induction Hv as [|c v Hc Hv IH]; simpl; [constructor|].
  apply Forall_app. split; [|done].
  destruct (N.eqb_spec c DQ) as [->|Hne].
  - vm_compute. repeat constructor; discriminate.
  - by repeat constructor.
Qed.

Lemma esc_nonempty v : v <> [] -> esc v <> [].
Proof.
  destruct v as [|c v]; [done|]. intros _. unfold esc, replace_chr. simpl.
  by destruct (c =? DQ).
Qed.

Lemma filled_esc v : v <> [] -> nl_free v -> filled (esc v).
Proof. intros ? ?. split; [by apply esc_nonempty|by apply esc_attr_safe]. Qed.

Lemma escaped_valid m : valid_memo m -> escaped m = m.
Proof.
  intros (Hid & Hty & Hst & How & Hso & Hco & Hte & Hat & Han & Hcr & Hup).
  unfold escaped.
  rewrite (esc_safe (memo_id m)), (esc_safe (memo_source m)), (esc_safe (memo_text m)),
    (esc_safe (memo_anchorText m)), (esc_safe (memo_anchor m))
    by (assumption || apply Hid || apply Hso).
  by destruct m.
Qed.

(** The escape changes a text exactly when it holds a double quote. *)
Lemma esc_fixed_iff s : esc s = s <-> Forall (fun c => c <> DQ) s.
Proof.
  unfold esc, replace_chr. induction s as [|c s IH]; cbn [flat_map]; [by split|].
  destruct (N.eqb_spec c DQ) as [->|Hc].
  - split; [intros [=]|]. intros H. inversion H; subst. done.
  - cbn [app]. split.
    + intros [= E]. constructor; [done|]. by apply IH.
    + intros H. inversion H; subst. f_equal. by apply IH.
Qed.

Lemma escaped_iff m : escaped m = m <-> unquoted m.
Proof.
  unfold escaped, unquoted. rewrite <- !esc_fixed_iff. destruct m; cbn. split.
  - intros [= E1 E2 E3 E4 E5]. done.
  - intros (-> & -> & -> & -> & ->). done.
Qed.

End Escaping.

Section Records.

Variable clock : Clock.

Lemma loop_body_memo_escaped m rest st :
  serializable_memo m ->
  loop_body clock (lit "<!-- USER_MEMO") (tail (memo_lines m) ++ rest) st =
  (rest, push_memo st (refill (st_bodyLines st) (escaped m))).
Proof.
  intros (Hid & Hid' & Hty & Hst & How & Hso & Hso' & Hco & Hte & Hat & Han & Hcr & Hup).
  rewrite loop_body_memo_open by reflexivity.
  unfold memo_lines. cbn [tail].
  pose proof (filled_esc _ Hid Hid') as Fid. pose proof (filled_esc _ Hso Hso') as Fso.
  pose proof (esc_attr_safe _ Hte) as Fte. pose proof (esc_attr_safe _ Hat) as Fat.
  pose proof (esc_attr_safe _ Han) as Fan.
  set (kvs := [("id", esc (memo_id m)); ("type", memo_type m); ("status", memo_status m);
               ("owner", memo_owner m); ("source", esc (memo_source m));
               ("color", memo_color m); ("text", esc (memo_text m));
               ("anchorText", esc (memo_anchorText m)); ("anchor", esc (memo_anchor m));
               ("createdAt", memo_createdAt m); ("updatedAt", memo_updatedAt m)]%string).
  match goal with |- context [take_block _ ?l] =>
    change l with (map (fun '(k, v) => attr_line k v) kvs ++ lit "-->" :: rest) end.
  assert (Forall (fun '(k, v) => wordy k /\ attr_safe v) kvs) as Hkvs
    by (subst kvs; attr_facts).
  assert (Forall (fun kv => lit kv.1 <> lit "__proto__") kvs) as Hkeys
    by (subst kvs; repeat constructor; by vm_compute).
  rewrite take_block_attr_lines, parseAttrs_attr_lines by done.
  f_equal. f_equal. unfold memo_of_attrs, attr, refill, escaped. rewrite !attrs_of_lookup.
  subst kvs. cbn [assoc].
  repeat match goal with
    | |- context [str_eqb (lit ?a) (lit ?b)] =>
        let v := eval vm_compute in (str_eqb (lit a) (lit b)) in
        change (str_eqb (lit a) (lit b)) with v
    end.
  cbn [opt_or memo_id memo_type memo_status memo_owner memo_source memo_color
       memo_text memo_anchorText memo_anchor memo_createdAt memo_updatedAt].
  rewrite (or_else_filled (esc (memo_id m))), (or_else_filled (memo_type m)),
    (or_else_filled (memo_status m)), (or_else_filled (memo_owner m)),
    (or_else_filled (esc (memo_source m))), (or_else_filled (memo_color m)),
    (or_else_filled (memo_createdAt m)), (or_else_filled (memo_updatedAt m)) by done.
  by rewrite !or_else_nil.
Qed.

Lemma nl_free_memo_lines m : serializable_memo m -> Forall nl_free (memo_lines m).
Proof.
  intros (Hid & Hid' & Hty & Hst & How & Hso & Hso' & Hco & Hte & Hat & Han & Hcr & Hup).
  pose proof (esc_attr_safe _ Hid') as Fid. pose proof (esc_attr_safe _ Hso') as Fso.
  pose proof (esc_attr_safe _ Hte) as Fte. pose proof (esc_attr_safe _ Hat) as Fat.
  pose proof (esc_attr_safe _ Han) as Fan.
  unfold memo_lines.
  repeat match goal with
    | |- Forall nl_free (_ :: _) => constructor
    | |- Forall nl_free [] => constructor
    | |- nl_free (attr_line _ _) => apply nl_free_attr_line
    | |- nl_free (lit _) => by (vm_compute; repeat constructor)
    | H : filled ?s |- nl_free ?s => exact (attr_safe_nl _ (proj2 H))
    | H : attr_safe ?s |- nl_free ?s => exact (attr_safe_nl _ H)
    end.
Qed.

Lemma refill_nil m : refill [] m = m.
Proof. unfold refill. cbn. rewrite or_else_nil. by destruct m. Qed.

(** A text that opens with a comment holds no frontmatter. *)
Lemma splitDocument_comment ls :
  ls <> [] -> Forall nl_free ls ->
  starts_with (lit "<!--") (unlines ls) = true ->
  splitDocument clock (unlines ls) = parts_of [] (scan clock ls init_state).
Proof.
  intros Hne Hnl Hc. apply splitDocument_no_frontmatter; [done|done|].
  apply starts_with_true in Hc as [r ->]. reflexivity.
Qed.

End Records.

(** X11.  For a memo that fits the one-attribute-per-line form (no value
    holds a newline; the id and the source are not empty; the type, the
    status, the owner, the colour and the two time stamps are not empty and
    hold no double quote): its serialized form, split on its own, yields
    exactly one memo and nothing else, no body, no gate, no checkpoint, no
    cursor.  The memo read back is the memo written with the double quotes
    of its id, source, text, anchorText and anchor replaced by the entity
    the serializer writes for them, which the splitter never turns back; it
    is the memo written exactly when these five values hold no double
    quote. *)
Theorem serializeMemoV2_read_back (clock : Clock) (m : MemoV2) :
  serializable_memo m ->
  splitDocument clock (serializeMemoV2 m) = mkParts [] [] [escaped m] [] [] None [] /\
  (escaped m = m <-> unquoted m).
Proof.
  intros Hm. split; [|apply escaped_iff].
  change (serializeMemoV2 m) with (unlines (memo_lines m)).
  rewrite splitDocument_comment;
    [|done|by apply nl_free_memo_lines|reflexivity].
  unfold memo_lines at 1. rewrite scan_cons.
  pose proof (loop_body_memo_escaped clock m [] init_state Hm) as H.
  rewrite app_nil_r in H. unfold memo_lines in H. cbn [tail] in H.
  rewrite H. cbn [fst snd]. rewrite scan_nil. cbn. by rewrite refill_nil.
Qed.

Lemma serializeMemoV2_read_back_witness :
  splitDocument clock0
    (serializeMemoV2 (mkMemo (lit "m1") s_fix s_open s_human s_generic s_red
                             (lit "say " ++ quoted "hi") [] [] (lit "t0") (lit "t1")))
  = mkParts [] []
      [escaped (mkMemo (lit "m1") s_fix s_open s_human s_generic s_red
                       (lit "say " ++ quoted "hi") [] [] (lit "t0") (lit "t1"))]
      [] [] None [].
Proof.
  apply (serializeMemoV2_read_back clock0).
  unfold serializable_memo, filled, attr_safe, nl_free.
  repeat split; try discriminate;
    vm_compute; repeat constructor; discriminate.
Defined.

Section ReadBack.

Variable clock : Clock.

Lemma nl_free_lines_of s : Forall nl_free (lines_of s).
Proof. apply split_on_parts. Qed.

Lemma gate_read_back g :
  valid_gate g ->
  splitDocument clock (serializeGate g) = mkParts [] [] [] [] [g] None [].
Proof.
  intros Hg. rewrite <- (unlines_lines_of (serializeGate g)).
  rewrite lines_of_serializeGate by done.
  rewrite splitDocument_comment; [|done| |reflexivity].
  - unfold gate_lines at 1. rewrite scan_cons.
    pose proof (loop_body_gate_lines clock g [] init_state Hg) as H.
    rewrite app_nil_r in H. unfold gate_lines in H. cbn [tail] in H.
    rewrite H. cbn [fst snd]. by rewrite scan_nil.
  - rewrite <- lines_of_serializeGate by done. apply nl_free_lines_of.
Qed.

Lemma cursor_read_back c :
  valid_cursor c ->
  splitDocument clock (serializeCursor c) = mkParts [] [] [] [] [] (Some c) [].
Proof.
  intros Hc. rewrite <- (unlines_lines_of (serializeCursor c)).
  rewrite lines_of_serializeCursor by done.
  rewrite splitDocument_comment; [|done| |reflexivity].
  - unfold cursor_lines at 1. rewrite scan_cons.
    pose proof (loop_body_cursor_lines clock c [] init_state Hc) as H.
    rewrite app_nil_r in H. unfold cursor_lines in H. cbn [tail] in H.
    rewrite H. cbn [fst snd]. by rewrite scan_nil.
  - rewrite <- lines_of_serializeCursor by done. apply nl_free_lines_of.
Qed.

End ReadBack.

(** X12.  The serialized form of a valid gate, split on its own, yields
    exactly that gate and nothing else: [blockedBy] is written as a
    comma-separated list and read back id by id. *)
Theorem serializeGate_read_back (clock : Clock) (g : Gate) :
  valid_gate g ->
  splitDocument clock (serializeGate g) = mkParts [] [] [] [] [g] None [].
Proof. apply gate_read_back. Qed.

Lemma serializeGate_read_back_witness :
  splitDocument clock0 (serializeGate gate_m1) = mkParts [] [] [] [] [gate_m1] None [].
Proof.
  apply serializeGate_read_back.
  unfold valid_gate, valid_ref, filled, attr_safe, comma_free.
  repeat split; try discriminate;
    vm_compute; repeat constructor; discriminate.
Defined.

(** X13.  The serialized form of a valid plan cursor, split on its own,
    yields exactly that cursor and nothing else. *)
Theorem serializeCursor_read_back (clock : Clock) (c : PlanCursor) :
  valid_cursor c ->
  splitDocument clock (serializeCursor c) = mkParts [] [] [] [] [] (Some c) [].
Proof. apply cursor_read_back. Qed.

Lemma serializeCursor_read_back_witness :
  splitDocument clock0
    (serializeCursor (mkCursor (lit "T-1") (lit "3/7") (lit "run tests")
                               (lit "0a1b2c3d") (lit "t0")))
  = mkParts [] [] [] [] []
      (Some (mkCursor (lit "T-1") (lit "3/7") (lit "run tests") (lit "0a1b2c3d") (lit "t0")))
      [].
Proof.
  apply serializeCursor_read_back.
  unfold valid_cursor, filled, attr_safe.
  repeat split; try discriminate;
    vm_compute; repeat constructor; discriminate.
Defined.



(** ** Splitting a merged text *)

Section MergedScan.

Variable clock : Clock.

(** *** The memos after a body line *)

Lemma scan_memos ms rest st :
  Forall valid_memo ms ->
  scan clock (concat (map memo_lines ms) ++ rest) st =
  scan clock rest
    (mkState (st_bodyLines st) (st_memos st ++ map (refill (st_bodyLines st)) ms)
             (st_checkpoints st) (st_gates st) (st_cursor st)).
Proof.
  intros Hms. revert st. induction Hms as [|m ms Hm Hms IH]; intros st.
  - simpl. rewrite app_nil_r. by destruct st.
  - cbn [map concat]. rewrite <- app_assoc.
    unfold memo_lines at 1. cbn [app]. rewrite scan_cons.
    pose proof (loop_body_memo_lines clock m (concat (map memo_lines ms) ++ rest) st Hm) as H.
    unfold memo_lines in H at 1. cbn [tail app] in H. rewrite H. cbn [fst snd].
    rewrite IH. cbn. by rewrite <- app_assoc.
Qed.

(** *** The body section: each line with the memos placed after it *)

Lemma scan_body_lines ls (P : nat -> list MemoV2) rest st :
  Forall plain ls -> (forall i, Forall valid_memo (P i)) ->
  scan clock (concat (imap (fun i l => l :: concat (map memo_lines (P i))) ls) ++ rest) st =
  scan clock rest
    (mkState (st_bodyLines st ++ ls)
             (st_memos st
              ++ concat (imap (fun i _ => map (refill (st_bodyLines st ++ take (S i) ls)) (P i)) ls))
             (st_checkpoints st) (st_gates st) (st_cursor st)).
Proof.
  intros Hls. revert P st. induction Hls as [|l ls Hl Hls IH]; intros P st HP.
  - simpl. rewrite !app_nil_r. by destruct st.
  - cbn [imap concat]. rewrite <- !app_assoc. cbn [app].
    rewrite scan_cons, loop_body_plain by done. cbn [fst snd].
    rewrite scan_memos by done.
    rewrite (IH (fun i => P (S i))) by (intros i; apply HP).
    cbn [st_bodyLines st_memos st_checkpoints st_gates st_cursor push_body].
    f_equal. f_equal.
    + by rewrite <- app_assoc.
    + rewrite <- !app_assoc. f_equal. cbn [take]. f_equal. f_equal.
      apply imap_ext. intros i x _. cbn. by rewrite <- app_assoc.
Qed.

(** *** The sections after the body *)

Lemma scan_blank rest st :
  scan clock ([] :: rest) st = scan clock rest (push_body st []).
Proof. by rewrite scan_cons, (loop_body_plain _ _ _ _ plain_blank). Qed.

Lemma scan_gates gs rest st :
  Forall valid_gate gs ->
  scan clock (flat_map (fun g => gate_lines g ++ [[]]) gs ++ rest) st =
  scan clock rest
    (mkState (st_bodyLines st ++ repeat [] (length gs)) (st_memos st)
             (st_checkpoints st) (st_gates st ++ gs) (st_cursor st)).
Proof.
  intros Hgs. revert st. induction Hgs as [|g gs Hg Hgs IH]; intros st.
  - simpl. rewrite !app_nil_r. by destruct st.
  - cbn [flat_map]. rewrite <- !app_assoc.
    unfold gate_lines at 1. cbn [app]. rewrite scan_cons.
    pose proof (loop_body_gate_lines clock g
                  ([] :: flat_map (fun g => gate_lines g ++ [[]]) gs ++ rest) st Hg) as H.
    unfold gate_lines in H at 1. cbn [tail app] in H. rewrite H. cbn [fst snd].
    rewrite scan_blank, IH. cbn. by rewrite <- !app_assoc.
Qed.

Lemma scan_checkpoints cs rest st :
  Forall readable_checkpoint cs ->
  scan clock (flat_map (fun c => [serializeCheckpoint c; []]) cs ++ rest) st =
  scan clock rest
    (mkState (st_bodyLines st ++ repeat [] (length cs)) (st_memos st)
             (st_checkpoints st ++ cs) (st_gates st) (st_cursor st)).
Proof.
  intros Hcs. revert st. induction Hcs as [|c cs Hc Hcs IH]; intros st.
  - simpl. rewrite !app_nil_r. by destruct st.
  - cbn [flat_map app]. rewrite scan_cons, loop_body_checkpoint by done. cbn [fst snd].
    rewrite scan_blank, IH. cbn. by rewrite <- !app_assoc.
Qed.

Lemma scan_cursor c rest st :
  valid_cursor c ->
  scan clock (cursor_lines c ++ [] :: rest) st =
  scan clock rest
    (mkState (st_bodyLines st ++ [[]]) (st_memos st)
             (st_checkpoints st) (st_gates st) (Some c)).
Proof.
  intros Hc. unfold cursor_lines at 1. cbn [app]. rewrite scan_cons.
  pose proof (loop_body_cursor_lines clock c ([] :: rest) st Hc) as H.
  unfold cursor_lines in H at 1. cbn [tail app] in H. rewrite H. cbn [fst snd].
  by rewrite scan_blank.
Qed.

End MergedScan.

Section MergedText.

(** *** The lines of the merged text of a valid bundle *)

Lemma lines_of_memos xs :
  Forall valid_memo xs ->
  concat (map lines_of (map serializeMemoV2 xs)) = concat (map memo_lines xs).
Proof.
  induction 1 as [|m xs Hm _ IH]; cbn [map concat]; [done|].
  by rewrite lines_of_serializeMemoV2, IH.
Qed.

Lemma lines_of_groups ls (P : nat -> list MemoV2) :
  Forall nl_free ls -> (forall i, Forall valid_memo (P i)) ->
  concat (map lines_of (concat (imap (fun i l => l :: map serializeMemoV2 (P i)) ls))) =
  concat (imap (fun i l => l :: concat (map memo_lines (P i))) ls).
Proof.
  intros Hls. revert P. induction Hls as [|l ls Hl Hls IH]; intros P HP; [done|].
  cbn [imap concat]. rewrite map_app, concat_app. cbn [map concat app].
  rewrite lines_of_line by done. cbn [app]. f_equal.
  rewrite lines_of_memos by done. f_equal.
  apply (IH (fun i => P (S i))). intros i. apply HP.
Qed.

Lemma valid_memo_filter (sub : MemoV2 -> bool) ms :
  Forall valid_memo ms -> Forall valid_memo (List.filter sub ms).
Proof.
  intros Hms. apply Forall_forall. intros m Hm.
  apply list_elem_of_In, filter_In in Hm as [Hm _].
  rewrite Forall_forall in Hms. by apply Hms, list_elem_of_In.
Qed.

Lemma lines_of_body_with_memos body ms :
  Forall valid_memo ms ->
  lines_of (body_with_memos body ms) =
  concat (imap (fun i l => l :: concat (map memo_lines
                                          (placed_at (lines_of body) ms (Z.of_nat i))))
               (lines_of body))
  ++ concat (map memo_lines (unresolved (lines_of body) ms)).
Proof.
  intros Hms. unfold body_with_memos.
  pose proof (split_on_nonempty NL body) as Hne. fold (lines_of body) in Hne.
  pose proof (split_on_parts NL body) as Hnl. fold (lines_of body) in Hnl.
  unfold lines_of at 1, unlines. rewrite split_join_concat.
  2:{ destruct (lines_of body); [done|]. done. }
  fold lines_of. rewrite map_app, concat_app. f_equal.
  - apply (lines_of_groups _ (fun i => placed_at (lines_of body) ms (Z.of_nat i))); [done|].
    intros i. by apply valid_memo_filter.
  - apply lines_of_memos. by apply valid_memo_filter.
Qed.

Lemma starts_with_line p l t :
  nl_free p -> starts_with p (l ++ NL :: t) = starts_with p l.
Proof.
  unfold starts_with. intros Hp. revert l.
  induction Hp as [|a p Ha Hp IH]; intros l; [done|].
  destruct l as [|c l]; cbn [app strip_prefix].
  - by destruct (N.eqb_spec a NL).
  - destruct (a =? c); [apply IH|done].
Qed.

Lemma starts_with_unlines p l rest :
  nl_free p -> starts_with p (unlines (l :: rest)) = starts_with p l.
Proof.
  intros Hp. destruct rest as [|x rest]; [done|].
  change (unlines (l :: x :: rest)) with (l ++ NL :: unlines (x :: rest)).
  by apply starts_with_line.
Qed.

Lemma pop_blank_blanks ls bs :
  Forall (fun l => is_blank l = true) bs -> pop_blank (ls ++ bs) = pop_blank ls.
Proof.
  intros Hbs. unfold pop_blank. rewrite rev_app_distr. f_equal.
  assert (Forall (fun l => is_blank l = true) (rev bs)) as Hr.
  { apply Forall_forall. intros l Hl. rewrite Forall_forall in Hbs.
    apply Hbs. by apply list_elem_of_In, in_rev, list_elem_of_In. }
  induction Hr as [|b r Hb Hr IH]; [done|]. cbn [app drop_while]. by rewrite Hb.
Qed.

End MergedText.

Section RoundTrip.

Variable clock : Clock.

Lemma flat_map_lines {A} (f : A -> jsstring) (g : A -> list jsstring) (P : A -> Prop) xs :
  (forall x, P x -> lines_of (f x) ++ [[]] = g x) -> Forall P xs ->
  flat_map (fun s => lines_of s ++ [[]]) (map f xs) = flat_map g xs.
Proof.
  intros Hfg Hxs. induction Hxs as [|x xs Hx Hxs IH]; [done|].
  cbn [map flat_map]. by rewrite Hfg, IH.
Qed.

Lemma valid_checkpoints_readable cs :
  Forall valid_checkpoint cs -> Forall readable_checkpoint cs.
Proof. intros H. eapply Forall_impl; [exact H|]. by intros c [Hc _]. Qed.

Lemma merged_lines parts :
  valid_bundle parts ->
  lines_of (mergeDocument parts) =
  (concat (imap (fun i l => l :: concat (map memo_lines
                    (placed_at (lines_of (body parts)) (memos parts) (Z.of_nat i))))
                (lines_of (body parts)))
   ++ concat (map memo_lines (unresolved (lines_of (body parts)) (memos parts))))
  ++ [] :: flat_map (fun g => gate_lines g ++ [[]]) (gates parts)
  ++ flat_map (fun c => [serializeCheckpoint c; []]) (checkpoints parts)
  ++ match cursor parts with Some c => cursor_lines c ++ [[]] | None => [] end.
Proof.
  intros (Hfm & Hbody & Hms & Hgs & Hcs & Hcur).
  apply valid_checkpoints_readable in Hcs.
  rewrite mergeDocument_sections, lines_of_merged.
  2:{ unfold merged_sections. by destruct (truthy (frontmatter parts)). }
  unfold merged_sections. rewrite Hfm. cbn [truthy app flat_map].
  rewrite lines_of_body_with_memos by done. rewrite <- !app_assoc. do 2 f_equal.
  cbn [app]. f_equal. rewrite !flat_map_app. f_equal; [|f_equal].
  - apply (flat_map_lines _ _ valid_gate); [|done].
    intros g Hg. by rewrite lines_of_serializeGate.
  - apply (flat_map_lines _ _ readable_checkpoint); [|done].
    intros c Hc. by rewrite lines_of_serializeCheckpoint.
  - destruct (cursor parts) as [c|]; [|done]. cbn [flat_map].
    rewrite lines_of_serializeCursor by (by apply Hcur). by rewrite app_nil_r.
Qed.

Lemma merged_no_frontmatter parts :
  valid_bundle parts -> starts_with (lit "---") (mergeDocument parts) = false.
Proof.
  intros Hv. pose proof (merged_lines parts Hv) as Hl.
  destruct Hv as (_ & [_ Hb] & _).
  rewrite <- (unlines_lines_of (mergeDocument parts)), Hl.
  rewrite <- (unlines_lines_of (body parts)) in Hb.
  pose proof (split_on_nonempty NL (body parts)) as Hne. fold (lines_of (body parts)) in Hne.
  destruct (lines_of (body parts)) as [|l0 ls]; [done|].
  rewrite starts_with_unlines in Hb by (by vm_compute; repeat constructor).
  cbn [imap concat app]. by rewrite starts_with_unlines by (by vm_compute; repeat constructor).
Qed.

Lemma split_merged parts :
  valid_bundle parts -> splitDocument clock (mergeDocument parts) = reread parts.
Proof.
  intros Hv. unfold splitDocument.
  rewrite (exec_frontmatter_none _ (merged_no_frontmatter _ Hv)).
  fold (scan clock (lines_of (mergeDocument parts)) init_state).
  rewrite merged_lines by done.
  destruct Hv as (Hfm & [Hplain _] & Hms & Hgs & Hcs & Hcur).
  apply valid_checkpoints_readable in Hcs.
  rewrite <- app_assoc.
  rewrite scan_body_lines by (done || intros i; by apply valid_memo_filter).
  rewrite scan_memos by (by apply valid_memo_filter).
  rewrite scan_blank, scan_gates, scan_checkpoints by done.
  cbn [st_bodyLines st_memos st_checkpoints st_gates st_cursor init_state push_body app].
  assert (forall bl ms cs gs bs,
            Forall (fun l => is_blank l = true) bs ->
            let st := scan clock
                        match cursor parts with Some c => cursor_lines c ++ [[]] | None => [] end
                        (mkState (bl ++ bs) ms cs gs None) in
            exists bs', Forall (fun l => is_blank l = true) bs' /\
                        st = mkState (bl ++ bs') ms cs gs (cursor parts)) as Hlast.
  { intros bl ms cs gs bs Hbs. cbv zeta. destruct (cursor parts) as [c|].
    - rewrite scan_cursor by (by apply Hcur). rewrite scan_nil. cbn.
      exists (bs ++ [[]]). rewrite <- app_assoc. split; [|done].
      apply Forall_app. split; [done|]. by repeat constructor.
    - rewrite scan_nil. by exists bs. }
  rewrite <- !app_assoc.
  match goal with |- context [mkState (?bl ++ ?b1 ++ ?b2 ++ ?b3) ?ms ?cs ?gs None] =>
    destruct (Hlast bl ms cs gs (b1 ++ b2 ++ b3)) as (bs' & Hbs' & ->)
  end.
  { repeat (apply Forall_app; split); try (by repeat constructor);
      apply Forall_forall; intros l Hl; apply list_elem_of_In, repeat_spec in Hl; by subst. }
  unfold reread, recovered_memos.
  cbn [st_bodyLines st_memos st_checkpoints st_gates st_cursor].
  by rewrite pop_blank_blanks.
Qed.

End RoundTrip.

(** ** Round trips *)

Section Recovered.

Lemma refill_anchored above m : memo_anchorText m <> [] -> refill above m = m.
Proof.
  intros H. unfold refill, or_else.
  destruct (memo_anchorText m) eqn:E; [done|]. cbn [truthy]. rewrite <- E. by destruct m.
Qed.

Lemma map_refill_anchored above ms :
  Forall (fun m => memo_anchorText m <> []) ms -> map (refill above) ms = ms.
Proof.
  induction 1 as [|m ms Hm _ IH]; cbn [map]; [done|].
  by rewrite refill_anchored, IH.
Qed.

Lemma anchored_filter (sub : MemoV2 -> bool) ms :
  Forall (fun m => memo_anchorText m <> []) ms ->
  Forall (fun m => memo_anchorText m <> []) (List.filter sub ms).
Proof.
  intros Hms. apply Forall_forall. intros m Hm.
  apply list_elem_of_In, filter_In in Hm as [Hm _].
  rewrite Forall_forall in Hms. by apply Hms, list_elem_of_In.
Qed.

Lemma recovered_anchored lines ms :
  Forall (fun m => memo_anchorText m <> []) ms ->
  recovered_memos lines ms = emitted_memos lines ms.
Proof.
  intros Hms. unfold recovered_memos, emitted_memos. f_equal.
  - f_equal. apply imap_ext. intros i l _. cbv beta.
    apply map_refill_anchored. by apply anchored_filter.
  - apply map_refill_anchored. by apply anchored_filter.
Qed.

(** The ids of the memos read back. *)
Lemma map_id_refill above ms : map memo_id (map (refill above) ms) = map memo_id ms.
Proof. rewrite map_map. by apply map_ext. Qed.

Lemma recovered_ids lines ms :
  map memo_id (recovered_memos lines ms) = map memo_id (emitted_memos lines ms).
Proof.
  unfold recovered_memos, emitted_memos. rewrite !map_app, map_id_refill. f_equal.
  rewrite !concat_map. f_equal. rewrite !fmap_imap. apply imap_ext.
  intros i l _. cbn. apply map_id_refill.
Qed.

(** *** Merging the memos in the order of the merged text *)

Variable lines : list jsstring.

Let f := findMemoAnchorLine lines.

Lemma filter_placed_placed ms (i j : Z) :
  List.filter (fun m => (f m =? i)%Z) (List.filter (fun m => (f m =? j)%Z) ms) =
  if (i =? j)%Z then List.filter (fun m => (f m =? i)%Z) ms else [].
Proof.
  induction ms as [|m ms IH]; cbn [List.filter]; [by destruct (i =? j)%Z|].
  destruct (Z.eqb_spec (f m) j) as [Hj|Hj]; cbn [List.filter].
  - destruct (Z.eqb_spec (f m) i) as [Hi|Hi].
    + rewrite IH. destruct (Z.eqb_spec i j); [done|lia].
    + rewrite IH. done.
  - rewrite IH. destruct (Z.eqb_spec i j) as [->|]; [|done].
    by destruct (Z.eqb_spec (f m) j).
Qed.

Lemma filter_placed_groups ms (ls : list jsstring) (k : nat) (i : Z) :
  List.filter (fun m => (f m =? i)%Z)
    (concat (imap (fun j _ => List.filter (fun m => (f m =? Z.of_nat (k + j))%Z) ms) ls)) =
  if ((Z.of_nat k <=? i) && (i <? Z.of_nat (k + length ls)))%Z
  then List.filter (fun m => (f m =? i)%Z) ms else [].
Proof.
  revert k. induction ls as [|l ls IH]; intros k.
  - cbn. destruct (Z.leb_spec (Z.of_nat k) i), (Z.ltb_spec i (Z.of_nat (k + 0))); simpl; (done || lia).
  - cbn [imap concat length]. rewrite List.filter_app, filter_placed_placed.
    rewrite (imap_ext _ (fun j _ => List.filter (fun m => (f m =? Z.of_nat (S k + j))%Z) ms)).
    2:{ intros j x _. cbn. apply List.filter_ext. intros m. do 2 f_equal. lia. }
    rewrite (IH (S k)).
    rewrite Nat.add_0_r.
    destruct (Z.eqb_spec i (Z.of_nat k)) as [->|Hne].
    + destruct (Z.leb_spec (Z.of_nat (S k)) (Z.of_nat k)); [lia|]. cbn [andb].
      rewrite app_nil_r.
      destruct (Z.leb_spec (Z.of_nat k) (Z.of_nat k)); [|lia].
      destruct (Z.ltb_spec (Z.of_nat k) (Z.of_nat (k + S (length ls)))); [done|lia].
    + cbn [app].
      destruct (Z.leb_spec (Z.of_nat (S k)) i), (Z.leb_spec (Z.of_nat k) i),
        (Z.ltb_spec i (Z.of_nat (S k + length ls))),
        (Z.ltb_spec i (Z.of_nat (k + S (length ls)))); simpl; (done || lia).
Qed.

Lemma filter_placed_unresolved ms (i : Z) :
  (0 <= i)%Z ->
  List.filter (fun m => (f m =? i)%Z) (List.filter (fun m => (f m <? 0)%Z) ms) = [].
Proof.
  intros Hi. induction ms as [|m ms IH]; cbn [List.filter]; [done|].
  destruct (Z.ltb_spec (f m) 0); cbn [List.filter]; [|done].
  destruct (Z.eqb_spec (f m) i); [lia|done].
Qed.

Lemma filter_unresolved_placed ms (j : nat) :
  List.filter (fun m => (f m <? 0)%Z) (List.filter (fun m => (f m =? Z.of_nat j)%Z) ms) = [].
Proof.
  induction ms as [|m ms IH]; cbn [List.filter]; [done|].
  destruct (Z.eqb_spec (f m) (Z.of_nat j)); cbn [List.filter]; [|done].
  destruct (Z.ltb_spec (f m) 0); [lia|done].
Qed.

Lemma filter_unresolved_groups ms (ls : list jsstring) (k : nat) :
  List.filter (fun m => (f m <? 0)%Z)
    (concat (imap (fun j _ => List.filter (fun m => (f m =? Z.of_nat (k + j))%Z) ms) ls)) = [].
Proof.
  revert k. induction ls as [|l ls IH]; intros k; [reflexivity|].
  cbn [imap concat]. rewrite List.filter_app.
  rewrite (imap_ext _ (fun j _ => List.filter (fun m => (f m =? Z.of_nat (S k + j))%Z) ms)).
  2:{ intros j x _. cbn. apply List.filter_ext. intros m. do 2 f_equal. lia. }
  rewrite (IH (S k)), app_nil_r. apply filter_unresolved_placed.
Qed.

Lemma filter_unresolved_unresolved ms :
  List.filter (fun m => (f m <? 0)%Z) (List.filter (fun m => (f m <? 0)%Z) ms)
  = List.filter (fun m => (f m <? 0)%Z) ms.
Proof.
  induction ms as [|m ms IH]; cbn [List.filter]; [done|].
  destruct (f m <? 0)%Z eqn:E; cbn [List.filter]; [|done]. by rewrite E, IH.
Qed.

Lemma placed_emitted ms (i : nat) :
  (i < length lines)%nat ->
  placed_at lines (emitted_memos lines ms) (Z.of_nat i) = placed_at lines ms (Z.of_nat i).
Proof.
  intros Hi. unfold emitted_memos, unresolved, placed_at. rewrite List.filter_app.
  rewrite filter_placed_unresolved, app_nil_r by lia.
  pose proof (filter_placed_groups ms lines 0 (Z.of_nat i)) as H.
  cbn [Nat.add] in H. unfold f in H. rewrite H.
  destruct (Z.leb_spec (Z.of_nat 0) (Z.of_nat i)), (Z.ltb_spec (Z.of_nat i) (Z.of_nat (length lines)));
    (done || lia).
Qed.

Lemma unresolved_emitted ms :
  unresolved lines (emitted_memos lines ms) = unresolved lines ms.
Proof.
  unfold emitted_memos, unresolved, placed_at. rewrite List.filter_app.
  pose proof (filter_unresolved_groups ms lines 0) as H. cbn [Nat.add] in H.
  unfold f in H. rewrite H. apply filter_unresolved_unresolved.
Qed.

End Recovered.

Lemma body_with_memos_emitted body ms :
  body_with_memos body (emitted_memos (lines_of body) ms) = body_with_memos body ms.
Proof.
  unfold body_with_memos. rewrite unresolved_emitted. do 3 f_equal.
  apply imap_ext. intros i l Hl. cbv beta.
  rewrite placed_emitted; [done|]. by apply lookup_lt_Some in Hl.
Qed.

Section Plain.

Lemma strip_prefix_longer p q s :
  starts_with p s = false -> strip_prefix (p ++ q) s = None.
Proof.
  unfold starts_with. revert s. induction p as [|a p IH]; intros s; [done|].
  destruct s as [|c s]; cbn [app strip_prefix]; [done|].
  destruct (a =? c); [apply IH|done].
Qed.

Lemma no_comment_plain line : opens_no_comment line -> plain line.
Proof.
  unfold opens_no_comment, plain, is_plain. intros H. cbv zeta.
  assert (forall q R, test (Seq Bol (Seq (Lit (lit "<!--" ++ q)) R)) (trim line) = false) as Ht.
  { intros q R. apply test_lit_false. by apply strip_prefix_longer. }
  unfold MEMO_V3_RE, MEMO_V4_START_RE, GATE_START_RE, CURSOR_START_RE, CHECKPOINT_RE,
    LEGACY_MEMO_START_RE, BANNER_START_RE, FEEDBACK_NOTES_RE, seqs. cbn [fold_right].
  rewrite !(Ht (lit " USER_MEMO")), (Ht (lit " GATE")), (Ht (lit " PLAN_CURSOR")),
    (Ht (lit " CHECKPOINT")), (Ht (lit " @memo")), (Ht []), (Ht (lit " ")).
  done.
Qed.

End Plain.

Ltac chars := vm_compute; repeat constructor; discriminate.

Lemma sample_bundle_valid : valid_bundle sample_bundle.
Proof.
  unfold valid_bundle, sample_bundle. cbn [frontmatter body memos gates checkpoints cursor].
  split; [done|]. split; [split; [|reflexivity]|].
  { apply Forall_forall. intros l Hl. apply no_comment_plain.
    revert l Hl. apply Forall_forall. vm_compute. by repeat constructor. }
  split; [|split; [|split]].
  - constructor; [|constructor].
    unfold valid_memo, filled, attr_safe. repeat split; try discriminate; chars.
  - constructor; [|constructor].
    unfold valid_gate, valid_ref, filled, attr_safe, comma_free.
    repeat split; try discriminate; chars.
  - constructor; [|constructor].
    unfold valid_checkpoint, readable_checkpoint, safe_count, filled, attr_safe, comma_free.
    repeat split; try discriminate; try (right; discriminate); chars.
  - intros c [= <-]. unfold valid_cursor, filled, attr_safe.
    repeat split; try discriminate; chars.
Qed.





(** X17.  A text no line of which opens a comment (trimmed, it does not
    start with the comment opener) and which does not start like
    frontmatter is all body: splitting it returns the text with its
    trailing blank lines removed and nothing else, and when it has no
    trailing blank line merging the result appends one newline to it. *)
Theorem splitDocument_plain_text (clock : Clock) (text : jsstring) :
  Forall opens_no_comment (lines_of text) ->
  starts_with (lit "---") text = false ->
  splitDocument clock text = body_only (unlines (pop_blank (lines_of text))) /\
  (no_blank_end text -> mergeDocument (splitDocument clock text) = text ++ [NL]).
Proof.
  intros Hl Hf.
  assert (splitDocument clock text = body_only (unlines (pop_blank (lines_of text)))) as H.
  { rewrite <- (unlines_lines_of text) at 1.
    rewrite splitDocument_no_frontmatter.
    - rewrite <- (app_nil_r (lines_of text)) at 1.
      rewrite scan_plain, scan_nil, push_body_lines.
      + reflexivity.
      + eapply Forall_impl; [exact Hl|]. apply no_comment_plain.
    - apply split_on_nonempty.
    - apply split_on_parts.
    - by rewrite unlines_lines_of. }
  split; [done|]. intros Hb. rewrite H, Hb, unlines_lines_of. reflexivity.
Qed.

Lemma splitDocument_plain_text_witness :
  splitDocument clock0 (lit "# Plan" ++ [NL] ++ lit "- ship it" ++ [NL])
  = body_only (lit "# Plan" ++ [NL] ++ lit "- ship it").
Proof.
  apply (splitDocument_plain_text clock0 (lit "# Plan" ++ [NL] ++ lit "- ship it" ++ [NL])).
  - vm_compute. by repeat constructor.
  - reflexivity.
Defined.

(** ** Sections and checkpoints *)

Section Sections.

Lemma existsb_str_eqb c sections :
  existsb (str_eqb c) sections = true <-> In c sections.
Proof.
  rewrite existsb_exists. split.
  - intros (x & Hx & E). apply str_eqb_true in E. by subst.
  - intros H. exists c. split; [done|apply str_eqb_refl].
Qed.

Lemma sections_inv_sublist acc all : sections_inv acc all -> sublist acc.1 all.
Proof.
  intros (_ & _ & [(-> & _ & ->)|(pre & -> & [H|(r & -> & H)])]).
  - done.
  - by apply sublist_inserts_r.
  - by apply sublist_app.
Qed.

Lemma sections_inv_step acc all line :
  sections_inv acc all ->
  sections_inv (sections_step acc line)
               (match heading_of line with Some h => all ++ [h] | None => all end).
Proof.
  intros Hinv. pose proof (sections_inv_sublist _ _ Hinv) as Hsub.
  destruct acc as [sections current]. unfold sections_step.
  destruct (heading_of line) as [h|].
  - destruct Hinv as (Hnd & Hne & _). split; [done|]. split; [done|].
    right. exists all. split; [done|]. by left.
  - destruct (truthy current) eqn:Et; cbn [negb]; [|done].
    destruct (hasAnnotation line); cbn [andb]; [|done].
    destruct (existsb (str_eqb current) sections) eqn:Ex; cbn [negb]; [done|].
    assert (~ In current sections) as Hnin.
    { intros Hin. apply existsb_str_eqb in Hin. congruence. }
    destruct Hinv as (Hnd & Hne & [(_ & Hc & _)|(pre & -> & [H|(r & Hr & H)])]);
      cbn [fst snd] in *.
    + subst. done.
    + split; [|split].
      * apply NoDup_app. split; [done|]. split; [|by apply NoDup_singleton].
        intros x Hx Hx'. apply list_elem_of_In in Hx. apply list_elem_of_In in Hx'.
        destruct Hx' as [<-|[]]. done.
      * intros Hin. apply in_app_or in Hin as [Hin|[Hin|[]]]; [done|].
        subst. done.
      * right. exists pre. split; [done|]. right. by exists sections.
    + exfalso. apply Hnin. rewrite Hr. apply in_or_app. right. by left.
Qed.

Lemma sections_inv_fold lines acc all :
  sections_inv acc all ->
  sections_inv (fold_left sections_step lines acc)
               (fold_left (fun sections line =>
                             match heading_of line with
                             | Some h => sections ++ [h]
                             | None => sections
                             end) lines all).
Proof.
  revert acc all. induction lines as [|l lines IH]; intros acc all H; [done|].
  cbn [fold_left]. apply IH. by apply sections_inv_step.
Qed.

Lemma reviewed_sections markdown :
  sublist (getSectionsWithAnnotations markdown) (getAllSections markdown) /\
  NoDup (getSectionsWithAnnotations markdown) /\
  ~ In [] (getSectionsWithAnnotations markdown).
Proof.
  unfold getSectionsWithAnnotations, getAllSections.
  assert (sections_inv ([], []) []) as H0.
  { split; [constructor|]. split; [by intros []|]. by left. }
  pose proof (sections_inv_fold (lines_of markdown) _ _ H0) as H.
  split; [by apply sections_inv_sublist|]. destruct H as (Hnd & Hne & _). done.
Qed.

End Sections.

(** X18.  The reviewed sections are sections of the document: the list
    [getSectionsWithAnnotations] returns is a sublist of the list
    [getAllSections] returns (the same headings, in document order), it
    holds no heading twice, and it never holds the empty heading. *)
Theorem reviewed_sections_are_sections (markdown : jsstring) :
  sublist (getSectionsWithAnnotations markdown) (getAllSections markdown) /\
  NoDup (getSectionsWithAnnotations markdown) /\
  ~ In [] (getSectionsWithAnnotations markdown).
Proof. apply reviewed_sections. Qed.

Section Counting.

(** Every turn of a counting loop adds one to one counter. *)
Lemma count_color_total cn acc :
  fixes (count_color cn acc) + questions (count_color cn acc)
  + highlights (count_color cn acc) = fixes acc + questions acc + highlights acc + 1.
Proof.
  unfold count_color. destruct cn as [c|]; [|simpl; lia].
  destruct (str_eqb c s_red); [simpl; lia|].
  destruct (str_eqb c s_blue); simpl; lia.
Qed.

Lemma count_fold_total {A} (step : AnnotationCounts -> A -> AnnotationCounts)
    (l : list A) acc :
  (forall acc x, fixes (step acc x) + questions (step acc x) + highlights (step acc x)
                 = fixes acc + questions acc + highlights acc + 1) ->
  let r := fold_left step l acc in
  fixes r + questions r + highlights r =
  fixes acc + questions acc + highlights acc + N.of_nat (length l).
Proof.
  intros Hstep. revert acc. induction l as [|x l IH]; intros acc; cbn [fold_left length].
  - cbv zeta. lia.
  - cbv zeta in *. rewrite IH, Hstep. lia.
Qed.

(** An expression that starts with a literal finds nothing in a text that
    does not contain the literal. *)
Lemma exec_all_absent (R : re) (l : jsstring) (s : jsstring) prev :
  (forall prev s, starts_with l s = false -> match_at R prev s = None) ->
  includes l s = false -> exec_all R prev s 0 = [].
Proof.
  intros HR. revert prev. induction s as [|c s IH]; intros prev Hs.
  - cbn [exec_all]. cbn in Hs. apply orb_false_iff in Hs as [Hs _].
    by rewrite HR.
  - cbn [includes] in Hs. apply orb_false_iff in Hs as [Hs Hs'].
    cbn [exec_all]. rewrite HR by done. by apply IH.
Qed.

Lemma match_at_lit l R prev s :
  starts_with l s = false -> match_at (Seq (Lit l) R) prev s = None.
Proof.
  unfold starts_with, match_at. cbn [matches]. intros H.
  by destruct (strip_prefix l s).
Qed.

Lemma match_at_behind_lit c l R prev s :
  starts_with l s = false -> match_at (Seq (NotBehind c) (Seq (Lit l) R)) prev s = None.
Proof.
  unfold starts_with, match_at. cbn [matches]. intros H.
  destruct (opt_is (N.eqb c) prev); [done|]. cbn [flat_map].
  by destruct (strip_prefix l s).
Qed.

End Counting.

(** X19.  [getAnnotationCounts] counts every match of its three patterns
    exactly once: the three counters add up to the number of memo comments,
    styled marks and double-equals highlights found.  A text that contains
    neither the memo opener, nor a mark tag, nor two equals signs in a row
    has all three counters at zero. *)
Theorem getAnnotationCounts_counts_matches (markdown : jsstring) :
  fixes (getAnnotationCounts markdown) + questions (getAnnotationCounts markdown)
  + highlights (getAnnotationCounts markdown)
  = N.of_nat (length (exec_all memoRe None markdown 0)
              + length (exec_all markRe None markdown 0)
              + length (exec_all eqRe None markdown 0)) /\
  (includes (lit "<!-- USER_MEMO") markdown = false ->
   includes (lit "<mark") markdown = false ->
   includes (lit "==") markdown = false ->
   getAnnotationCounts markdown = mkCounts 0 0 0).
Proof.
  split.
  - unfold getAnnotationCounts. cbv zeta.
    repeat match goal with
      | |- context [fold_left ?step ?l ?acc] =>
          lazymatch acc with
          | context [fold_left] => fail
          | _ => idtac
          end;
          let H := fresh "H" in
          pose proof (count_fold_total step l acc) as H; cbv zeta in H;
          let r := fresh "acc" in
          set (r := fold_left step l acc) in *
      end.
    rewrite H1, H0, H.
    + simpl. lia.
    + intros acc2 [[? ?] ?]. apply count_color_total.
    + intros acc2 [[? ?] ?]. apply count_color_total.
    + intros acc2 x. simpl. lia.
  - intros Hm Hk He. unfold getAnnotationCounts. cbv zeta.
    rewrite (exec_all_absent memoRe (lit "<!-- USER_MEMO")), 
      (exec_all_absent markRe (lit "<mark")), (exec_all_absent eqRe (lit "==")); try done.
    + intros prev s. apply match_at_behind_lit.
    + intros prev s. apply match_at_lit.
    + intros prev s. apply match_at_lit.
Qed.

Lemma getAnnotationCounts_counts_matches_witness :
  getAnnotationCounts (lit "# Plan" ++ [NL] ++ lit "a = b") = mkCounts 0 0 0.
Proof.
  apply (getAnnotationCounts_counts_matches (lit "# Plan" ++ [NL] ++ lit "a = b"));
    reflexivity.
Defined.

(** ** Creating a checkpoint *)

Section TrailingSpace.

Lemma drop_while_prefix {A} (p : A -> bool) (xs ys : list A) :
  Forall (fun c => p c = true) xs -> drop_while p (xs ++ ys) = drop_while p ys.
Proof. induction 1 as [|x xs Hx _ IH]; cbn [app drop_while]; [done|]. by rewrite Hx. Qed.

Lemma take_while_sub {A} (P : A -> Prop) (p : A -> bool) (s : list A) :
  Forall P s -> Forall P (take_while p s).
Proof.
  induction 1 as [|c s Hc Hs IH]; simpl; [done|].
  destruct (p c); [by constructor|done].
Qed.

Lemma trimEnd_split s :
  exists ws, s = trimEnd s ++ ws /\ Forall (fun c => is_ws c = true) ws.
Proof.
  unfold trimEnd. exists (rev (take_while is_ws (rev s))). split.
  - by rewrite <- rev_app_distr, take_drop_while, rev_involutive.
  - apply Forall_rev, take_while_all.
Qed.

Lemma trimEnd_last s :
  match last (trimEnd s) with Some c => is_ws c = false | None => True end.
Proof. apply drop_while_rev_last. Qed.

Lemma trimEnd_app_ws x w :
  Forall (fun c => is_ws c = true) w -> trimEnd (x ++ w) = trimEnd x.
Proof.
  intros Hw. unfold trimEnd. rewrite rev_app_distr, drop_while_prefix; [done|].
  by apply Forall_rev.
Qed.

Lemma trim_app_ws l w :
  Forall (fun c => is_ws c = true) w -> trim (l ++ w) = trim l.
Proof.
  intros Hw. unfold trim, trimStart.
  destruct (drop_while is_ws l) as [|c r] eqn:E.
  - apply drop_while_nil_iff, forallb_Forall in E.
    rewrite drop_while_prefix, drop_while_all by done. done.
  - assert (drop_while is_ws (l ++ w) = (c :: r) ++ w) as ->.
    { clear Hw. induction l as [|x l IH]; [done|]. cbn [app drop_while] in *.
      destruct (is_ws x); [by apply IH|]. by injection E as -> ->. }
    by apply trimEnd_app_ws.
Qed.

Lemma blank_all_ws l : is_blank l = true -> Forall (fun c => is_ws c = true) l.
Proof.
  unfold is_blank. rewrite negb_true_iff, truthy_false. unfold trim, trimEnd, trimStart.
  intros H. apply (f_equal (@rev N)) in H. rewrite rev_involutive in H. cbn in H.
  destruct (drop_while is_ws l) as [|c r] eqn:E.
  - by apply drop_while_nil_iff, forallb_Forall in E.
  - apply drop_while_head in E.
    apply drop_while_nil_iff, forallb_Forall, Forall_rev in H.
    rewrite rev_involutive in H. inversion H; subst. congruence.
Qed.

Lemma unlines_snoc_app ls l w : unlines (ls ++ [l]) ++ w = unlines (ls ++ [l ++ w]).
Proof.
  induction ls as [|x ls IH]; [done|].
  cbn [app]. unfold unlines in *. destruct ls as [|y ls].
  - cbn. by rewrite <- !app_assoc.
  - change (join [NL] (x :: (y :: ls) ++ [l])) with (x ++ [NL] ++ join [NL] ((y :: ls) ++ [l])).
    change (join [NL] (x :: (y :: ls) ++ [l ++ w]))
      with (x ++ [NL] ++ join [NL] ((y :: ls) ++ [l ++ w])).
    by rewrite <- IH, <- !app_assoc.
Qed.

Lemma lines_of_app_nosep t w ls l :
  nl_free w -> lines_of t = ls ++ [l] -> lines_of (t ++ w) = ls ++ [l ++ w].
Proof.
  intros Hw Ht. pose proof (split_on_parts NL t) as Hp. fold (lines_of t) in Hp.
  rewrite Ht in Hp. apply Forall_app in Hp as [Hls Hl]. inversion Hl; subst.
  rewrite <- (unlines_lines_of t), Ht, unlines_snoc_app.
  apply lines_of_unlines; [by destruct ls|].
  apply Forall_app. split; [done|]. constructor; [|done]. by apply Forall_app.
Qed.

Lemma lines_of_ws t ws :
  Forall (fun c => is_ws c = true) ws ->
  exists ls l w rest,
    lines_of t = ls ++ [l] /\ lines_of (t ++ ws) = ls ++ (l ++ w) :: rest /\
    Forall (fun c => is_ws c = true) w.
Proof.
  intros Hws. pose proof (split_on_nonempty NL t) as Hne. fold (lines_of t) in Hne.
  destruct (lines_of t) as [|l ls _] eqn:Et using rev_ind; [done|]. clear Hne.
  exists ls, l, (take_while (not_chr NL) ws).
  pose proof (take_drop_while (not_chr NL) ws) as Hsplit.
  assert (nl_free (take_while (not_chr NL) ws)) as Hnl.
  { eapply Forall_impl; [apply (take_while_all (not_chr NL))|].
    intros c Hc ->. done. }
  assert (Forall (fun c => is_ws c = true) (take_while (not_chr NL) ws)) as Hw
    by (by apply take_while_sub).
  remember (take_while (not_chr NL) ws) as w eqn:Ew. clear Ew.
  destruct (drop_while (not_chr NL) ws) as [|c ws'] eqn:Ed.
  - exists []. rewrite app_nil_r in Hsplit. subst w.
    split; [done|]. split; [by apply lines_of_app_nosep|done].
  - exists (lines_of ws'). split; [done|]. split; [|done].
    apply drop_while_head in Ed. unfold not_chr in Ed.
    apply negb_false_iff, N.eqb_eq in Ed. subst c.
    rewrite <- Hsplit, app_assoc. unfold lines_of at 1. rewrite split_on_app.
    fold lines_of. rewrite (lines_of_app_nosep _ _ ls l) by done.
    by rewrite <- app_assoc.
Qed.

Lemma opens_no_comment_trimEnd md :
  Forall opens_no_comment (lines_of md) ->
  Forall opens_no_comment (lines_of (trimEnd md)).
Proof.
  intros H. destruct (trimEnd_split md) as (ws & Hmd & Hws).
  destruct (lines_of_ws (trimEnd md) ws Hws) as (ls & l & w & rest & Ht & Hall & Hw).
  rewrite <- Hmd in Hall. rewrite Hall in H. rewrite Ht.
  apply Forall_app in H as [Hls Hl]. inversion Hl as [|? ? Hl' _]; subst.
  apply Forall_app. split; [done|]. constructor; [|done].
  unfold opens_no_comment in *. by rewrite trim_app_ws in Hl'.
Qed.

Lemma starts_with_prefix p t x :
  starts_with p (t ++ x) = false -> starts_with p t = false.
Proof.
  intros H. apply not_true_iff_false. intros Ht.
  apply starts_with_true in Ht as [r ->].
  rewrite <- app_assoc, starts_with_app in H. done.
Qed.

Lemma body_of_trimEnd md : unlines (pop_blank (lines_of (trimEnd md))) = trimEnd md.
Proof.
  pose proof (trimEnd_last md) as Hlast.
  pose proof (unlines_lines_of (trimEnd md)) as Hu.
  pose proof (split_on_nonempty NL (trimEnd md)) as Hne. fold (lines_of (trimEnd md)) in Hne.
  destruct (lines_of (trimEnd md)) as [|l ls _] using rev_ind; [done|]. clear Hne.
  destruct (is_blank l) eqn:Eb.
  - assert (l = []) as ->.
    { destruct l as [|c l' _] using rev_ind; [done|].
      apply blank_all_ws, Forall_app in Eb as [_ Hc]. inversion Hc; subst.
      rewrite <- Hu in Hlast. unfold unlines in Hlast.
      rewrite last_join, last_snoc in Hlast by (by destruct l'). congruence. }
    destruct ls as [|x ls _] using rev_ind.
    + by rewrite <- Hu.
    + rewrite <- Hu in Hlast. unfold unlines in Hlast.
      rewrite join_app in Hlast by (done || by destruct ls).
      cbn [join] in Hlast. rewrite app_nil_r, last_app in Hlast. cbn in Hlast. done.
  - unfold pop_blank. rewrite rev_app_distr. cbn [rev app drop_while]. rewrite Eb.
    cbn [rev]. by rewrite rev_involutive.
Qed.

End TrailingSpace.

Section Create.

Lemma alphabet_safe : attr_safe ALPHABET.
Proof. vm_compute. repeat constructor; discriminate. Qed.

Lemma draw_safe d :
  attr_safe (match ALPHABET !! d with Some c => [c] | None => lit "undefined" end).
Proof.
  destruct (ALPHABET !! d) as [c|] eqn:E.
  - apply list_elem_of_lookup_2 in E. constructor; [|constructor].
    pose proof alphabet_safe as H. unfold attr_safe in H. rewrite Forall_forall in H.
    by apply H.
  - vm_compute. repeat constructor; discriminate.
Qed.

Lemma nanoid6_safe draw : attr_safe (nanoid6 draw).
Proof.
  unfold nanoid6. cbn [fold_left seq]. unfold attr_safe.
  repeat (apply Forall_app; split); try apply draw_safe. constructor.
Qed.

Lemma Forall_sublist_of {A} (P : A -> Prop) (l k : list A) :
  sublist l k -> Forall P k -> Forall P l.
Proof.
  induction 1 as [|x l k _ IH|x l k _ IH]; intros H; [done| |].
  - inversion H; subst. constructor; [done|by apply IH].
  - inversion H; subst. by apply IH.
Qed.

Lemma join_nonempty sep x xs : x <> [] -> join sep (x :: xs) <> [].
Proof. intros Hx. destruct x; [done|]. by destruct xs. Qed.

Variables (draw : nat -> nat) (clock : Clock) (markdown note : jsstring).

Hypothesis Hsections :
  Forall (fun h => attr_safe h /\ comma_free h) (getAllSections markdown).
Hypothesis Hnote : attr_safe note.
Hypothesis Hclock : filled (clock_iso clock).

Lemma created_valid : readable_checkpoint (checkpoint (createCheckpoint draw clock markdown note)).
Proof.
  unfold createCheckpoint. cbv zeta. cbn [checkpoint]. unfold readable_checkpoint.
  cbn [cp_id cp_timestamp cp_note cp_sectionsReviewed].
  destruct (reviewed_sections markdown) as (Hsub & _ & Hne).
  split; [|split; [done|split; [done|split]]].
  - split; [done|]. apply Forall_app. split; [|apply nanoid6_safe].
    vm_compute. repeat constructor; discriminate.
  - by apply (Forall_sublist_of _ _ _ Hsub).
  - destruct (getSectionsWithAnnotations markdown) as [|s secs]; [by left|].
    right. apply join_nonempty. intros ->. apply Hne. by left.
Qed.

Lemma lines_of_updated :
  lines_of (updatedMarkdown (createCheckpoint draw clock markdown note)) =
  lines_of (trimEnd markdown)
  ++ [[]; serializeCheckpoint (checkpoint (createCheckpoint draw clock markdown note)); []].
Proof.
  pose proof (lines_of_serializeCheckpoint _ created_valid) as Hl.
  unfold createCheckpoint in *. cbv zeta in *. cbn [updatedMarkdown checkpoint] in *.
  set (comment := serializeCheckpoint _) in *.
  unfold lines_of in *. cbn [app]. rewrite split_on_app. f_equal.
  change (NL :: comment ++ [NL]) with ([] ++ NL :: comment ++ [NL]).
  rewrite split_on_app, split_on_app, Hl. done.
Qed.

End Create.

(** X20.  The checkpoint [createCheckpoint] appends is read back by
    [splitDocument].  For a text no line of which opens a comment and which
    does not start like frontmatter, a note without newline and double
    quote, headings without comma and double quote, and a non-empty time
    stamp: splitting the updated text yields exactly the checkpoint that was
    created (whatever the six random draws of its id are), no memo, gate or
    cursor, and as body the original text with its trailing white space
    removed. *)
Theorem createCheckpoint_read_back
    (draw : nat -> nat) (clock clock' : Clock) (markdown note : jsstring) :
  Forall opens_no_comment (lines_of markdown) ->
  starts_with (lit "---") markdown = false ->
  Forall (fun h => attr_safe h /\ comma_free h) (getAllSections markdown) ->
  attr_safe note ->
  filled (clock_iso clock) ->
  let r := createCheckpoint draw clock markdown note in
  splitDocument clock' (updatedMarkdown r)
  = mkParts [] (trimEnd markdown) [] [checkpoint r] [] None [].
Proof.
  intros Hlines Hfm Hsecs Hnote Hclock r.
  pose proof (created_valid draw clock markdown note Hsecs Hnote Hclock) as Hvalid.
  pose proof (lines_of_updated draw clock markdown note Hsecs Hnote Hclock) as Hl.
  fold r in Hvalid, Hl.
  rewrite <- (unlines_lines_of (updatedMarkdown r)).
  rewrite splitDocument_no_frontmatter.
  - rewrite Hl, scan_plain.
    2:{ eapply Forall_impl; [apply opens_no_comment_trimEnd, Hlines|].
        apply no_comment_plain. }
    rewrite push_body_lines, scan_blank, scan_cons, loop_body_checkpoint by done.
    cbn [fst snd]. rewrite scan_blank, scan_nil. unfold parts_of.
    cbn [st_bodyLines st_memos st_checkpoints st_gates st_cursor init_state
         push_body push_checkpoint app].
    rewrite <- app_assoc, pop_blank_blanks by (by repeat constructor).
    by rewrite body_of_trimEnd.
  - apply split_on_nonempty.
  - apply split_on_parts.
  - rewrite unlines_lines_of. subst r. unfold createCheckpoint. cbv zeta.
    cbn [updatedMarkdown app].
    rewrite starts_with_line by (by vm_compute; repeat constructor).
    destruct (trimEnd_split markdown) as (ws & Hmd & _). rewrite Hmd in Hfm.
    by apply starts_with_prefix in Hfm.
Qed.

Lemma createCheckpoint_read_back_witness :
  let md := lit "## Intro" ++ [NL] ++ lit "a ==key== point" ++ [NL; NL] in
  let r := createCheckpoint (fun _ => 7%nat) clock0 md (lit "pass 1") in
  splitDocument clock0 (updatedMarkdown r)
  = mkParts [] (lit "## Intro" ++ [NL] ++ lit "a ==key== point") [] [checkpoint r] [] None [].
Proof.
  apply (createCheckpoint_read_back (fun _ => 7%nat) clock0 clock0
           (lit "## Intro" ++ [NL] ++ lit "a ==key== point" ++ [NL; NL]) (lit "pass 1")).
  - vm_compute. by repeat constructor.
  - reflexivity.
  - vm_compute. repeat constructor; discriminate.
  - vm_compute. repeat constructor; discriminate.
  - split; [discriminate|]. vm_compute. repeat constructor; discriminate.
Defined.

(** ** What holds for every input *)

Section BodyLinesKept.

(** *** The merger keeps the body lines *)

Lemma sublist_groups (ls : list jsstring) (P : nat -> list jsstring) :
  Forall nl_free ls ->
  sublist ls (concat (map lines_of (concat (imap (fun i l => l :: P i) ls)))).
Proof.
  intros Hls. revert P. induction Hls as [|l ls Hl Hls IH]; intros P; [constructor|].
  cbn [imap concat]. rewrite map_app, concat_app. cbn [map concat].
  rewrite lines_of_line by done. cbn [app]. apply sublist_skip.
  apply sublist_inserts_l, (IH (fun i => P (S i))).
Qed.

Lemma body_lines_kept body ms :
  sublist (lines_of body) (lines_of (reinsertMemos body ms)).
Proof.
  rewrite reinsertMemos_spec. unfold body_with_memos.
  pose proof (split_on_nonempty NL body) as Hne. fold (lines_of body) in Hne.
  pose proof (split_on_parts NL body) as Hnl. fold (lines_of body) in Hnl.
  unfold lines_of at 2, unlines. rewrite split_join_concat.
  2:{ destruct (lines_of body); [done|]. done. }
  fold lines_of. rewrite map_app, concat_app. apply sublist_inserts_r.
  apply (sublist_groups _ (fun i => map serializeMemoV2
                                      (placed_at (lines_of body) ms (Z.of_nat i)))).
  done.
Qed.

End BodyLinesKept.

(** X21.  Merging never drops, changes or reorders a body line: the lines
    of the body are a sublist of the lines of the text [reinsertMemos]
    returns, and of the lines of the merged document, for every bundle,
    valid or not. *)
Theorem mergeDocument_keeps_body_lines (parts : DocumentParts) :
  sublist (lines_of (body parts))
          (lines_of (reinsertMemos (body parts) (memos parts))) /\
  sublist (lines_of (body parts)) (lines_of (mergeDocument parts)).
Proof.
  split; [apply body_lines_kept|].
  unfold mergeDocument. rewrite lines_of_merged.
  2:{ by destruct (truthy (frontmatter parts)). }
  rewrite flat_map_app. apply sublist_inserts_l.
  cbn [app flat_map]. rewrite <- app_assoc. apply sublist_inserts_r, body_lines_kept.
Qed.

Section Engine.

(** A success of the matcher splits the text into what it consumed and
    what remains. *)
Lemma matches_sound r prev s cs c rest cs' :
  In (c, rest, cs') (matches r prev s cs) -> s = c ++ rest.
Proof.
  revert prev s cs c rest cs'.
  induction r as [l|p|lazy min p|r IH|r1 IH1 r2 IH2|r1 IH1 r2 IH2|n r IH| | | | |r IH|x];
    intros prev s cs c rest cs'; cbn [matches].
  - destruct (strip_prefix l s) as [r|] eqn:E; [|done].
    intros [[= <- <- <-]|[]]. by apply strip_prefix_Some.
  - destruct s as [|c0 s]; [done|]. destruct (p c0); [|done].
    by intros [[= <- <- <-]|[]].
  - rewrite in_map_iff. intros ([run rest'] & [= <- <- <-] & Hin).
    assert (In (run, rest') (runs p s)) as Hr.
    { destruct lazy; [apply in_rev in Hin|]; by apply filter_In in Hin as [Hin _]. }
    by apply runs_spec in Hr as [-> _].
  - rewrite in_app_iff. intros [H|[[= <- <- <-]|[]]]; [by apply IH in H|done].
  - rewrite in_flat_map. intros ([[c1 rest1] cs1] & H1 & H2).
    apply in_map_iff in H2 as ([[c2 rest2] cs2] & [= <- <- <-] & H2).
    apply IH1 in H1. apply IH2 in H2. subst. by rewrite app_assoc.
  - rewrite in_app_iff. intros [H|H]; [by apply IH1 in H|by apply IH2 in H].
  - rewrite in_map_iff. intros ([[c1 rest1] cs1] & [= <- <- <-] & H). by apply IH in H.
  - destruct prev; [done|]. by intros [[= <- <- <-]|[]].
  - destruct prev as [x|]; [destruct (is_line_terminator x)|];
      try done; by intros [[= <- <- <-]|[]].
  - destruct s; [|done]. by intros [[= <- <- <-]|[]].
  - destruct (xorb _ _); [|done]. by intros [[= <- <- <-]|[]].
  - destruct (matches r prev s cs); [|done]. by intros [[= <- <- <-]|[]].
  - destruct (opt_is _ prev); [done|]. by intros [[= <- <- <-]|[]].
Qed.

(** An expression anchored at the start matches a prefix of the text. *)
Lemma exec_bol_prefix r s m :
  exec (Seq Bol r) s = Some m -> f_before m = [] /\ s = f_text m ++ f_after m.
Proof.
  rewrite exec_bol. destruct (matches r None s []) as [|[[t rest] cs] l] eqn:E; [done|].
  intros [= <-]. split; [done|]. cbn. apply (matches_sound r None s [] t rest cs).
  rewrite E. by left.
Qed.

End Engine.

Section Loop.

Variable clock : Clock.

Lemma take_block_shape is_end ls :
  exists mid, ls = (take_block is_end ls).1 ++ mid ++ (take_block is_end ls).2.
Proof.
  induction ls as [|l ls [mid IH]]; cbn [take_block]; [by exists []|].
  destruct (is_end l).
  - by exists [l].
  - destruct (take_block is_end ls) as [block rest]. cbn [fst snd] in *.
    exists mid. cbn [app]. by f_equal.
Qed.

Lemma skip_banner_shape ls : exists mid, ls = mid ++ skip_banner ls.
Proof.
  induction ls as [|l ls [mid IH]]; cbn [skip_banner]; [by exists []|].
  destruct (includes _ l).
  - by exists [l].
  - exists (l :: mid). cbn [app]. by f_equal.
Qed.

(** What one turn of the scanning loop can do. *)
Lemma loop_body_cases line rest st :
  let ls' := (loop_body clock line rest st).1 in
  let st' := (loop_body clock line rest st).2 in
  (exists m mid, st' = push_memo st m /\ rest = mid ++ ls') \/
  (exists block mid, st' = push_gate st (gate_of_attrs clock (parseAttrs block))
                     /\ rest = block ++ mid ++ ls') \/
  (exists block mid, st' = set_cursor st (cursor_of_attrs clock (parseAttrs block))
                     /\ rest = block ++ mid ++ ls') \/
  (exists c, st' = push_checkpoint st c /\ rest = ls') \/
  (exists mid, st' = st /\ line :: rest = mid ++ ls') \/
  (st' = push_body st line /\ rest = ls').
Proof.
  cbv zeta. unfold loop_body.
  destruct (exec MEMO_V3_RE (trim line)) as [m|].
  { left. eexists _, []. by split. }
  destruct (test MEMO_V4_START_RE (trim line)).
  { destruct (take_block_shape (closes MEMO_V4_END_RE) rest) as [mid H].
    destruct (take_block _ rest) as [block ls']. cbn [fst snd] in *.
    left. eexists _, (block ++ mid). split; [done|]. by rewrite <- app_assoc. }
  destruct (test GATE_START_RE (trim line)).
  { destruct (take_block_shape (closes GATE_END_RE) rest) as [mid H].
    destruct (take_block _ rest) as [block ls']. cbn [fst snd] in *.
    right. left. by exists block, mid. }
  destruct (test CURSOR_START_RE (trim line)).
  { destruct (take_block_shape (closes CURSOR_END_RE) rest) as [mid H].
    destruct (take_block _ rest) as [block ls']. cbn [fst snd] in *.
    right. right. left. by exists block, mid. }
  destruct (exec CHECKPOINT_RE (trim line)) as [m|].
  { right. right. right. left. by eexists. }
  destruct (exec LEGACY_MEMO_START_RE (trim line)) as [m|].
  { destruct (take_block_shape (closes LEGACY_MEMO_END_RE) rest) as [mid H].
    destruct (take_block _ rest) as [block ls']. cbn [fst snd] in *.
    left. eexists _, (block ++ mid). split; [done|]. by rewrite <- app_assoc. }
  destruct (test BANNER_START_RE (trim line) && _).
  { destruct (skip_banner_shape (line :: rest)) as [mid H]. cbn [fst snd].
    right. right. right. right. left. by exists mid. }
  destruct (test FEEDBACK_NOTES_RE (trim line)); cbn [fst snd].
  - right. right. right. right. left. by exists [line].
  - right. right. right. right. right. done.
Qed.

(** The body lines are lines of the text, in their order. *)
Lemma split_loop_body fuel ls st :
  exists k, st_bodyLines (split_loop clock fuel ls st) = st_bodyLines st ++ k /\
            sublist k ls.
Proof.
  revert ls st. induction fuel as [|fuel IH]; intros ls st.
  { exists []. rewrite app_nil_r. split; [by destruct ls|apply sublist_nil_l]. }
  destruct ls as [|line rest].
  { exists []. rewrite app_nil_r. split; [done|constructor]. }
  cbn [split_loop]. pose proof (loop_body_cases line rest st) as Hc. cbv zeta in Hc.
  destruct (loop_body clock line rest st) as [ls' st']. cbn [fst snd] in Hc.
  destruct (IH ls' st') as (k & Hk & Hsub). rewrite Hk.
  destruct Hc as [(m & mid & -> & ->)|[(b & mid & -> & ->)|[(b & mid & -> & ->)|
                 [(c & -> & ->)|[(mid & -> & Hmid)|[-> ->]]]]]]; cbn [st_bodyLines push_memo push_gate set_cursor push_checkpoint push_body].
  - exists k. split; [done|]. by apply sublist_cons, sublist_inserts_l.
  - exists k. split; [done|]. by apply sublist_cons, sublist_inserts_l, sublist_inserts_l.
  - exists k. split; [done|]. by apply sublist_cons, sublist_inserts_l, sublist_inserts_l.
  - exists k. split; [done|]. by apply sublist_cons.
  - exists k. split; [done|]. rewrite Hmid. by apply sublist_inserts_l.
  - exists (line :: k). split; [by rewrite <- app_assoc|]. by apply sublist_skip.
Qed.

Lemma pop_blank_prefix ls : exists x, ls = pop_blank ls ++ x.
Proof.
  unfold pop_blank. exists (rev (take_while is_blank (rev ls))).
  by rewrite <- rev_app_distr, take_drop_while, rev_involutive.
Qed.

End Loop.

(** X22.  Splitting never invents, changes or reorders body text, whatever
    the input: the frontmatter returned is a prefix of the text, and the
    body returned consists of lines of the rest of the text, in their
    order. *)
Theorem splitDocument_body_from_text (clock : Clock) (markdown : jsstring) :
  exists rest bodyLines,
    markdown = frontmatter (splitDocument clock markdown) ++ rest /\
    body (splitDocument clock markdown) = unlines bodyLines /\
    sublist bodyLines (lines_of rest).
Proof.
  unfold splitDocument.
  destruct (exec FRONTMATTER_RE markdown) as [m|] eqn:E.
  - apply exec_bol_prefix in E as [_ E].
    assert (skipn (length (f_text m)) markdown = f_after m) as Hrest.
    { rewrite E at 1. apply drop_app_length. }
    rewrite Hrest.
    exists (f_after m). eexists. cbn [frontmatter body]. split; [done|]. split; [done|].
    destruct (split_loop_body clock (length (lines_of (f_after m))) (lines_of (f_after m))
                init_state) as (k & -> & Hk).
    cbn [st_bodyLines init_state app].
    destruct (pop_blank_prefix k) as [x Hx]. rewrite Hx in Hk.
    etrans; [|exact Hk]. by apply sublist_inserts_r.
  - exists markdown. eexists. cbn [frontmatter body app]. split; [done|]. split; [done|].
    destruct (split_loop_body clock (length (lines_of markdown)) (lines_of markdown)
                init_state) as (k & -> & Hk).
    cbn [st_bodyLines init_state app].
    destruct (pop_blank_prefix k) as [x Hx]. rewrite Hx in Hk.
    etrans; [|exact Hk]. by apply sublist_inserts_r.
Qed.

Section RecordsRead.

Variable clock : Clock.

Hypothesis Hnow : attr_safe (clock_now clock).
Hypothesis Hiso : filled (clock_iso clock).

Lemma parseAttrs_safe block k v :
  Forall nl_free block -> parseAttrs block !! k = Some v -> attr_safe v.
Proof.
  intros Hb H. apply parseAttrs_from_line in H as (line & Hin & Hp).
  apply parse_attr_Some in Hp as (Hs & _ & _ & Hv).
  rewrite Forall_forall in Hb. apply list_elem_of_In, Hb in Hin.
  apply (trim_sub (fun c => c <> NL)) in Hin. rewrite Hs in Hin.
  apply Forall_app in Hin as [_ Hin]. apply Forall_app in Hin as [_ Hin].
  apply Forall_app in Hin as [Hin _].
  unfold attr_safe. rewrite Forall_forall in *. intros c Hc. split; [by apply Hin|by apply Hv].
Qed.

Lemma opt_or_filled o d :
  (forall v, o = Some v -> attr_safe v) -> filled d -> filled (opt_or o d).
Proof.
  intros Ho Hd. destruct o as [s|]; [|done]. unfold opt_or, or_else.
  destruct (truthy s) eqn:E; [|done]. split; [by apply truthy_true|by apply Ho].
Qed.

Lemma opt_or_safe o : (forall v, o = Some v -> attr_safe v) -> attr_safe (opt_or o []).
Proof.
  intros Ho. destruct o as [s|]; [|constructor]. unfold opt_or, or_else.
  destruct (truthy s); [by apply Ho|constructor].
Qed.

Lemma split_on_sub (P : N -> Prop) sep s :
  Forall P s -> Forall (Forall P) (split_on sep s).
Proof.
  induction 1 as [|c s Hc Hs IH]; cbn [split_on]; [by repeat constructor|].
  destruct (c =? sep); [by constructor|].
  destruct (split_on sep s) as [|h t]; [by repeat constructor|].
  inversion IH; subst. constructor; [by constructor|done].
Qed.

Lemma parse_blockedBy_valid o :
  (forall v, o = Some v -> attr_safe v) -> Forall valid_ref (parse_blockedBy o).
Proof.
  intros Ho. destruct o as [s|]; [|constructor]. unfold parse_blockedBy.
  destruct (truthy s); [|constructor].
  specialize (Ho s eq_refl).
  pose proof (split_on_sub _ 44 s Ho) as Hsafe.
  pose proof (split_on_parts 44 s) as Hcomma.
  induction (split_on 44 s) as [|x xs IH]; cbn [map List.filter]; [constructor|].
  inversion Hsafe; subst. inversion Hcomma; subst.
  destruct (truthy (trim x)) eqn:E; [|by apply IH].
  constructor; [|by apply IH].
  split; [split|split].
  - by apply truthy_true.
  - by apply trim_sub.
  - apply trim_idemp.
  - by apply trim_sub.
Qed.

Lemma gate_of_attrs_valid block :
  Forall nl_free block -> valid_gate (gate_of_attrs clock (parseAttrs block)).
Proof.
  intros Hb.
  assert (forall key v, attr (parseAttrs block) key = Some v -> attr_safe v) as Ha.
  { intros key v. apply parseAttrs_safe, Hb. }
  unfold gate_of_attrs, valid_gate.
  cbn [gate_id gate_type gate_status gate_blockedBy gate_canProceedIf gate_doneDefinition].
  split; [|split; [|split; [|split; [|split]]]].
  - apply opt_or_filled; [apply Ha|]. split; [done|]. apply Forall_app. split; [|done].
    vm_compute. repeat constructor; discriminate.
  - apply opt_or_filled; [apply Ha|]. split; [done|].
    vm_compute. repeat constructor; discriminate.
  - apply opt_or_filled; [apply Ha|]. split; [done|].
    vm_compute. repeat constructor; discriminate.
  - apply parse_blockedBy_valid, Ha.
  - apply opt_or_safe, Ha.
  - apply opt_or_safe, Ha.
Qed.

Lemma cursor_of_attrs_valid block :
  Forall nl_free block -> valid_cursor (cursor_of_attrs clock (parseAttrs block)).
Proof.
  intros Hb.
  assert (forall key v, attr (parseAttrs block) key = Some v -> attr_safe v) as Ha.
  { intros key v. apply parseAttrs_safe, Hb. }
  unfold cursor_of_attrs, valid_cursor.
  cbn [cursor_taskId cursor_step cursor_nextAction cursor_lastSeenHash cursor_updatedAt].
  split; [|split; [|split; [|split]]]; try apply opt_or_safe, Ha.
  apply opt_or_filled; [apply Ha|apply Hiso].
Qed.

Lemma split_loop_records fuel ls st :
  Forall nl_free ls ->
  Forall valid_gate (st_gates st) ->
  (forall c, st_cursor st = Some c -> valid_cursor c) ->
  Forall valid_gate (st_gates (split_loop clock fuel ls st)) /\
  (forall c, st_cursor (split_loop clock fuel ls st) = Some c -> valid_cursor c).
Proof.
  revert ls st. induction fuel as [|fuel IH]; intros ls st Hls Hg Hc.
  { by destruct ls. }
  destruct ls as [|line rest]; [done|].
  cbn [split_loop]. pose proof (loop_body_cases clock line rest st) as Hcases.
  cbv zeta in Hcases.
  destruct (loop_body clock line rest st) as [ls' st']. cbn [fst snd] in Hcases.
  inversion Hls as [|? ? Hline Hrest]; subst.
  destruct Hcases as [(m & mid & -> & ->)|[(b & mid & -> & ->)|[(b & mid & -> & ->)|
                     [(c & -> & ->)|[(mid & -> & Hmid)|[-> ->]]]]]]; apply IH;
    cbn [st_gates st_cursor push_memo push_gate set_cursor push_checkpoint push_body];
    try done.
  - by apply Forall_app in Hrest as [_ ?].
  - apply Forall_app in Hrest as [_ Hrest]. by apply Forall_app in Hrest as [_ ?].
  - apply Forall_app. split; [done|]. constructor; [|constructor].
    apply gate_of_attrs_valid. by apply Forall_app in Hrest as [? _].
  - apply Forall_app in Hrest as [_ Hrest]. by apply Forall_app in Hrest as [_ ?].
  - intros c [= <-]. apply cursor_of_attrs_valid. by apply Forall_app in Hrest as [? _].
  - rewrite Hmid in Hls. by apply Forall_app in Hls as [_ ?].
Qed.

Lemma split_records markdown :
  Forall valid_gate (gates (splitDocument clock markdown)) /\
  (forall c, cursor (splitDocument clock markdown) = Some c -> valid_cursor c).
Proof.
  unfold splitDocument.
  destruct (exec FRONTMATTER_RE markdown) as [m|]; cbn [gates cursor];
    apply split_loop_records; try done; apply split_on_parts.
Qed.

End RecordsRead.

(** X23.  Whatever the text, the gates and the cursor that [splitDocument]
    returns are valid records (given a clock that reads digits and a
    non-empty time stamp without newline or double quote): ids, types and
    statuses are never empty, missing attributes have their defaults, the
    ids of [blockedBy] are trimmed, non-empty and free of commas, and no
    value holds a newline or a double quote.  Hence every such gate and
    cursor survives serialization: splitting its serialized form gives it
    back unchanged. *)
Theorem splitDocument_reads_valid_records
    (clock clock' : Clock) (markdown : jsstring) :
  attr_safe (clock_now clock) -> filled (clock_iso clock) ->
  Forall (fun g => valid_gate g /\
                   splitDocument clock' (serializeGate g) = mkParts [] [] [] [] [g] None [])
         (gates (splitDocument clock markdown)) /\
  (forall c, cursor (splitDocument clock markdown) = Some c ->
             valid_cursor c /\
             splitDocument clock' (serializeCursor c) = mkParts [] [] [] [] [] (Some c) []).
Proof.
  intros Hnow Hiso. destruct (split_records clock Hnow Hiso markdown) as [Hg Hc]. split.
  - eapply Forall_impl; [exact Hg|]. intros g Hv. split; [done|by apply gate_read_back].
  - intros c E. split; [by apply Hc|]. by apply cursor_read_back, Hc.
Qed.

Lemma splitDocument_reads_valid_records_witness :
  Forall (fun g => valid_gate g /\
                   splitDocument clock0 (serializeGate g) = mkParts [] [] [] [] [g] None [])
         (gates (splitDocument clock0
                   (unlines [lit "<!-- GATE";
                             attr_line "blockedBy" (lit " m1 , ,m2");
                             lit "not an attribute";
                             lit "-->"]))).
Proof.
  apply (splitDocument_reads_valid_records clock0 clock0).
  - vm_compute. repeat constructor; discriminate.
  - split; [discriminate|]. vm_compute. repeat constructor; discriminate.
Defined.

(** ** The single-line memo *)

Section Priority.

Implicit Types (R : re) (p : N -> bool).

Lemma caps_seq_assoc a b R prev s cs :
  caps_of (Seq (Seq a b) R) prev s cs = caps_of (Seq a (Seq b R)) prev s cs.
Proof.
  rewrite !caps_of_seq, bindc_seq. apply bindc_ext. intros c1 p1 s1 cs1.
  rewrite caps_of_seq. apply bindc_ext. done.
Qed.

Lemma caps_seq_nil R prev s cs :
  caps_of (Seq (Lit []) R) prev s cs = caps_of R prev s cs.
Proof. by rewrite caps_of_seq, bindc_nil. Qed.

Lemma caps_opt r R prev s cs :
  caps_of (Seq (Opt r) R) prev s cs = caps_of (Seq r R) prev s cs ++ caps_of R prev s cs.
Proof. by rewrite !caps_of_seq, bindc_opt. Qed.

Lemma caps_lit_fail l R prev s cs :
  strip_prefix l s = None -> caps_of (Seq (Lit l) R) prev s cs = [].
Proof. intros H. by rewrite caps_of_seq, bindc_lit, H. Qed.

(** The longest run comes first. *)
Lemma runs_head p v rest :
  Forall (fun c => p c = true) v -> stops p rest ->
  exists more, runs p (v ++ rest) = (v, rest) :: more.
Proof.
  intros Hv Hrest. induction Hv as [|c v Hc Hv [more IH]].
  - destruct rest as [|c rest]; [by exists []|]. cbn in *. rewrite Hrest. by exists [].
  - cbn [app runs]. rewrite Hc, IH. cbn [map]. by eexists.
Qed.

Lemma caps_rep_first p min R prev v rest cs :
  Forall (fun c => p c = true) v -> stops p rest -> (min <= length v)%nat ->
  exists X, caps_of (Seq (Rep false min p) R) prev (v ++ rest) cs =
            caps_of R (prev_after prev v) rest cs ++ X.
Proof.
  intros Hv Hrest Hmin. rewrite caps_of_seq. unfold bindc. cbn [matches].
  destruct (runs_head p v rest Hv Hrest) as [more ->]. cbn [List.filter].
  destruct (Nat.leb_spec min (length v)); [|lia]. cbn [map flat_map]. by eexists.
Qed.

(** The shortest run comes first under a lazy quantifier. *)
Lemma rev_runs p c s :
  p c = true ->
  rev (runs p (c :: s)) = ([], c :: s) :: map (fun '(run, rest) => (c :: run, rest)) (rev (runs p s)).
Proof. intros Hc. cbn [runs]. rewrite Hc, rev_app_distr, map_rev. done. Qed.

Lemma filter_all {A} (f : A -> bool) (l : list A) :
  (forall x, f x = true) -> List.filter f l = l.
Proof. intros H. induction l as [|x l IH]; cbn; [done|]. by rewrite H, IH. Qed.

Lemma lazy_runs_first {B} p t rest (g : jsstring * jsstring -> list B) :
  Forall (fun c => p c = true) t ->
  (forall t1 t2, t = t1 ++ t2 -> t2 <> [] -> g (t1, t2 ++ rest) = []) ->
  exists X, flat_map g (rev (runs p (t ++ rest))) = g (t, rest) ++ X.
Proof.
  intros Ht. revert g. induction Ht as [|c t Hc Ht IH]; intros g Hg.
  - cbn [app]. destruct rest as [|c rest]; [by exists []|].
    cbn [runs]. destruct (p c).
    + rewrite rev_app_distr. cbn [rev app flat_map]. by eexists.
    + cbn. by eexists.
  - cbn [app]. rewrite rev_runs by done. cbn [flat_map].
    pose proof (Hg [] (c :: t) eq_refl ltac:(done)) as H0. cbn [app] in H0.
    rewrite H0. cbn [app].
    rewrite flat_map_map.
    destruct (IH (fun x => g (c :: x.1, x.2))) as [X HX].
    { intros t1 t2 -> Ht2. cbn. by apply (Hg (c :: t1) t2). }
    exists X. cbn [fst snd] in HX. rewrite <- HX. apply flat_map_ext_in. by intros [? ?] _.
Qed.

Lemma caps_grp_lazy n p R prev t rest cs :
  Forall (fun c => p c = true) t ->
  (forall t1 t2, t = t1 ++ t2 -> t2 <> [] ->
                 caps_of R (prev_after prev t1) (t2 ++ rest) ((n, t1) :: cs) = []) ->
  exists X, caps_of (Seq (Grp n (Rep true 0 p)) R) prev (t ++ rest) cs =
            caps_of R (prev_after prev t) rest ((n, t) :: cs) ++ X.
Proof.
  intros Ht Hsplit. rewrite caps_of_seq, bindc_grp. unfold bindc. cbn [matches].
  rewrite filter_all by (by intros [? ?]). rewrite flat_map_map.
  destruct (lazy_runs_first p t rest
              (fun x => caps_of R (prev_after prev x.1) x.2 ((n, x.1) :: cs)) Ht) as [X HX].
  { intros t1 t2 E Ht2. by apply Hsplit. }
  exists X. cbn [fst snd] in HX. rewrite <- HX. apply flat_map_ext_in. by intros [? ?] _.
Qed.

End Priority.

Section SingleLine.

Lemma drop_while_app_stop {A} (p : A -> bool) (l w : list A) c r :
  drop_while p l = c :: r -> drop_while p (l ++ w) = (c :: r) ++ w.
Proof.
  induction l as [|x l IH]; [done|]. cbn [app drop_while].
  destruct (p x); [apply IH|]. by intros [= -> ->].
Qed.

Lemma drop_while_last_stop {A} (p : A -> bool) (l : list A) c :
  last l = Some c -> p c = false -> exists x r, drop_while p l = x :: r.
Proof.
  intros Hl Hc. destruct (drop_while p l) as [|x r] eqn:E; [|by eexists _, _].
  apply drop_while_nil_iff, forallb_Forall in E.
  destruct l as [|y l' _] using rev_ind; [done|]. rewrite last_snoc in Hl.
  injection Hl as ->. apply Forall_app in E as [_ E]. inversion E; subst. congruence.
Qed.

(** The end of the comment is not reached inside the text. *)
Lemma tail_rejects t2 prev cs :
  (exists c, last t2 = Some c /\ is_ws c = false) ->
  caps_of (Seq (star is_ws) (Seq (Lit (lit "-->")) (Seq Eol (Lit []))))
          prev (t2 ++ lit " -->") cs = [].
Proof.
  intros (c & Hl & Hc). rewrite caps_of_seq, bindc_rep_greedy.
  2:{ intros run p' x rest Hx. by apply (fails_on_lit is_ws). }
  cbn [Nat.leb].
  destruct (drop_while_last_stop is_ws t2 c Hl Hc) as (x & r & E).
  rewrite (drop_while_app_stop _ _ _ _ _ E).
  rewrite caps_of_seq, bindc_lit.
  destruct (strip_prefix (lit "-->") ((x :: r) ++ lit " -->")) as [rest|] eqn:Es; [|done].
  apply strip_prefix_Some in Es. rewrite caps_of_seq, bindc_eol.
  destruct rest; [|done]. apply (f_equal (@length N)) in Es.
  rewrite !length_app in Es. cbn in Es. lia.
Qed.

Lemma caps_v3_attr key n v R prev rest cs :
  (exists a l, attr_head key = a :: l /\ is_ws a = false) ->
  v <> [] -> Forall (fun c => c <> DQ) v ->
  caps_of (Seq (v3_attr key n) R) prev (lit " " ++ attr_head key ++ v ++ [DQ] ++ rest) cs =
  caps_of R (Some DQ) rest ((n, v) :: cs).
Proof.
  intros (a & l & Hk & Ha) Hv Hdq. unfold v3_attr, seqs. cbn [fold_right].
  rewrite !caps_seq_assoc.
  assert (Forall (fun c => not_dq c = true) v) as Hdq'.
  { eapply Forall_impl; [exact Hdq|]. intros c Hc. unfold not_dq, not_chr.
    by destruct (N.eqb_spec c DQ). }
  rewrite caps_rep.
  - rewrite caps_seq_assoc, caps_lit, caps_seq_assoc, caps_grp_rep.
    + by rewrite caps_seq_assoc, caps_lit, caps_seq_nil.
    + intros p' c r cs' Hc. rewrite caps_seq_assoc. by apply (fails_on_lit not_dq).
    + done.
    + reflexivity.
    + destruct v; [done|]. cbn. lia.
  - intros p' c r cs' Hc. rewrite caps_seq_assoc, Hk. by apply (fails_on_lit is_ws).
  - by repeat constructor.
  - rewrite Hk. exact Ha.
  - cbn. lia.
Qed.

Lemma caps_v3_absent key n R prev x cs :
  (exists a l, attr_head key = a :: l /\ is_ws a = false) ->
  stops is_ws x -> strip_prefix (attr_head key) x = None ->
  caps_of (Seq (v3_attr key n) R) prev (lit " " ++ x) cs = [].
Proof.
  intros (a & l & Hk & Ha) Hx Hs. unfold v3_attr, seqs. cbn [fold_right].
  rewrite !caps_seq_assoc. rewrite caps_rep.
  - rewrite caps_seq_assoc. by apply caps_lit_fail.
  - intros p' c r cs' Hc. rewrite caps_seq_assoc, Hk. by apply (fails_on_lit is_ws).
  - by repeat constructor.
  - done.
  - cbn. lia.
Qed.

Lemma caps_v3_opt key n (o : option jsstring) R prev f x cs :
  f = lit " " ++ x ->
  (exists a l, attr_head key = a :: l /\ is_ws a = false) ->
  (forall v, o = Some v -> v <> [] /\ Forall (fun c => c <> DQ) v) ->
  stops is_ws x -> strip_prefix (attr_head key) x = None ->
  exists prev' X,
    caps_of (Seq (Opt (v3_attr key n)) R) prev (v3_attr_text key o ++ f) cs =
    caps_of R prev' f (match o with Some v => (n, v) :: cs | None => cs end) ++ X.
Proof.
  intros -> Hk Ho Hx Hs. rewrite caps_opt. destruct o as [v|]; cbn [v3_attr_text].
  - destruct (Ho v eq_refl) as [Hv Hdq]. rewrite <- !app_assoc.
    rewrite caps_v3_attr by done. by eexists _, _.
  - cbn [app]. rewrite caps_v3_absent by done. exists prev, []. by rewrite app_nil_r.
Qed.

Lemma exec_v3_line id color status text :
  id <> [] -> Forall (fun c => c <> DQ) id ->
  (forall v, color = Some v -> v <> [] /\ Forall (fun c => c <> DQ) v) ->
  (forall v, status = Some v -> v <> [] /\ Forall (fun c => c <> DQ) v) ->
  one_line_text text ->
  f_caps <$> exec MEMO_V3_RE (v3_line id color status text) =
  Some ((4%nat, text)
        :: match status with Some s => [(3%nat, s)] | None => [] end
        ++ match color with Some c => [(2%nat, c)] | None => [] end
        ++ [(1%nat, id)]).
Proof.
  intros Hid Hidq Hcolor Hstatus (Hdot & (h & Hh & Hhw) & Hlast).
  unfold MEMO_V3_RE, seqs, v3_line. cbn [fold_right]. rewrite exec_bol_caps.
  rewrite caps_lit, caps_v3_attr; [|by eexists _, _|done|done].
  set (tail := lit " : " ++ text ++ lit " -->").
  assert (tail = lit " " ++ (lit ": " ++ text ++ lit " -->")) as Htail by done.
  assert (exists x, v3_attr_text "status" status ++ tail = lit " " ++ x /\ stops is_ws x /\
                    strip_prefix (attr_head "color") x = None) as (x & Hx & Hxs & Hxp).
  { destruct status as [v|].
    - exists (attr_head "status" ++ v ++ [DQ] ++ tail). cbn [v3_attr_text].
      rewrite <- !app_assoc. done.
    - by exists (lit ": " ++ text ++ lit " -->"). }
  destruct (caps_v3_opt "color" 2 color
              (Seq (Opt (v3_attr "status" 3))
                 (Seq (star is_ws) (Seq (Lit (lit ":")) (Seq (star is_ws)
                    (Seq (Grp 4 (star_lazy is_dot))
                       (Seq (star is_ws) (Seq (Lit (lit "-->")) (Seq Eol (Lit [])))))))))
              (Some DQ) _ x [(1%nat, id)] Hx) as (p1 & X1 & H1);
    [by eexists _, _|done|done|done|].
  rewrite H1. clear H1.
  destruct (caps_v3_opt "status" 3 status
              (Seq (star is_ws) (Seq (Lit (lit ":")) (Seq (star is_ws)
                 (Seq (Grp 4 (star_lazy is_dot))
                    (Seq (star is_ws) (Seq (Lit (lit "-->")) (Seq Eol (Lit []))))))))
              p1 tail (lit ": " ++ text ++ lit " -->")
              (match color with Some v => (2%nat, v) :: [(1%nat, id)] | None => [(1%nat, id)] end)
              Htail) as (p2 & X2 & H2);
    [by eexists _, _|done|done|done|].
  rewrite H2. clear H2.
  unfold tail. change (lit " : ") with ([32] ++ lit ":" ++ [32]). rewrite <- !app_assoc.
  rewrite (caps_rep is_ws 0 _ _ [32]);
    [|by apply fails_on_lit|by repeat constructor|done|cbn; lia].
  rewrite caps_lit.
  destruct text as [|h' text'] eqn:Etext; [done|]. injection Hh as ->. rewrite <- Etext in *.
  edestruct (caps_rep_first is_ws 0) as [X3 H3]; [| | |rewrite H3; clear H3].
  { by repeat constructor. }
  { rewrite Etext. exact Hhw. }
  { cbn. lia. }
  edestruct (caps_grp_lazy 4 is_dot) as [X4 H4]; [exact Hdot| |rewrite H4; clear H4].
  { intros t1 t2 E Ht2. apply tail_rejects.
    destruct Hlast as (c & Hc & Hcw). exists c. split; [|done].
    rewrite E, last_app in Hc. by destruct (last t2) eqn:El; [|apply last_None in El]. }
  change (lit " -->") with ([32] ++ lit "-->" ++ []).
  rewrite (caps_rep is_ws 0 _ _ [32]);
    [|by apply fails_on_lit|by repeat constructor|done|cbn; lia].
  rewrite caps_lit, caps_of_seq, bindc_eol.
  rewrite caps_of_nil. cbn [app head]. by destruct status, color.
Qed.


End SingleLine.

Section SingleLineMemo.

Variable clock : Clock.

Lemma trim_v3_line id color status text : trim (v3_line id color status text) = v3_line id color status text.
Proof.
  apply trim_fixed; [reflexivity|].
  unfold v3_line. rewrite !last_app. reflexivity.
Qed.

Lemma filled_quoted v : filled v -> v <> [] /\ Forall (fun c => c <> DQ) v.
Proof.
  intros [Hv Hs]. split; [done|]. eapply Forall_impl; [exact Hs|]. by intros c [_ ?].
Qed.

Lemma loop_body_v3 id color status text rest st :
  filled id -> filled_if_present color -> filled_if_present status ->
  one_line_text text ->
  loop_body clock (v3_line id color status text) rest st =
  (rest, push_memo st (v3_memo clock (st_bodyLines st) id color status text)).
Proof.
  intros Hid Hcolor Hstatus Htext. unfold loop_body. cbv zeta. rewrite trim_v3_line.
  pose proof (exec_v3_line id color status text) as Hex.
  destruct (filled_quoted _ Hid) as [Hid1 Hid2].
  specialize (Hex Hid1 Hid2).
  assert (forall v, color = Some v -> v <> [] /\ Forall (fun c => c <> DQ) v) as Hc
    by (intros v E; apply filled_quoted, Hcolor, E).
  assert (forall v, status = Some v -> v <> [] /\ Forall (fun c => c <> DQ) v) as Hs
    by (intros v E; apply filled_quoted, Hstatus, E).
  specialize (Hex Hc Hs Htext).
  destruct (exec MEMO_V3_RE (v3_line id color status text)) as [m|]; [|done].
  injection Hex as Hcaps. f_equal. f_equal.
  unfold memo_of_v3, v3_memo, group. rewrite Hcaps.
  destruct color as [c|], status as [s|]; cbn [app cap Nat.eqb from_option opt_or];
    unfold Datatypes.id;
    repeat match goal with
      | |- context [or_else ?v ?d] =>
          let H := fresh in
          assert (or_else v d = v) as H by
            (apply or_else_filled; first [by apply Hcolor | by apply Hstatus]);
          rewrite H; clear H
      end; reflexivity.
Qed.

Lemma nl_free_v3_line id color status text :
  filled id -> filled_if_present color -> filled_if_present status ->
  one_line_text text -> nl_free (v3_line id color status text).
Proof.
  intros Hid Hcolor Hstatus (Hdot & _). unfold v3_line, v3_attr_text, attr_head, nl_free.
  assert (forall o key, Forall (fun c => c <> NL) (lit key) -> filled_if_present o ->
            Forall (fun c => c <> NL)
              match o with Some v => lit " " ++ (lit key ++ [61; DQ]) ++ v ++ [DQ] | None => [] end)
    as Hopt.
  { intros o key Hkey Ho. destruct o as [v|]; [|constructor].
    rewrite !Forall_app. repeat split; try done; try (by vm_compute; repeat constructor).
    apply attr_safe_nl, (Ho v eq_refl). }
  rewrite !Forall_app. repeat split;
    try (by vm_compute; repeat constructor);
    try (apply Hopt; [by vm_compute; repeat constructor|done]).
  - apply attr_safe_nl, Hid.
  - eapply Forall_impl; [exact Hdot|]. intros c Hc ->. done.
Qed.

Lemma split_around pre special post (m : list MemoV2) :
  Forall opens_no_comment pre -> Forall opens_no_comment post ->
  Forall nl_free pre -> Forall nl_free special -> Forall nl_free post ->
  special <> [] ->
  starts_with (lit "---") (unlines (pre ++ special ++ post)) = false ->
  scan clock (special ++ post) (mkState pre [] [] [] None) =
  scan clock post (mkState pre m [] [] None) ->
  splitDocument clock (unlines (pre ++ special ++ post)) =
  mkParts [] (unlines (pop_blank (pre ++ post))) m [] [] None [].
Proof.
  intros Hpre Hpost Npre Nsp Npost Hne Hfm Hsp.
  rewrite splitDocument_no_frontmatter; [|by destruct pre, special| |done].
  2:{ apply Forall_app. split; [done|]. by apply Forall_app. }
  rewrite scan_plain by (eapply Forall_impl; [exact Hpre|apply no_comment_plain]).
  rewrite push_body_lines. cbn [init_state st_bodyLines st_memos st_checkpoints st_gates
                                st_cursor app].
  rewrite Hsp. rewrite <- (app_nil_r post) at 1.
  rewrite scan_plain by (eapply Forall_impl; [exact Hpost|apply no_comment_plain]).
  rewrite scan_nil, !push_body_lines. reflexivity.
Qed.

End SingleLineMemo.



(** ** The banner comment *)

Section Banner.

Variable clock : Clock.

(** Searching for a literal is [includes]. *)
Lemma search_lit l prev before s :
  match search (Lit l) prev before s with Some _ => true | None => false end = includes l s.
Proof.
  revert prev before. induction s as [|c s IH]; intros prev before.
  - cbn [search includes]. unfold match_at, starts_with. cbn [matches].
    destruct (strip_prefix l []); cbn; done.
  - cbn [search includes]. unfold match_at, starts_with. cbn [matches].
    destruct (strip_prefix l (c :: s)); cbn [head orb]; [done|]. apply IH.
Qed.

Lemma test_lit_includes l s : test (Lit l) s = includes l s.
Proof. unfold test, exec. apply search_lit. Qed.

Lemma loop_body_banner opener next rest st :
  trim opener = lit "<!--" -> includes (lit "MD Feedback") next = true ->
  loop_body clock opener (next :: rest) st = (skip_banner (opener :: next :: rest), st).
Proof.
  intros Ho Hn. unfold loop_body. cbv zeta. rewrite Ho.
  assert (exec MEMO_V3_RE (lit "<!--") = None) as -> by (by vm_compute).
  assert (test MEMO_V4_START_RE (lit "<!--") = false) as -> by (by vm_compute).
  assert (test GATE_START_RE (lit "<!--") = false) as -> by (by vm_compute).
  assert (test CURSOR_START_RE (lit "<!--") = false) as -> by (by vm_compute).
  assert (exec CHECKPOINT_RE (lit "<!--") = None) as -> by (by vm_compute).
  assert (exec LEGACY_MEMO_START_RE (lit "<!--") = None) as -> by (by vm_compute).
  assert (test BANNER_START_RE (lit "<!--") = true) as -> by (by vm_compute).
  unfold BANNER_CONTENT_RE. by rewrite test_lit_includes, Hn.
Qed.

Lemma skip_banner_closed blk close rest :
  Forall (fun l => includes (lit "-->") l = false) blk ->
  includes (lit "-->") close = true ->
  skip_banner (blk ++ close :: rest) = rest.
Proof.
  intros Hblk Hc. induction Hblk as [|l blk Hl _ IH]; cbn [app skip_banner].
  - by rewrite Hc.
  - by rewrite Hl.
Qed.

Lemma skip_banner_open blk :
  Forall (fun l => includes (lit "-->") l = false) blk -> skip_banner blk = [].
Proof. induction 1 as [|l blk Hl _ IH]; cbn [skip_banner]; [done|]. by rewrite Hl. Qed.

End Banner.

(** X25.  The banner comment is dropped from the body.  A line that reads
    as the bare comment opener, followed by a line that holds the words MD
    Feedback, opens a banner: in a text of comment-free lines it is skipped
    up to and including the first line that holds the comment closer.  A
    banner that is never closed swallows the rest of the text: every line
    after it is lost from the body. *)
Theorem banner_dropped
    (clock : Clock) (pre mid post : list jsstring) (opener next close : jsstring) :
  Forall opens_no_comment pre -> Forall opens_no_comment post ->
  Forall nl_free (pre ++ opener :: next :: mid ++ close :: post) ->
  trim opener = lit "<!--" ->
  includes (lit "MD Feedback") next = true ->
  Forall (fun l => includes (lit "-->") l = false) (opener :: next :: mid) ->
  starts_with (lit "---") (unlines (pre ++ opener :: next :: mid ++ close :: post)) = false ->
  (includes (lit "-->") close = true ->
   splitDocument clock (unlines (pre ++ opener :: next :: mid ++ close :: post))
   = body_only (unlines (pop_blank (pre ++ post)))) /\
  (Forall (fun l => includes (lit "-->") l = false) (close :: post) ->
   splitDocument clock (unlines (pre ++ opener :: next :: mid ++ close :: post))
   = body_only (unlines (pop_blank pre))).
Proof.
  intros Hpre Hpost Hnl Ho Hn Hblk Hfm.
  assert (forall tail st,
            scan clock (opener :: next :: mid ++ tail) st =
            scan clock (skip_banner ((opener :: next :: mid) ++ tail)) st) as Hscan.
  { intros tail st. by rewrite scan_cons, loop_body_banner. }
  split; intros Hc.
  - rewrite splitDocument_no_frontmatter; [|by destruct pre|done|done].
    rewrite scan_plain by (eapply Forall_impl; [exact Hpre|apply no_comment_plain]).
    rewrite Hscan, skip_banner_closed by done.
    rewrite <- (app_nil_r post) at 1.
    rewrite scan_plain by (eapply Forall_impl; [exact Hpost|apply no_comment_plain]).
    rewrite scan_nil, !push_body_lines. reflexivity.
  - rewrite splitDocument_no_frontmatter; [|by destruct pre|done|done].
    rewrite scan_plain by (eapply Forall_impl; [exact Hpre|apply no_comment_plain]).
    rewrite Hscan, skip_banner_open by (by apply Forall_app).
    rewrite scan_nil, !push_body_lines. reflexivity.
Qed.

Lemma banner_dropped_witness :
  splitDocument clock0
    (unlines ([lit "# Plan"]
              ++ lit "<!--" :: lit "  MD Feedback annotations" :: []
              ++ lit "-->" :: [lit "Body"]))
  = body_only (unlines (pop_blank ([lit "# Plan"] ++ [lit "Body"]))).
Proof.
  apply (banner_dropped clock0 [lit "# Plan"] [] [lit "Body"]
           (lit "<!--") (lit "  MD Feedback annotations") (lit "-->")).
  - vm_compute. by repeat constructor.
  - vm_compute. by repeat constructor.
  - vm_compute. repeat constructor; discriminate.
  - reflexivity.
  - reflexivity.
  - by repeat constructor.
  - reflexivity.
  - reflexivity.
Defined.

(** ** Frontmatter *)

Section First.

Implicit Types (R : re) (p : N -> bool) (x : success).

Lemma head_app_some {A} (l X : list A) a : head l = Some a -> head (l ++ X) = Some a.
Proof. by destruct l. Qed.

Lemma first_lit l R prev s cs x :
  head (matches R (prev_after prev l) s cs) = Some x ->
  head (matches (Seq (Lit l) R) prev (l ++ s) cs) = Some (glue l x).
Proof.
  intros H. cbn [matches]. rewrite strip_prefix_app. cbn [flat_map]. rewrite app_nil_r.
  destruct (matches R (prev_after prev l) s cs) as [|[[c2 s2] cs2] more]; [done|].
  injection H as <-. done.
Qed.

Lemma first_lit_end l prev s cs :
  head (matches (Seq (Lit l) (Lit [])) prev (l ++ s) cs) = Some (l, s, cs).
Proof.
  cbn [matches]. rewrite strip_prefix_app. cbn. by rewrite app_nil_r.
Qed.

Lemma lit_fails l R prev s cs :
  strip_prefix l s = None -> matches (Seq (Lit l) R) prev s cs = [].
Proof. intros H. cbn [matches]. by rewrite H. Qed.

(** Under a greedy quantifier the longest run comes first; when the rest of
    the expression fails after every longer run, the first success is the
    one after the run [v]. *)
Lemma greedy_runs_first {B} p v u (g : jsstring * jsstring -> list B) :
  Forall (fun c => p c = true) v ->
  (forall u1 u2, u = u1 ++ u2 -> u1 <> [] -> Forall (fun c => p c = true) u1 ->
                 g (v ++ u1, u2) = []) ->
  exists X, flat_map g (runs p (v ++ u)) = g (v, u) ++ X.
Proof.
  intros Hv. revert g. induction Hv as [|a v Ha Hv IH]; intros g Hg.
  - cbn [app] in *. destruct u as [|c u']; [exists []; cbn; by rewrite app_nil_r|].
    cbn [runs]. destruct (p c) eqn:Hc; [|exists []; cbn; by rewrite !app_nil_r].
    rewrite flat_map_app, flat_map_map. cbn [flat_map]. rewrite app_nil_r.
    rewrite flat_map_nil; [exists []; cbn; by rewrite app_nil_r|].
    intros [run rest] Hin. apply runs_spec in Hin as [-> Hrun].
    apply (Hg (c :: run) rest); [done|done|by constructor].
  - cbn [app runs]. rewrite Ha, flat_map_app, flat_map_map.
    destruct (IH (fun y => g (a :: y.1, y.2))) as [X HX].
    { intros u1 u2 E Hne Hu1. cbn. by apply (Hg u1 u2). }
    cbn [fst snd] in HX.
    exists (X ++ flat_map g [([], a :: v ++ u)]). rewrite app_assoc, <- HX.
    f_equal. apply flat_map_ext_in. by intros [? ?] _.
Qed.

Lemma first_greedy p R prev v u cs x :
  Forall (fun c => p c = true) v ->
  (forall u1 u2, u = u1 ++ u2 -> u1 <> [] -> Forall (fun c => p c = true) u1 ->
                 matches R (prev_after prev (v ++ u1)) u2 cs = []) ->
  head (matches R (prev_after prev v) u cs) = Some x ->
  head (matches (Seq (Rep false 0 p) R) prev (v ++ u) cs) = Some (glue v x).
Proof.
  intros Hv Hlonger Hx. cbn [matches].
  rewrite filter_all by (by intros [? ?]). rewrite flat_map_map.
  destruct (greedy_runs_first p v u
              (fun y => map (fun '(c2, rest2, cs2) => (y.1 ++ c2, rest2, cs2))
                            (matches R (prev_after prev y.1) y.2 cs)) Hv) as [X HX].
  { intros u1 u2 E Hne Hu1. cbn. by rewrite (Hlonger u1 u2). }
  cbn [fst snd] in HX.
  rewrite (flat_map_ext_in _ (fun y => map (fun '(c2, rest2, cs2) => (y.1 ++ c2, rest2, cs2))
                       (matches R (prev_after prev y.1) y.2 cs))) by (by intros [? ?] _).
  rewrite HX. apply head_app_some.
  destruct (matches R (prev_after prev v) u cs) as [|[[c2 s2] cs2] more]; [done|].
  injection Hx as <-. done.
Qed.

(** Under a lazy quantifier the shortest run comes first; when the rest of
    the expression fails after every shorter run, the first success is the
    one after the run [t]. *)
Lemma first_lazy n R prev t rest cs x :
  (forall t1 t2, t = t1 ++ t2 -> t2 <> [] ->
                 matches R (prev_after prev t1) (t2 ++ rest) ((n, t1) :: cs) = []) ->
  head (matches R (prev_after prev t) rest ((n, t) :: cs)) = Some x ->
  head (matches (Seq (Grp n (Rep true 0 is_any)) R) prev (t ++ rest) cs) = Some (glue t x).
Proof.
  intros Hshorter Hx. cbn [matches].
  rewrite filter_all by (by intros [? ?]). rewrite !flat_map_map.
  destruct (lazy_runs_first is_any t rest
              (fun y => map (fun '(c2, rest2, cs2) => (y.1 ++ c2, rest2, cs2))
                            (matches R (prev_after prev y.1) y.2 ((n, y.1) :: cs)))) as [X HX].
  { by apply Forall_forall. }
  { intros t1 t2 E Hne. cbn. by rewrite (Hshorter t1 t2). }
  cbn [fst snd] in HX.
  rewrite (flat_map_ext_in _ (fun y => map (fun '(c2, rest2, cs2) => (y.1 ++ c2, rest2, cs2))
                       (matches R (prev_after prev y.1) y.2 ((n, y.1) :: cs))))
    by (by intros [? ?] _).
  rewrite HX. apply head_app_some.
  destruct (matches R (prev_after prev t) rest ((n, t) :: cs)) as [|[[c2 s2] cs2] more]; [done|].
  injection Hx as <-. done.
Qed.

End First.

Section Frontmatter.

Variable clock : Clock.

(** The first line of a text, and what follows it. *)
Lemma hd_lines_of s :
  exists t, s = hd [] (lines_of s) ++ t /\ nl_free (hd [] (lines_of s)) /\
            (t = [] \/ exists t', t = NL :: t').
Proof.
  unfold lines_of. induction s as [|c s (t & E & Hnl & Ht)]; cbn [split_on].
  - exists []. cbn. by repeat split; [constructor|left].
  - destruct (N.eqb_spec c NL) as [->|Hne].
    + exists (NL :: s). cbn. repeat split; [constructor|right; by eexists].
    + pose proof (split_on_nonempty NL s) as Hn.
      destruct (split_on NL s) as [|h tl]; [done|]. cbn [hd] in *.
      exists t. split; [cbn; by rewrite <- E|]. split; [by constructor|done].
Qed.

Lemma filled_no_blank_start s Z : first_line_filled s -> no_blank_start (s ++ Z).
Proof.
  unfold first_line_filled, no_blank_start, is_blank. intros H.
  destruct (hd_lines_of s) as (t & E & Hnl & _).
  set (l0 := hd [] (lines_of s)) in *.
  destruct (drop_while is_ws l0) as [|c z] eqn:Ed.
  { unfold trim, trimStart in H. by rewrite Ed in H. }
  pose proof (drop_while_head _ _ _ _ Ed) as Hc.
  pose proof (take_drop_while is_ws l0) as Esplit. rewrite Ed in Esplit.
  rewrite E, <- Esplit, <- !app_assoc. cbn [app].
  rewrite take_while_app; [|apply take_while_all|done].
  by apply take_while_sub.
Qed.

(** After white space read from a text whose leading white space holds no
    newline, no newline comes next. *)
Lemma ws_prefix_stop a b :
  white a -> no_blank_start (a ++ b) -> strip_prefix [NL] b = None.
Proof.
  unfold white, no_blank_start. intros Ha. induction Ha as [|x a Hx Ha IH]; cbn [app].
  - destruct b as [|c b]; [done|]. cbn [take_while strip_prefix].
    destruct (N.eqb_spec NL c) as [<-|Hne]; [|done].
    change (is_ws NL) with true. cbn iota. intros H. by inversion H.
  - cbn [take_while]. rewrite Hx. intros H. apply IH. by inversion H.
Qed.

(** The closing fence is not met inside fence-free content. *)
Lemma fence_not_inside content t1 t2 Y :
  fence_free content -> content = t1 ++ t2 -> t2 <> [] ->
  strip_prefix (NL :: lit "---") (t2 ++ NL :: lit "---" ++ Y) = None.
Proof.
  intros Hf -> Hne. destruct t2 as [|c t2]; [done|]. cbn [app strip_prefix].
  destruct (N.eqb_spec NL c) as [<-|Hc]; [|done].
  unfold fence_free, lines_of in Hf. rewrite split_on_app in Hf.
  apply Forall_app in Hf as [_ Hf].
  destruct (hd_lines_of t2) as (t & E & Hnl & Ht). unfold lines_of in *.
  pose proof (split_on_nonempty NL t2) as Hn.
  destruct (split_on NL t2) as [|l tl]; [done|]. cbn [hd] in *.
  inversion Hf as [|? ? Hl _]; subst.
  assert (forall X, starts_with (lit "---") (l ++ NL :: X) = false) as Hs.
  { intros X. rewrite starts_with_line; [done|by vm_compute; repeat constructor]. }
  unfold starts_with in Hs.
  destruct Ht as [->|[t' ->]].
  - rewrite app_nil_r. specialize (Hs (lit "---" ++ Y)).
    by destruct (strip_prefix (lit "---") (l ++ NL :: lit "---" ++ Y)).
  - rewrite <- app_assoc. cbn [app]. specialize (Hs (t' ++ NL :: lit "---" ++ Y)).
    by destruct (strip_prefix (lit "---") (l ++ NL :: t' ++ NL :: lit "---" ++ Y)).
Qed.

(** [FRONTMATTER_RE] on a text that starts with a frontmatter block. *)
Lemma exec_frontmatter w1 content w2 rest :
  white w1 -> white w2 -> first_line_filled content -> fence_free content ->
  no_blank_start rest ->
  exec FRONTMATTER_RE (frontmatter_block w1 content w2 ++ rest) =
  Some (mkFound [] (frontmatter_block w1 content w2) rest [(1%nat, content)]).
Proof.
  intros Hw1 Hw2 Hfill Hfence Hrest.
  unfold FRONTMATTER_RE, seqs, frontmatter_block. cbn [fold_right].
  rewrite exec_bol.
  set (tail4 := Seq (Rep false 0 is_ws) (Seq (Lit [NL]) (Lit []))).
  set (tail3 := Seq (Lit (NL :: lit "---")) tail4).
  assert (forall prev cs, head (matches tail4 prev (w2 ++ NL :: rest) cs)
                          = Some (w2 ++ [NL], rest, cs)) as H4.
  { intros prev cs. unfold tail4.
    rewrite (first_greedy is_ws _ prev w2 (NL :: rest) cs ([NL], rest, cs)); [done|done| |].
    - intros u1 u2 E Hne Hu1. apply lit_fails.
      destruct u1 as [|x u1]; [done|]. injection E as <- E. inversion Hu1; subst.
      by apply (ws_prefix_stop u1).
    - apply (first_lit_end [NL]). }
  assert (forall prev cs, head (matches tail3 prev (NL :: lit "---" ++ w2 ++ NL :: rest) cs)
                          = Some ((NL :: lit "---") ++ w2 ++ [NL], rest, cs)) as H3.
  { intros prev cs. unfold tail3.
    change (NL :: lit "---" ++ w2 ++ NL :: rest) with ((NL :: lit "---") ++ w2 ++ NL :: rest).
    by rewrite (first_lit _ _ _ _ _ _ (H4 _ _)). }
  set (tail2 := Seq (Grp 1 (Rep true 0 is_any)) tail3).
  assert (forall prev cs, head (matches tail2 prev (content ++ NL :: lit "---" ++ w2 ++ NL :: rest) cs)
                          = Some (content ++ (NL :: lit "---") ++ w2 ++ [NL], rest,
                                  (1%nat, content) :: cs)) as H2.
  { intros prev cs. unfold tail2.
    rewrite (first_lazy 1 tail3 prev content _ cs
               ((NL :: lit "---") ++ w2 ++ [NL], rest, (1%nat, content) :: cs));
      [done| |apply H3].
    intros t1 t2 E Hne. apply lit_fails.
    by apply (fence_not_inside content t1 t2). }
  set (tail1 := Seq (Lit [NL]) tail2).
  assert (forall prev cs, head (matches tail1 prev (NL :: content ++ NL :: lit "---" ++ w2 ++ NL :: rest) cs)
                          = Some ([NL] ++ content ++ (NL :: lit "---") ++ w2 ++ [NL], rest,
                                  (1%nat, content) :: cs)) as H1.
  { intros prev cs. unfold tail1.
    change (NL :: content ++ NL :: lit "---" ++ w2 ++ NL :: rest)
      with ([NL] ++ content ++ NL :: lit "---" ++ w2 ++ NL :: rest).
    by rewrite (first_lit _ _ _ _ _ _ (H2 _ _)). }
  set (tail0 := Seq (Rep false 0 is_ws) tail1).
  assert (head (matches (Seq (Lit (lit "---")) tail0) None
                  (lit "---" ++ w1 ++ [NL] ++ content ++ [NL] ++ lit "---" ++ w2 ++ [NL] ++ rest) [])
          = Some (lit "---" ++ w1 ++ [NL] ++ content ++ (NL :: lit "---") ++ w2 ++ [NL], rest,
                  [(1%nat, content)])) as H0.
  { rewrite (first_lit _ tail0 None _ []
               (w1 ++ [NL] ++ content ++ (NL :: lit "---") ++ w2 ++ [NL], rest,
                [(1%nat, content)])); [done|].
    unfold tail0.
    rewrite (first_greedy is_ws tail1 _ w1 _ []
               ([NL] ++ content ++ (NL :: lit "---") ++ w2 ++ [NL], rest,
                [(1%nat, content)]) Hw1); [done| |apply H1].
    intros u1 u2 E Hne Hu1. apply lit_fails.
    destruct u1 as [|x u1]; [done|]. cbn [app] in E. injection E as <- E. inversion Hu1; subst.
    apply (ws_prefix_stop u1); [done|]. rewrite <- E.
    by apply filled_no_blank_start. }
  rewrite <- ?app_assoc.
  destruct (matches _ None _ []) as [|[[t r] cs] l]; [done|].
  injection H0 as -> -> ->. cbn [app]. by rewrite <- ?app_assoc.
Qed.

End Frontmatter.

Section FrontmatterSplit.

Variable clock : Clock.

Lemma includes_app needle pre post : includes needle (pre ++ needle ++ post) = true.
Proof.
  induction pre as [|c pre IH]; cbn [app].
  - destruct (needle ++ post) eqn:E; cbn [includes]; rewrite <- E, starts_with_app; done.
  - cbn [includes]. rewrite IH. apply orb_true_r.
Qed.

Lemma in_matches_seq r1 r2 prev s cs (x : success) :
  In x (matches (Seq r1 r2) prev s cs) ->
  exists c1 s1 cs1 c2,
    In (c1, s1, cs1) (matches r1 prev s cs) /\
    In (c2, x.1.2, x.2) (matches r2 (prev_after prev c1) s1 cs1) /\
    x.1.1 = c1 ++ c2.
Proof.
  cbn [matches]. rewrite in_flat_map. intros ([[c1 s1] cs1] & H1 & H2).
  apply in_map_iff in H2 as ([[c2 s2] cs2] & <- & H2).
  by exists c1, s1, cs1, c2.
Qed.

(** Without a closing fence there is no frontmatter. *)
Lemma exec_frontmatter_unclosed text :
  includes (NL :: lit "---") text = false -> exec FRONTMATTER_RE text = None.
Proof.
  intros Hinc. unfold FRONTMATTER_RE, seqs. cbn [fold_right]. rewrite exec_bol.
  destruct (matches _ None text []) as [|x l] eqn:E; [done|]. exfalso.
  assert (In x (matches (Seq (Lit (lit "---")) (Seq (star is_ws) (Seq (Lit [NL])
            (Seq (Grp 1 (star_lazy is_any)) (Seq (Lit (NL :: lit "---"))
            (Seq (star is_ws) (Seq (Lit [NL]) (Lit [])))))))) None text [])) as Hin.
  { rewrite E. by left. }
  apply in_matches_seq in Hin as (c1 & s1 & cs1 & c2 & Ha & Hin & _).
  apply matches_sound in Ha as ->.
  apply in_matches_seq in Hin as (c3 & s3 & cs3 & c4 & Ha & Hin & _).
  apply matches_sound in Ha as ->.
  apply in_matches_seq in Hin as (c5 & s5 & cs5 & c6 & Ha & Hin & _).
  apply matches_sound in Ha as ->.
  apply in_matches_seq in Hin as (c7 & s7 & cs7 & c8 & Ha & Hin & _).
  apply matches_sound in Ha as ->.
  apply in_matches_seq in Hin as (c9 & s9 & cs9 & c10 & Ha & _ & _).
  cbn [matches] in Ha. destruct (strip_prefix (NL :: lit "---") s7) as [j|] eqn:Es; [|done].
  apply strip_prefix_Some in Es as ->.
  rewrite !app_assoc, <- (app_assoc _ (NL :: lit "---") j) in Hinc.
  by rewrite includes_app in Hinc.
Qed.

Lemma split_frontmatter w1 content w2 rest :
  white w1 -> white w2 -> first_line_filled content -> fence_free content ->
  no_blank_start rest -> starts_with (lit "---") rest = false ->
  splitDocument clock (frontmatter_block w1 content w2 ++ rest)
  = with_frontmatter (frontmatter_block w1 content w2) (splitDocument clock rest).
Proof.
  intros Hw1 Hw2 Hfill Hfence Hrest Hno. unfold splitDocument.
  rewrite exec_frontmatter, (exec_frontmatter_none _ Hno) by done.
  cbn [f_text]. by rewrite skipn_app, skipn_all, Nat.sub_diag.
Qed.

Lemma trimEnd_frontmatter w1 content w2 :
  white w2 ->
  trimEnd (frontmatter_block w1 content w2)
  = lit "---" ++ w1 ++ [NL] ++ content ++ [NL] ++ lit "---".
Proof.
  intros Hw2.
  assert (frontmatter_block w1 content w2
          = ((lit "---" ++ w1 ++ [NL] ++ content ++ [NL] ++ lit "--") ++ [45]) ++ (w2 ++ [NL])) as ->.
  { unfold frontmatter_block. rewrite <- ?app_assoc. reflexivity. }
  rewrite trimEnd_app_ws by (apply Forall_app; split; [done|by repeat constructor]).
  rewrite trimEnd_snoc by done. rewrite <- ?app_assoc. reflexivity.
Qed.

Lemma merge_with_frontmatter fm parts :
  frontmatter parts = [] -> fm <> [] ->
  mergeDocument (with_frontmatter fm parts) = trimEnd fm ++ [NL; NL] ++ mergeDocument parts.
Proof.
  intros Hfm Hne. unfold mergeDocument, with_frontmatter.
  cbn [frontmatter body memos gates checkpoints cursor]. rewrite Hfm.
  destruct fm as [|c fm]; [done|]. cbn [truthy app].
  change (join [NL; NL] (?a :: ?b :: ?l)) with (a ++ [NL; NL] ++ join [NL; NL] (b :: l)).
  by rewrite <- !app_assoc.
Qed.

Lemma merged_first_line parts :
  valid_bundle parts ->
  hd [] (lines_of (mergeDocument parts)) = hd [] (lines_of (body parts)).
Proof.
  intros Hv. rewrite (merged_lines parts Hv).
  pose proof (split_on_nonempty NL (body parts)) as Hne. fold (lines_of (body parts)) in Hne.
  by destruct (lines_of (body parts)) as [|l0 ls].
Qed.

(** The merged text of a bundle with a frontmatter block, split again. *)
Lemma split_merged_frontmatter w1 content w2 parts :
  white w1 -> white w2 -> first_line_filled content -> fence_free content ->
  valid_bundle parts -> first_line_filled (body parts) ->
  splitDocument clock (mergeDocument (with_frontmatter (frontmatter_block w1 content w2) parts))
  = with_frontmatter (frontmatter_block w1 content [NL]) (reread parts).
Proof.
  intros Hw1 Hw2 Hfill Hfence Hv Hbody.
  rewrite merge_with_frontmatter; [|by destruct Hv|by unfold frontmatter_block].
  rewrite trimEnd_frontmatter by done.
  assert ((lit "---" ++ w1 ++ [NL] ++ content ++ [NL] ++ lit "---") ++ [NL; NL] ++ mergeDocument parts
          = frontmatter_block w1 content [NL] ++ mergeDocument parts) as ->.
  { unfold frontmatter_block. rewrite <- ?app_assoc. reflexivity. }
  rewrite split_frontmatter; try done.
  - by rewrite (split_merged clock).
  - by repeat constructor.
  - rewrite <- (app_nil_r (mergeDocument parts)). apply filled_no_blank_start.
    unfold first_line_filled in *. by rewrite merged_first_line.
  - by apply merged_no_frontmatter.
Qed.

End FrontmatterSplit.

Lemma merge_reread parts :
  valid_bundle parts -> anchored parts -> no_blank_end (body parts) ->
  mergeDocument (reread parts) = mergeDocument parts.
Proof.
  intros Hv Ha Hb. unfold reread.
  rewrite recovered_anchored by done. rewrite Hb, unlines_lines_of.
  rewrite !mergeDocument_sections. unfold merged_sections.
  cbn [frontmatter body memos gates checkpoints cursor].
  destruct Hv as (-> & _). by rewrite body_with_memos_emitted.
Qed.

(** X26.  Frontmatter is peeled off and the rest is read as if it stood
    alone.  A text that starts with a frontmatter block (the opening fence,
    content whose first line is not blank and none of whose lines starts
    with three dashes, the closing fence, each fence followed by white space
    up to a newline) and goes on with a text that does not start with a
    blank line: [splitDocument] returns the block, with the white space and
    the newline after the closing fence, as frontmatter, and every other
    part as for the rest of the text alone.  A fence that is never closed is
    no frontmatter: a text of comment-free lines without a newline followed
    by three dashes is all body, its first line included. *)
Theorem frontmatter_extracted
    (clock : Clock) (w1 content w2 rest text : jsstring) :
  white w1 -> white w2 -> first_line_filled content -> fence_free content ->
  no_blank_start rest -> starts_with (lit "---") rest = false ->
  splitDocument clock (frontmatter_block w1 content w2 ++ rest)
  = with_frontmatter (frontmatter_block w1 content w2) (splitDocument clock rest) /\
  (Forall opens_no_comment (lines_of text) ->
   includes (NL :: lit "---") text = false ->
   splitDocument clock text = body_only (unlines (pop_blank (lines_of text)))).
Proof.
  intros Hw1 Hw2 Hfill Hfence Hrest Hno. split.
  - by apply split_frontmatter.
  - intros Hl Hinc. unfold splitDocument.
    rewrite (exec_frontmatter_unclosed _ Hinc).
    fold (scan clock (lines_of text) init_state).
    pose proof (scan_plain clock (lines_of text) [] init_state) as Hscan.
    rewrite app_nil_r in Hscan. rewrite Hscan.
    + rewrite scan_nil, push_body_lines. reflexivity.
    + eapply Forall_impl; [exact Hl|]. apply no_comment_plain.
Qed.

Lemma frontmatter_extracted_witness :
  splitDocument clock0 (sample_frontmatter ++ lit "# Plan" ++ [NL])
  = mkParts sample_frontmatter (lit "# Plan") [] [] [] None [] /\
  splitDocument clock0 (lit "---" ++ [NL] ++ lit "title: Plan")
  = body_only (lit "---" ++ [NL] ++ lit "title: Plan").
Proof.
  destruct (frontmatter_extracted clock0 [] (lit "title: Plan") [] (lit "# Plan" ++ [NL])
              (lit "---" ++ [NL] ++ lit "title: Plan")) as [H1 H2].
  - constructor.
  - constructor.
  - reflexivity.
  - vm_compute. by repeat constructor.
  - vm_compute. by repeat constructor.
  - reflexivity.
  - split.
    + unfold sample_frontmatter. rewrite H1. reflexivity.
    + rewrite H2; [reflexivity| |reflexivity].
      vm_compute. by repeat constructor.
Defined.



(** ** Checkpoints in the editor's reader *)

Section Global.

Implicit Types (r R : re) (p : N -> bool).

Lemma matches_prev_free r :
  prev_free r = true ->
  forall prev prev' s cs, matches r prev s cs = matches r prev' s cs.
Proof.
  induction r as [l|p|lazy min p|r IH|r1 IH1 r2 IH2|r1 IH1 r2 IH2|n r IH| | | | |r IH|x];
    cbn [prev_free]; intros H prev prev' s cs; cbn [matches]; try done.
  - by rewrite (IH H prev prev').
  - apply andb_true_iff in H as [H1 H2]. rewrite (IH1 H1 prev prev').
    apply flat_map_ext_in. intros [[c1 s1] cs1] _.
    by rewrite (IH2 H2 (prev_after prev c1) (prev_after prev' c1)).
  - apply andb_true_iff in H as [H1 H2].
    by rewrite (IH1 H1 prev prev'), (IH2 H2 prev prev').
  - by rewrite (IH H prev prev').
  - by rewrite (IH H prev prev').
Qed.

Lemma exec_all_prev_free r prev prev' s k :
  prev_free r = true -> exec_all r prev s k = exec_all r prev' s k.
Proof.
  intros H. destruct s as [|c s]; destruct k as [|k]; cbn [exec_all]; try done;
    unfold match_at; by rewrite (matches_prev_free r H prev prev').
Qed.

(** Stepping over the text of a match. *)
Lemma exec_all_skip r prev a X :
  prev_free r = true ->
  exec_all r prev (a ++ X) (length a) = exec_all r None X 0.
Proof.
  intros H. revert prev. induction a as [|c a IH]; intros prev; cbn [app length].
  - by apply exec_all_prev_free.
  - cbn [exec_all]. apply IH.
Qed.

(** A match at the current position, and the search that goes on behind
    it. *)
Lemma exec_all_hit r prev m X cs :
  prev_free r = true -> m <> [] ->
  match_at r prev (m ++ X) = Some (m, X, cs) ->
  exec_all r prev (m ++ X) 0 = (m, X, cs) :: exec_all r None X 0.
Proof.
  intros H Hm Hat. destruct m as [|c m]; [done|]. cbn [app] in *.
  cbn [exec_all]. rewrite Hat. f_equal. cbn [length Nat.pred].
  by apply exec_all_skip.
Qed.

(** No match starts in a text at none of whose positions the expression
    matches. *)
Lemma exec_all_miss r prev t X :
  prev_free r = true ->
  (forall t1 t2, t = t1 ++ t2 -> t2 <> [] -> match_at r None (t2 ++ X) = None) ->
  exec_all r prev (t ++ X) 0 = exec_all r None X 0.
Proof.
  intros H. revert prev. induction t as [|c t IH]; intros prev Hmiss; cbn [app].
  - by apply exec_all_prev_free.
  - cbn [exec_all].
    assert (match_at r prev (c :: t ++ X) = None) as ->.
    { unfold match_at. rewrite (matches_prev_free r H prev None).
      by apply (Hmiss [] (c :: t)). }
    apply IH. intros t1 t2 -> Ht2. by apply (Hmiss (c :: t1) t2).
Qed.

(** A literal that starts with a character it does not hold again, looked
    for across the border of a text and a text that starts with this
    character: it is found inside the first text or not at all. *)
Lemma straddle h l t X z :
  Forall (fun c => c <> h) l -> head X = Some h ->
  strip_prefix l (t ++ X) = Some z -> exists q, strip_prefix l t = Some q.
Proof.
  intros Hl HX. revert t. induction Hl as [|a l Ha Hl IH]; intros t; [by eexists|].
  destruct t as [|b t]; cbn [app strip_prefix].
  - destruct X as [|x X]; [done|]. injection HX as ->. cbn [strip_prefix].
    destruct (N.eqb_spec a h); [done|done].
  - destruct (a =? b); [apply IH|done].
Qed.

Lemma includes_suffix needle t1 t2 :
  starts_with needle t2 = true -> includes needle (t1 ++ t2) = true.
Proof.
  intros H. apply starts_with_true in H as [q ->]. apply includes_app.
Qed.

Lemma opener_miss h l t t1 t2 X :
  Forall (fun c => c <> h) l -> head X = Some h ->
  includes (h :: l) t = false -> t = t1 ++ t2 -> t2 <> [] ->
  strip_prefix (h :: l) (t2 ++ X) = None.
Proof.
  intros Hl HX Hinc -> Ht2.
  destruct (strip_prefix (h :: l) (t2 ++ X)) as [z|] eqn:E; [|done]. exfalso.
  destruct t2 as [|b t2]; [done|]. cbn [app strip_prefix] in E.
  destruct (N.eqb_spec h b) as [<-|]; [|done].
  destruct (straddle h l t2 X z Hl HX E) as [q Hq].
  rewrite (includes_suffix (h :: l) t1 (h :: t2)) in Hinc; [done|].
  unfold starts_with. cbn [strip_prefix]. by rewrite N.eqb_refl, Hq.
Qed.

(** *** The successes of a sequence, segment by segment *)

Lemma m_lit l R prev s cs :
  matches (Seq (Lit l) R) prev (l ++ s) cs
  = map (glue l) (matches R (prev_after prev l) s cs).
Proof.
  cbn [matches]. rewrite strip_prefix_app. cbn [flat_map]. rewrite app_nil_r.
  apply map_ext. by intros [[? ?] ?].
Qed.

Lemma m_lit_fails p a l R prev c rest cs :
  p a = false -> p c = true -> matches (Seq (Lit (a :: l)) R) prev (c :: rest) cs = [].
Proof.
  intros Ha Hc. cbn [matches]. by rewrite (strip_prefix_class p).
Qed.

(** A greedy run before an expression that fails on any text that starts
    inside the class: only the longest run succeeds. *)
Lemma greedy_runs_only {B} p (g : jsstring * jsstring -> list B) v u :
  (forall run c rest, p c = true -> g (run, c :: rest) = []) ->
  Forall (fun c => p c = true) v -> stops p u ->
  flat_map g (runs p (v ++ u)) = g (v, u).
Proof.
  intros Hg Hv Hu. revert g Hg. induction Hv as [|a v Ha Hv IH]; intros g Hg.
  - cbn [app]. destruct u as [|c u]; cbn [runs flat_map]; [by rewrite app_nil_r|].
    cbn in Hu. rewrite Hu. cbn [flat_map]. by rewrite app_nil_r.
  - cbn [app runs]. rewrite Ha, flat_map_app, flat_map_map. cbn [flat_map].
    rewrite (Hg [] a (v ++ u) Ha), app_nil_r.
    specialize (IH (fun y => g (a :: y.1, y.2))). cbn [fst snd] in IH.
    rewrite <- IH.
    + apply flat_map_ext_in. by intros [? ?] _.
    + intros run c rest Hc. by apply Hg.
Qed.

Lemma m_grp_rep n p min R prev v u cs :
  (forall prev' c rest cs', p c = true -> matches R prev' (c :: rest) cs' = []) ->
  Forall (fun c => p c = true) v -> stops p u -> (min <= length v)%nat ->
  matches (Seq (Grp n (Rep false min p)) R) prev (v ++ u) cs
  = map (glue v) (matches R (prev_after prev v) u ((n, v) :: cs)).
Proof.
  intros HR Hv Hu Hmin. cbn [matches]. rewrite !flat_map_map.
  set (g := fun y : jsstring * jsstring =>
              if (min <=? length y.1)%nat
              then map (glue y.1) (matches R (prev_after prev y.1) y.2 ((n, y.1) :: cs))
              else []).
  transitivity (flat_map g (runs p (v ++ u))).
  - induction (runs p (v ++ u)) as [|[run rest] l IH]; [done|].
    cbn [List.filter flat_map]. unfold g at 1. cbn [fst snd].
    destruct (min <=? length run)%nat; cbn [flat_map app]; [|done].
    rewrite IH. f_equal. apply map_ext. by intros [[? ?] ?].
  - rewrite greedy_runs_only; try done.
    + unfold g. cbn [fst snd]. by destruct (Nat.leb_spec min (length v)); [|lia].
    + intros run c rest Hc. unfold g. cbn [fst snd].
      rewrite (HR _ c rest _ Hc). by destruct (min <=? length run)%nat.
Qed.

End Global.

Section Extract.

Lemma checkpoint_re_prev_free : prev_free Roundtrip.CHECKPOINT_RE = true.
Proof. reflexivity. Qed.

Ltac m_side :=
  match goal with
  | |- forall _ _ _ _, _ -> matches _ _ _ _ = [] =>
      let prev := fresh in let x := fresh in let rest := fresh in
      let cs := fresh in let H := fresh in
      intros prev x rest cs H;
      first [ by apply (m_lit_fails not_dq DQ)
            | by apply (m_lit_fails is_digit 32) ]
  | |- Forall _ _ =>
      first [ assumption | by apply attr_safe_not_dq | by apply to_dec_digits
            | match goal with H : filled _ |- _ => by apply attr_safe_not_dq, H end ]
  | |- stops _ _ => reflexivity
  | |- (_ <= _)%nat =>
      first [ by apply filled_length | apply to_dec_nonempty | simpl; lia ]
  end.

(** The expression on the serialized form of a checkpoint: it matches the
    whole of it and binds the seven values. *)
Lemma match_checkpoint c prev rest :
  readable_checkpoint c ->
  match_at Roundtrip.CHECKPOINT_RE prev (serializeCheckpoint c ++ rest) =
  Some (serializeCheckpoint c, rest,
        [(7%nat, join (lit ",") (cp_sectionsReviewed c));
         (6%nat, to_dec (cp_highlights c));
         (5%nat, to_dec (cp_questions c));
         (4%nat, to_dec (cp_fixes c));
         (3%nat, cp_note c);
         (2%nat, cp_timestamp c);
         (1%nat, cp_id c)]).
Proof.
  intros (Hid & Hts & Hnote & Hsecs & _).
  assert (attr_safe (join (lit ",") (cp_sectionsReviewed c))) as Hjoin.
  { apply attr_safe_join. eapply Forall_impl; [exact Hsecs|]. by intros s [? ?]. }
  unfold match_at, Roundtrip.CHECKPOINT_RE, seqs. cbn [fold_right].
  set (L1 := lit "<!-- CHECKPOINT " ++ attr_head "id").
  set (L7 := lit " " ++ attr_head "sections").
  assert (serializeCheckpoint c =
          L1 ++ cp_id c ++ (DQ :: lit " " ++ attr_head "time") ++ cp_timestamp c
          ++ (DQ :: lit " " ++ attr_head "note") ++ cp_note c
          ++ (DQ :: lit " fixes=") ++ to_dec (cp_fixes c)
          ++ lit " questions=" ++ to_dec (cp_questions c)
          ++ lit " highlights=" ++ to_dec (cp_highlights c)
          ++ L7 ++ join (lit ",") (cp_sectionsReviewed c) ++ (DQ :: lit " -->") ++ []) as E.
  { unfold serializeCheckpoint, L1, L7. cbv zeta. rewrite esc_safe by done.
    rewrite <- ?app_assoc. reflexivity. }
  rewrite E at 1. rewrite <- ?app_assoc.
  rewrite m_lit.
  rewrite m_grp_rep by m_side. rewrite (m_lit (DQ :: _)).
  rewrite m_grp_rep by m_side. rewrite (m_lit (DQ :: _)).
  rewrite m_grp_rep by m_side. rewrite (m_lit (DQ :: _)).
  rewrite m_grp_rep by m_side. rewrite m_lit.
  rewrite m_grp_rep by m_side. rewrite m_lit.
  rewrite m_grp_rep by m_side. rewrite m_lit.
  rewrite m_grp_rep by m_side. rewrite (m_lit (DQ :: _)).
  cbn [matches strip_prefix map head glue fst snd].
  by rewrite E.
Qed.

End Extract.

Lemma checkpoint_of_serialized c rest :
  readable_checkpoint c ->
  Roundtrip.checkpoint_of_match
    (serializeCheckpoint c, rest,
     [(7%nat, join (lit ",") (cp_sectionsReviewed c));
      (6%nat, to_dec (cp_highlights c));
      (5%nat, to_dec (cp_questions c));
      (4%nat, to_dec (cp_fixes c));
      (3%nat, cp_note c);
      (2%nat, cp_timestamp c);
      (1%nat, cp_id c)]) = c.
Proof.
  intros (_ & _ & _ & Hsecs & Hj). unfold Roundtrip.checkpoint_of_match. cbv zeta.
  cbn [snd cap Nat.eqb from_option]. unfold Datatypes.id.
  rewrite !parseInt_to_dec, parse_sections_join by done. by destruct c.
Qed.

Lemma serialized_head c rest : head (serializeCheckpoint c ++ rest) = Some 60.
Proof. reflexivity. Qed.

Lemma serialized_nonempty c : serializeCheckpoint c <> [].
Proof. discriminate. Qed.

Lemma opener_split : checkpoint_opener = 60 :: lit "!-- CHECKPOINT id=" ++ [DQ].
Proof. reflexivity. Qed.

Lemma opener_tail : Forall (fun c => c <> 60) (lit "!-- CHECKPOINT id=" ++ [DQ]).
Proof. vm_compute. repeat constructor; discriminate. Qed.

Lemma match_opener_miss R prev s :
  strip_prefix checkpoint_opener s = None ->
  match_at (Seq (Lit checkpoint_opener) R) prev s = None.
Proof. intros H. unfold match_at. by rewrite lit_fails. Qed.

(** The search passes over a text without the opener, finds the checkpoint
    behind it and goes on behind the checkpoint. *)
Lemma extract_step t c rest :
  readable_checkpoint c -> includes checkpoint_opener t = false ->
  Roundtrip.extractCheckpoints (t ++ serializeCheckpoint c ++ rest)
  = c :: Roundtrip.extractCheckpoints rest.
Proof.
  intros Hc Ht. unfold Roundtrip.extractCheckpoints.
  rewrite exec_all_miss; [|apply checkpoint_re_prev_free|].
  - rewrite exec_all_hit with (cs := [(7%nat, join (lit ",") (cp_sectionsReviewed c));
                                      (6%nat, to_dec (cp_highlights c));
                                      (5%nat, to_dec (cp_questions c));
                                      (4%nat, to_dec (cp_fixes c));
                                      (3%nat, cp_note c);
                                      (2%nat, cp_timestamp c);
                                      (1%nat, cp_id c)]).
    + cbn [map]. by rewrite checkpoint_of_serialized.
    + apply checkpoint_re_prev_free.
    + apply serialized_nonempty.
    + by apply match_checkpoint.
  - intros t1 t2 E Hne. apply match_opener_miss.
    rewrite opener_split in *.
    apply (opener_miss 60 _ t t1 t2); try done.
    apply opener_tail.
Qed.

Lemma extract_absent t :
  includes checkpoint_opener t = false -> Roundtrip.extractCheckpoints t = [].
Proof.
  intros Ht. unfold Roundtrip.extractCheckpoints.
  rewrite (exec_all_absent _ checkpoint_opener); try done.
  intros prev s Hs. by apply match_at_lit.
Qed.

Lemma extract_lines cs :
  Forall readable_checkpoint cs ->
  Roundtrip.extractCheckpoints (unlines (map serializeCheckpoint cs)) = cs.
Proof.
  induction 1 as [|c cs Hc Hcs IH]; [reflexivity|].
  destruct cs as [|c' cs].
  - cbn [map unlines join].
    rewrite <- (app_nil_r (serializeCheckpoint c)).
    change (serializeCheckpoint c ++ []) with ([] ++ serializeCheckpoint c ++ []).
    by rewrite extract_step.
  - change (unlines (map serializeCheckpoint (c :: c' :: cs)))
      with ([] ++ serializeCheckpoint c ++ NL :: unlines (map serializeCheckpoint (c' :: cs))).
    rewrite extract_step by done. f_equal. rewrite <- IH at 2.
    unfold Roundtrip.extractCheckpoints. f_equal.
    change (NL :: ?x) with ([NL] ++ x).
    cbn [map]. destruct cs as [|c'' cs].
    + cbn [unlines join]. rewrite <- (app_nil_r (serializeCheckpoint c')).
      rewrite exec_all_miss; [done|apply checkpoint_re_prev_free|].
      intros t1 t2 E Hne. apply match_opener_miss.
      rewrite opener_split. apply (opener_miss 60 _ [NL] t1 t2); try done.
      apply opener_tail.
    + change (unlines (serializeCheckpoint c' :: ?l))
        with (serializeCheckpoint c' ++ NL :: unlines l).
      rewrite exec_all_miss; [done|apply checkpoint_re_prev_free|].
      intros t1 t2 E Hne. apply match_opener_miss.
      rewrite opener_split. apply (opener_miss 60 _ [NL] t1 t2); try done.
      apply opener_tail.
Qed.

Lemma sample_checkpoint_valid : valid_checkpoint sample_checkpoint.
Proof.
  unfold valid_checkpoint, readable_checkpoint, safe_count, filled, attr_safe, comma_free.
  repeat split; try discriminate;
    try (right; discriminate);
    vm_compute; repeat constructor; discriminate.
Qed.

(** X28.  [extractCheckpoints] reads back what [serializeCheckpoint]
    writes, for valid checkpoints: texts that fit the one-line form and
    counts that are safe integers (below 2^53).  In a text that holds a
    serialized valid checkpoint behind a text without the opener of a
    checkpoint comment, the first checkpoint found is that checkpoint, and
    the search goes on behind it; a text without the opener holds no
    checkpoint; and a list of valid checkpoints written one per line is read
    back as that list, in order. *)
Theorem extractCheckpoints_read_back (t rest : jsstring) (c : Checkpoint)
    (cs : list Checkpoint) :
  valid_checkpoint c -> includes checkpoint_opener t = false ->
  Forall valid_checkpoint cs ->
  Roundtrip.extractCheckpoints (t ++ serializeCheckpoint c ++ rest)
  = c :: Roundtrip.extractCheckpoints rest /\
  Roundtrip.extractCheckpoints t = [] /\
  Roundtrip.extractCheckpoints (unlines (map serializeCheckpoint cs)) = cs.
Proof.
  intros [Hc _] Ht Hcs. split; [|split].
  - by apply extract_step.
  - by apply extract_absent.
  - by apply extract_lines, valid_checkpoints_readable.
Qed.

Lemma extractCheckpoints_read_back_witness :
  Roundtrip.extractCheckpoints
    (lit "# Plan" ++ [NL] ++ serializeCheckpoint sample_checkpoint ++ [NL])
  = [sample_checkpoint].
Proof.
  destruct (extractCheckpoints_read_back (lit "# Plan" ++ [NL]) [NL] sample_checkpoint
              [sample_checkpoint]) as (H & _ & _).
  - apply sample_checkpoint_valid.
  - reflexivity.
  - constructor; [apply sample_checkpoint_valid|constructor].
  - rewrite <- app_assoc in H. rewrite H. reflexivity.
Defined.

(** ** The checkpoint log *)

Lemma includes_true needle s :
  includes needle s = true -> exists pre post, s = pre ++ needle ++ post.
Proof.
  induction s as [|c s IH]; cbn [includes].
  - rewrite orb_false_r. intros H. apply starts_with_true in H as [r ->]. by exists [], r.
  - intros H. apply orb_true_iff in H as [H|H].
    + apply starts_with_true in H as [r ->]. by exists [], r.
    + destruct (IH H) as (pre & post & ->). by exists (c :: pre), post.
Qed.

Lemma includes_prefix needle p w :
  includes needle (p ++ w) = false -> includes needle p = false.
Proof.
  intros H. apply not_true_iff_false. intros Hp.
  apply includes_true in Hp as (pre & post & ->).
  rewrite <- !app_assoc in H. by rewrite includes_app in H.
Qed.

Lemma includes_app_false needle a b :
  (forall t1 t2, a = t1 ++ t2 -> t2 <> [] -> strip_prefix needle (t2 ++ b) = None) ->
  includes needle b = false -> includes needle (a ++ b) = false.
Proof.
  intros Ha Hb. induction a as [|c a IH]; [done|].
  pose proof (Ha [] (c :: a) eq_refl ltac:(done)) as H0. cbn [app] in *. cbn [includes].
  unfold starts_with. rewrite H0. cbn [orb].
  apply IH. intros t1 t2 -> Ht2. by apply (Ha (c :: t1) t2).
Qed.

Lemma opener_nl_free : Forall (fun c => c <> NL) checkpoint_opener.
Proof. vm_compute. repeat constructor; discriminate. Qed.

(** The two newlines [createCheckpoint] appends bring no opener. *)
Lemma no_opener_before_newlines p :
  includes checkpoint_opener p = false ->
  includes checkpoint_opener (p ++ [NL; NL]) = false.
Proof.
  intros Hp. apply includes_app_false; [|reflexivity].
  intros t1 t2 -> Ht2.
  destruct (strip_prefix checkpoint_opener (t2 ++ [NL; NL])) as [z|] eqn:E; [|done].
  destruct (straddle NL checkpoint_opener t2 [NL; NL] z opener_nl_free eq_refl E) as [q Hq].
  rewrite (includes_suffix checkpoint_opener t1 t2) in Hp; [done|].
  unfold starts_with. by rewrite Hq.
Qed.

Lemma trimEnd_fixed s :
  match last s with Some c => is_ws c = false | None => True end -> trimEnd s = s.
Proof.
  destruct s as [|x s _] using rev_ind; [done|].
  rewrite last_snoc. by apply trimEnd_snoc.
Qed.

Lemma trimEnd_behind P tail :
  (exists c, last P = Some c /\ is_ws c = false) ->
  trimEnd (P ++ tail) = P ++ trimEnd tail.
Proof.
  intros (c & Hl & Hc).
  destruct (trimEnd_split tail) as (ws & E & Hws).
  rewrite E at 1. rewrite app_assoc, trimEnd_app_ws by done.
  apply trimEnd_fixed.
  pose proof (trimEnd_last tail) as Ht.
  destruct (trimEnd tail) as [|y t _] using rev_ind.
  - by rewrite app_nil_r, Hl.
  - rewrite app_assoc, last_snoc. by rewrite last_snoc in Ht.
Qed.

Lemma serialized_last c : last (serializeCheckpoint c) = Some 62.
Proof.
  unfold serializeCheckpoint. cbv zeta. rewrite !app_assoc.
  change (lit " -->") with (lit " --" ++ [62]). by rewrite app_assoc, last_snoc.
Qed.

Lemma log_last log :
  log <> [] ->
  last (flat_map (fun tc => tc.1 ++ serializeCheckpoint tc.2) log) = Some 62.
Proof.
  intros Hne. destruct log as [|tc log _] using rev_ind; [done|].
  rewrite flat_map_app. cbn [flat_map]. rewrite app_nil_r, !app_assoc.
  pose proof (serialized_last tc.2) as Hl.
  destruct (serializeCheckpoint tc.2) as [|y s _] using rev_ind; [done|].
  rewrite last_snoc in Hl. by rewrite !app_assoc, last_snoc.
Qed.

Lemma trimEnd_with_checkpoints log tail :
  trimEnd (with_checkpoints log tail) = with_checkpoints log (trimEnd tail).
Proof.
  unfold with_checkpoints. destruct log as [|tc log]; [done|].
  apply trimEnd_behind. exists 62. split; [by apply log_last|done].
Qed.

Lemma with_checkpoints_snoc log t c tail :
  with_checkpoints log t ++ serializeCheckpoint c ++ tail
  = with_checkpoints (log ++ [(t, c)]) tail.
Proof.
  unfold with_checkpoints. rewrite flat_map_app. cbn [flat_map fst snd].
  by rewrite app_nil_r, <- !app_assoc.
Qed.

Lemma extract_log log tail :
  Forall (fun tc => includes checkpoint_opener tc.1 = false /\ readable_checkpoint tc.2) log ->
  includes checkpoint_opener tail = false ->
  Roundtrip.extractCheckpoints (with_checkpoints log tail) = map snd log.
Proof.
  intros Hlog Htail. unfold with_checkpoints.
  induction Hlog as [|[t c] log [Ht Hc] Hlog IH]; cbn [flat_map map app].
  - by apply extract_absent.
  - cbn [fst snd] in *. rewrite <- !app_assoc, extract_step by done. by rewrite IH.
Qed.

(** X29.  [createCheckpoint] appends to the log of checkpoints.  In a text
    whose checkpoint comments are the serialized forms of valid checkpoints
    (texts that fit the one-line form, counts that are safe integers, below
    2^53), [extractCheckpoints] finds exactly these, in order; and in the
    text [createCheckpoint] returns it finds the same checkpoints followed
    by the new one.  The note is free of newline and double quote, the
    headings of comma and double quote, and the time stamp is not empty. *)
Theorem createCheckpoint_appends_to_log
    (draw : nat -> nat) (clock : Clock)
    (log : list (jsstring * Checkpoint)) (tail note : jsstring) :
  let markdown := with_checkpoints log tail in
  let r := createCheckpoint draw clock markdown note in
  checkpoint_log log tail ->
  Forall (fun h => attr_safe h /\ comma_free h) (getAllSections markdown) ->
  attr_safe note ->
  filled (clock_iso clock) ->
  Roundtrip.extractCheckpoints markdown = map snd log /\
  Roundtrip.extractCheckpoints (updatedMarkdown r) = map snd log ++ [checkpoint r].
Proof.
  intros markdown r Hlog Hsecs Hnote Hclock.
  pose proof (created_valid draw clock markdown note Hsecs Hnote Hclock) as Hvalid.
  fold r in Hvalid.
  assert (Forall (fun tc => includes checkpoint_opener tc.1 = false
                            /\ readable_checkpoint tc.2) log) as Hl.
  { destruct Hlog as [Hl _]. eapply Forall_impl; [exact Hl|]. by intros tc [? [? _]]. }
  assert (includes checkpoint_opener tail = false) as Ht by apply Hlog.
  split; [by apply extract_log|].
  assert (updatedMarkdown r
          = with_checkpoints (log ++ [(trimEnd tail ++ [NL; NL], checkpoint r)]) [NL]) as ->.
  { rewrite <- with_checkpoints_snoc. unfold r at 1, createCheckpoint. cbv zeta.
    cbn [updatedMarkdown]. fold markdown. fold r.
    unfold markdown at 1. rewrite trimEnd_with_checkpoints.
    unfold with_checkpoints. by rewrite <- !app_assoc. }
  rewrite extract_log.
  - by rewrite map_app.
  - apply Forall_app. split; [done|]. constructor; [|done]. cbn [fst snd].
    split; [|done]. apply no_opener_before_newlines.
    destruct (trimEnd_split tail) as (ws & E & _). rewrite E in Ht.
    by apply includes_prefix in Ht.
  - reflexivity.
Qed.

Lemma createCheckpoint_appends_to_log_witness :
  let markdown := lit "# Plan" ++ [NL] ++ serializeCheckpoint sample_checkpoint ++ [NL] in
  let r := createCheckpoint (fun _ => 7%nat) clock0 markdown (lit "pass 2") in
  Roundtrip.extractCheckpoints (updatedMarkdown r) = [sample_checkpoint; checkpoint r].
Proof.
  destruct (createCheckpoint_appends_to_log (fun _ => 7%nat) clock0
              [(lit "# Plan" ++ [NL], sample_checkpoint)] [NL] (lit "pass 2"))
    as [_ H].
  - split; [|reflexivity]. constructor; [|constructor]. split; [reflexivity|].
    apply sample_checkpoint_valid.
  - vm_compute. repeat constructor; discriminate.
  - vm_compute. repeat constructor; discriminate.
  - split; [discriminate|]. vm_compute. repeat constructor; discriminate.
  - cbv zeta. unfold with_checkpoints in H. cbn [flat_map fst snd map app] in H.
    rewrite app_nil_r, <- !app_assoc in H. exact H.
Defined.

(** ** The legacy memo block *)

Section Legacy.

Variable clock : Clock.

Lemma exec_legacy_opener id color date :
  id <> [] -> Forall (fun c => c <> DQ) id ->
  (forall v, color = Some v -> v <> [] /\ Forall (fun c => c <> DQ) v) ->
  (forall v, date = Some v -> v <> [] /\ Forall (fun c => c <> DQ) v) ->
  f_caps <$> exec LEGACY_MEMO_START_RE (legacy_opener id color date) =
  Some (match date with Some d => [(3%nat, d)] | None => [] end
        ++ match color with Some c => [(2%nat, c)] | None => [] end
        ++ [(1%nat, id)]).
Proof.
  intros Hid Hidq Hcolor Hdate.
  unfold LEGACY_MEMO_START_RE, seqs, legacy_opener. cbn [fold_right]. rewrite exec_bol_caps.
  rewrite caps_lit, caps_v3_attr; [|by eexists _, _|done|done].
  set (tail := lit " -->").
  assert (tail = lit " " ++ lit "-->") as Htail by done.
  assert (exists x, v3_attr_text "date" date ++ tail = lit " " ++ x /\ stops is_ws x /\
                    strip_prefix (attr_head "color") x = None) as (x & Hx & Hxs & Hxp).
  { destruct date as [v|].
    - exists (attr_head "date" ++ v ++ [DQ] ++ tail). cbn [v3_attr_text].
      rewrite <- !app_assoc. done.
    - by exists (lit "-->"). }
  destruct (caps_v3_opt "color" 2 color
              (Seq (Opt (v3_attr "date" 3))
                 (Seq (star is_ws) (Seq (Lit (lit "-->")) (Seq Eol (Lit [])))))
              (Some DQ) _ x [(1%nat, id)] Hx) as (p1 & X1 & H1);
    [by eexists _, _|done|done|done|].
  rewrite H1. clear H1.
  destruct (caps_v3_opt "date" 3 date
              (Seq (star is_ws) (Seq (Lit (lit "-->")) (Seq Eol (Lit []))))
              p1 tail (lit "-->")
              (match color with Some v => (2%nat, v) :: [(1%nat, id)] | None => [(1%nat, id)] end)
              Htail) as (p2 & X2 & H2);
    [by eexists _, _|done|done|done|].
  rewrite H2. clear H2.
  unfold tail. change (lit " -->") with ([32] ++ lit "-->" ++ []).
  rewrite (caps_rep is_ws 0 _ _ [32]);
    [|by apply fails_on_lit|by repeat constructor|done|cbn; lia].
  rewrite caps_lit, caps_of_seq, bindc_eol.
  rewrite caps_of_nil. cbn [app head]. by destruct date, color.
Qed.

Lemma trim_legacy_opener id color date :
  trim (legacy_opener id color date) = legacy_opener id color date.
Proof.
  apply trim_fixed; [reflexivity|].
  unfold legacy_opener. rewrite !last_app. reflexivity.
Qed.

Lemma closes_legacy l : closes LEGACY_MEMO_END_RE l = true <-> trim l = legacy_closer.
Proof.
  unfold closes, LEGACY_MEMO_END_RE, legacy_closer, seqs. cbn [fold_right].
  rewrite test_bol, caps_of_seq, bindc_lit.
  destruct (strip_prefix (lit "<!-- @/memo -->") (trim l)) as [r|] eqn:E.
  - apply strip_prefix_Some in E. rewrite E. rewrite caps_of_seq, bindc_eol.
    destruct r; [by rewrite app_nil_r|]. split; [done|].
    intros H. apply (f_equal (@length N)) in H. rewrite length_app in H. cbn in H. lia.
  - split; [done|]. intros H. rewrite H in E. done.
Qed.

Lemma loop_body_legacy id color date memoLines closer rest st :
  filled id -> filled_if_present color -> filled_if_present date ->
  Forall (fun l => trim l <> legacy_closer) memoLines -> trim closer = legacy_closer ->
  loop_body clock (legacy_opener id color date) (memoLines ++ closer :: rest) st =
  (rest, push_memo st (legacy_memo clock (st_bodyLines st) id color date memoLines)).
Proof.
  intros Hid Hcolor Hdate Hopen Hclose. unfold loop_body. cbv zeta.
  rewrite trim_legacy_opener.
  pose proof (exec_legacy_opener id color date) as Hex.
  destruct (filled_quoted _ Hid) as [Hid1 Hid2].
  specialize (Hex Hid1 Hid2).
  assert (forall v, color = Some v -> v <> [] /\ Forall (fun c => c <> DQ) v) as Hc
    by (intros v E; apply filled_quoted, Hcolor, E).
  assert (forall v, date = Some v -> v <> [] /\ Forall (fun c => c <> DQ) v) as Hd
    by (intros v E; apply filled_quoted, Hdate, E).
  specialize (Hex Hc Hd).
  assert (exec MEMO_V3_RE (legacy_opener id color date) = None) as ->.
  { unfold MEMO_V3_RE, seqs. cbn [fold_right]. by apply exec_lit_none. }
  assert (test MEMO_V4_START_RE (legacy_opener id color date) = false) as ->.
  { unfold MEMO_V4_START_RE, seqs. cbn [fold_right]. by apply test_lit_false. }
  assert (test GATE_START_RE (legacy_opener id color date) = false) as ->.
  { unfold GATE_START_RE, seqs. cbn [fold_right]. by apply test_lit_false. }
  assert (test CURSOR_START_RE (legacy_opener id color date) = false) as ->.
  { unfold CURSOR_START_RE, seqs. cbn [fold_right]. by apply test_lit_false. }
  assert (exec CHECKPOINT_RE (legacy_opener id color date) = None) as ->.
  { unfold CHECKPOINT_RE, seqs. cbn [fold_right]. by apply exec_lit_none. }
  destruct (exec LEGACY_MEMO_START_RE (legacy_opener id color date)) as [m|]; [|done].
  injection Hex as Hcaps.
  rewrite take_block_app.
  2:{ eapply Forall_impl; [exact Hopen|]. intros l Hl.
      apply not_true_iff_false. intros E. by apply closes_legacy in E. }
  2:{ by apply closes_legacy. }
  f_equal. f_equal.
  unfold memo_of_legacy, legacy_memo, group. rewrite Hcaps. cbv zeta.
  destruct color as [c|], date as [d|]; cbn [app cap Nat.eqb from_option opt_or];
    unfold Datatypes.id;
    repeat match goal with
      | |- context [or_else ?v ?d] =>
          let H := fresh in
          assert (or_else v d = v) as H by
            (apply or_else_filled; first [by apply Hcolor | by apply Hdate]);
          rewrite H; clear H
      end; reflexivity.
Qed.

Lemma nl_free_legacy_opener id color date :
  filled id -> filled_if_present color -> filled_if_present date ->
  nl_free (legacy_opener id color date).
Proof.
  intros Hid Hcolor Hdate. unfold legacy_opener, v3_attr_text, attr_head, nl_free.
  assert (forall o key, Forall (fun c => c <> NL) (lit key) -> filled_if_present o ->
            Forall (fun c => c <> NL)
              match o with Some v => lit " " ++ (lit key ++ [61; DQ]) ++ v ++ [DQ] | None => [] end)
    as Hopt.
  { intros o key Hkey Ho. destruct o as [v|]; [|constructor].
    rewrite !Forall_app. repeat split; try done; try (by vm_compute; repeat constructor).
    apply attr_safe_nl, (Ho v eq_refl). }
  rewrite !Forall_app. repeat split;
    try (by vm_compute; repeat constructor);
    try (apply Hopt; [by vm_compute; repeat constructor|done]).
  apply attr_safe_nl, Hid.
Qed.

(** *** The text of a one-line block *)

Lemma search_miss r prev before t X :
  (forall t1 t2 prev', t = t1 ++ t2 -> t2 <> [] -> match_at r prev' (t2 ++ X) = None) ->
  search r prev before (t ++ X) = search r (prev_after prev t) (rev t ++ before) X.
Proof.
  revert prev before. induction t as [|c t IH]; intros prev before Hmiss; [done|].
  cbn [app]. unfold search at 1; fold search.
  pose proof (Hmiss [] (c :: t) prev eq_refl ltac:(done)) as H0. cbn [app] in H0.
  rewrite H0. rewrite IH.
  - cbn [rev]. rewrite <- app_assoc. f_equal.
    unfold prev_after. cbn [last]. destruct t as [|y t] using rev_ind; [done|].
    by rewrite app_comm_cons, !last_snoc.
  - intros t1 t2 prev' -> Ht2. by apply (Hmiss (c :: t1) t2).
Qed.

Lemma remove_legacy_open text :
  (exists c, head text = Some c /\ is_ws c = false) ->
  remove_first LEGACY_OPEN_RE (lit "<!-- " ++ text ++ lit " -->") = text ++ lit " -->".
Proof.
  intros (c & Hh & Hc). unfold remove_first, LEGACY_OPEN_RE, seqs. cbn [fold_right].
  rewrite exec_bol.
  assert (head (matches (Seq (Lit (lit "<!--")) (Seq (star is_ws) (Lit []))) None
                  (lit "<!--" ++ [32] ++ text ++ lit " -->") [])
          = Some (glue (lit "<!--") (glue [32] ([], text ++ lit " -->", [])))) as H.
  { apply first_lit. apply first_greedy; [by repeat constructor| |done].
    intros u1 u2 E Hne Hu1. destruct u1 as [|x u1]; [done|].
    destruct text as [|h text]; [done|]. injection Hh as ->.
    cbn [app] in E. injection E as <- _. inversion Hu1; subst. congruence. }
  change (lit "<!-- " ++ text ++ lit " -->") with (lit "<!--" ++ [32] ++ text ++ lit " -->").
  destruct (matches _ None _ []) as [|[[t r] cs] l]; [done|].
  injection H as -> -> ->. reflexivity.
Qed.

Lemma remove_legacy_close text :
  (text = [] \/ exists c, last text = Some c /\ is_ws c = false) ->
  remove_first LEGACY_CLOSE_RE (text ++ lit " -->") = text.
Proof.
  intros Hlast. unfold remove_first, exec, LEGACY_CLOSE_RE, seqs. cbn [fold_right].
  rewrite search_miss.
  - assert (forall prev, match_at (Seq (star is_ws) (Seq (Lit (lit "-->")) (Seq Eol (Lit []))))
                             prev (lit " -->") = Some (lit " -->", [], [])) as Hat.
    { intros prev. unfold match_at.
      rewrite (matches_prev_free (Seq (star is_ws) (Seq (Lit (lit "-->")) (Seq Eol (Lit []))))
                 eq_refl prev None).
      by vm_compute. }
    change (lit " -->") with [32; 45; 45; 62] in *.
    unfold search. rewrite Hat. cbn [f_before f_after].
    by rewrite !app_nil_r, rev_involutive.
  - intros t1 t2 prev' -> Ht2. unfold match_at.
    assert (caps_of (Seq (star is_ws) (Seq (Lit (lit "-->")) (Seq Eol (Lit []))))
                    prev' (t2 ++ lit " -->") [] = []) as H.
    { apply tail_rejects. destruct Hlast as [E|(c & Hl & Hc)].
      - by destruct t1, t2.
      - exists c. split; [|done]. rewrite last_app in Hl.
        by destruct (last t2) eqn:El; [|apply last_None in El]. }
    unfold caps_of in H. by destruct (matches _ prev' _ []).
Qed.

Lemma legacy_text_one_line text :
  one_line_text text -> legacy_text [lit "<!-- " ++ text ++ lit " -->"] = text.
Proof.
  intros (_ & Hh & Hl). unfold legacy_text. cbn [map unlines join].
  rewrite remove_legacy_open by done. rewrite remove_legacy_close by (by right).
  apply trim_fixed.
  - destruct Hh as (c & -> & Hc). exact Hc.
  - destruct Hl as (c & -> & Hc). exact Hc.
Qed.

End Legacy.



(** ** Highlight markup inside fenced code *)

(** C9.  The property: highlight markup [==text==] that stands inside a
    fenced code block contributes nothing to the counts.  The counter does
    not hold it: it runs its expression over the whole text and knows no
    fence.  For the code block that holds the line [==x==] it returns one
    highlight, and none for the same block without the markup.
    [normalizeHighlights], which turns the markup into the [<mark>] elements
    the counter's comment refers to, splits the text at the fenced blocks
    first and leaves them alone: it returns this document unchanged, while
    it rewrites the same markup outside a fence.  The counter so counts a
    highlight that is never made. *)
Lemma getAnnotationCounts_counts_fenced_markup :
  getAnnotationCounts doc_fenced = mkCounts 0 0 1 /\
  getAnnotationCounts doc_fenced_bare = mkCounts 0 0 0 /\
  normalizeHighlights doc_fenced = doc_fenced /\
  normalizeHighlights (lit "==x==") = lit "<mark>x</mark>".
Proof. repeat split; by vm_compute. Qed.

